(** * Coverage path planning on a grid: a shallow embedding of the
    [RobotNavigation] class of demo.py, h1.py, h13.py and h14.py.

    Coordinates are pairs [(x, y)]; the grid is the list of rows of the
    source, read as [grid[y][x]] with Python's index rules (a negative
    index counts from the end, an index out of range raises).  The two
    coverage sets are finite sets, the A* cost table a finite map.  The
    random module is a stream of raw draws threaded through the code. *)

From stdpp Require Import base option list gmap sorting strings.
From Stdlib Require Import ZArith Lia.

Local Open Scope Z_scope.

(** ** Exceptions and results *)

Inductive exn := IndexError | ValueError | KeyError | StopIteration.

(** What running a piece of the program gives: a value, a raised
    exception, or [Unfinished] when the loop budget or the random draws
    handed to the model are used up before the program returns. *)
Inductive outcome (A : Type) :=
  | Returned (a : A)
  | Raised (e : exn)
  | Unfinished.
Arguments Returned {A} a.
Arguments Raised {A} e.
Arguments Unfinished {A}.

#[global] Instance outcome_ret : MRet outcome := @Returned.
#[global] Instance outcome_bind : MBind outcome := λ A B k m,
  match m with
  | Returned a => k a
  | Raised e => Raised e
  | Unfinished => Unfinished
  end.

(** Code that calls the [random] module: the remaining draws go in, the
    result and the draws left over come out. *)
Definition rand (A : Type) : Type := list Z → outcome (A * list Z).

#[global] Instance rand_ret : MRet rand := λ A a draws, Returned (a, draws).
#[global] Instance rand_bind : MBind rand := λ A B k m draws,
  match m draws with
  | Returned (a, draws') => k a draws'
  | Raised e => Raised e
  | Unfinished => Unfinished
  end.

Definition lift {A} (m : outcome A) : rand A := λ draws,
  match m with
  | Returned a => Returned (a, draws)
  | Raised e => Raised e
  | Unfinished => Unfinished
  end.

(** [random.randint(a, b)]: an empty range raises before anything is
    drawn; otherwise one draw is reduced into [a..b]. *)
Definition randint (a b : Z) : rand Z := λ draws,
  if bool_decide (b < a) then Raised ValueError
  else match draws with
       | [] => Unfinished
       | r :: draws' => Returned (a + r `mod` (b - a + 1), draws')
       end.

(** [random.shuffle(l)]: one draw picks one of the orderings of [l]. *)
Definition shuffle {A} (l : list A) : rand (list A) := λ draws,
  match draws with
  | [] => Unfinished
  | r :: draws' =>
      let ps := permutations l in
      Returned (default l (ps !! Z.to_nat (r `mod` Z.of_nat (length ps))), draws')
  end.

(** ** Python lists *)

Definition py_index (n : nat) (i : Z) : option nat :=
  if bool_decide (0 ≤ i < Z.of_nat n) then Some (Z.to_nat i)
  else if bool_decide (- Z.of_nat n ≤ i < 0) then Some (Z.to_nat (Z.of_nat n + i))
  else None.

Definition getitem {A} (l : list A) (i : Z) : outcome A :=
  match py_index (length l) i ≫= (l !!.) with
  | Some a => Returned a
  | None => Raised IndexError
  end.

Definition setitem {A} (l : list A) (i : Z) (v : A) : outcome (list A) :=
  match py_index (length l) i with
  | Some n => Returned (<[n:=v]> l)
  | None => Raised IndexError
  end.

(** ** Cells, grid and session state *)

Definition cell : Type := Z * Z.

Definition UNVISITED : Z := 0.
Definition VISITED : Z := 1.
Definition OBSTACLE : Z := 2.
Definition ROBOT : Z := 3.
Definition RETRACED_PATH : Z := 4.
Definition DYNAMIC_OBSTACLE : Z := 5.

Record RobotNavigation := {
  width : Z;
  height : Z;
  grid : list (list Z);
  robot_pos : cell;
  visited_cells : gset cell;
  unvisited_cells : gset cell;
  dynamic_obstacles : list cell
}.

Definition with_grid (s : RobotNavigation) (g : list (list Z)) : RobotNavigation :=
  {| width := width s; height := height s; grid := g; robot_pos := robot_pos s;
     visited_cells := visited_cells s; unvisited_cells := unvisited_cells s;
     dynamic_obstacles := dynamic_obstacles s |}.

Definition with_dynamic_obstacles (s : RobotNavigation) (d : list cell) : RobotNavigation :=
  {| width := width s; height := height s; grid := grid s; robot_pos := robot_pos s;
     visited_cells := visited_cells s; unvisited_cells := unvisited_cells s;
     dynamic_obstacles := d |}.

(** [grid[y][x]] *)
Definition grid_get (g : list (list Z)) (p : cell) : outcome Z :=
  row ← getitem g p.2; getitem row p.1.

(** [grid[y][x] = v] *)
Definition grid_set (g : list (list Z)) (p : cell) (v : Z) : outcome (list (list Z)) :=
  row ← getitem g p.2; row' ← setitem row p.1 v; setitem g p.2 row'.

(** [0 <= x < self.width and 0 <= y < self.height] *)
Definition in_bounds (s : RobotNavigation) (p : cell) : bool :=
  bool_decide (0 ≤ p.1 < width s) && bool_decide (0 ≤ p.2 < height s).

Definition directions : list cell := [(0, 1); (1, 0); (0, -1); (-1, 0)].

Definition shift (p d : cell) : cell := (p.1 + d.1, p.2 + d.2).

(** ** heapq on tuples [(priority, cell, path)]

    Python compares the tuples lexicographically, and lists of cells
    lexicographically too.  That order is total and two items that
    compare equal are the same value, so [heappop] always hands out the
    one least item: the heap is kept here as the sorted list of its
    items. *)

Definition entry : Type := Z * cell * list cell.

Definition cell_compare (a b : cell) : comparison :=
  match a.1 ?= b.1 with
  | Eq => a.2 ?= b.2
  | c => c
  end.

Fixpoint path_compare (p q : list cell) : comparison :=
  match p, q with
  | [], [] => Eq
  | [], _ :: _ => Lt
  | _ :: _, [] => Gt
  | a :: p', b :: q' =>
      match cell_compare a b with
      | Eq => path_compare p' q'
      | c => c
      end
  end.

Definition entry_compare (e1 e2 : entry) : comparison :=
  match e1.1.1 ?= e2.1.1 with
  | Eq => match cell_compare e1.1.2 e2.1.2 with
          | Eq => path_compare e1.2 e2.2
          | c => c
          end
  | c => c
  end.

Definition entry_ltb (e1 e2 : entry) : bool :=
  match entry_compare e1 e2 with Lt => true | _ => false end.

Fixpoint heappush (h : list entry) (e : entry) : list entry :=
  match h with
  | [] => [e]
  | e' :: h' => if entry_ltb e' e then e' :: heappush h' e else e :: h
  end.

Definition heappop (h : list entry) : option (entry * list entry) :=
  match h with
  | [] => None
  | e :: h' => Some (e, h')
  end.

(** ** Tests shared by the search loops *)

(** The test of one neighbour in the search loops:
    in bounds, and then [grid[y][x] not in [OBSTACLE, DYNAMIC_OBSTACLE]]. *)
Definition passable (s : RobotNavigation) (p : cell) : outcome bool :=
  if in_bounds s p then
    v ← grid_get (grid s) p;
    mret (negb (bool_decide (v ∈ [OBSTACLE; DYNAMIC_OBSTACLE])))
  else mret false.

(** [sum(1 for dx, dy in [...] if in bounds and grid[..][..] == UNVISITED)] *)
Fixpoint unexplored_neighbors (s : RobotNavigation) (n : cell) (ds : list cell)
  : outcome Z :=
  match ds with
  | [] => mret 0
  | d :: ds' =>
      let q := shift n d in
      b ← (if in_bounds s q then v ← grid_get (grid s) q; mret (v =? UNVISITED)
           else mret false);
      k ← unexplored_neighbors s n ds';
      mret (if b : bool then 1 + k else k)
  end.

(** The result of the [for dx, dy in ...] loop of the frontier search for
    one dequeued item: the [return new_path] was reached, or the loop ran
    through and left this queue and this local [visited] set. *)
Inductive expansion :=
  | Found (path : list cell)
  | Continue (open_set : list entry) (visited : gset cell).

(** Loop budget of the frontier search.  Every item pushed is a cell of
    the grid not yet in the local [visited] set, so the loop runs at most
    once per cell, once for the start and once more to see the queue
    empty. *)
Definition search_fuel (s : RobotNavigation) : nat :=
  (Z.to_nat (width s) * Z.to_nat (height s) + 2)%nat.

(** ** [__init__]

    The number of dynamic obstacles is the literal of the placement loop
    ([range(3)] in demo.py and h14.py, [range(5)] in h1.py and h13.py). *)

Definition initial_unvisited (w h : Z) : gset cell :=
  list_to_set (x ← seqZ 0 w; y ← seqZ 0 h;
               if bool_decide ((x, y) ≠ (0, 0)) then [(x, y)] else []).

(** [for x, y in obstacles: ...] *)
Fixpoint place_obstacles (obstacles : list cell) (g : list (list Z))
    (unvisited : gset cell) : outcome (list (list Z) * gset cell) :=
  match obstacles with
  | [] => mret (g, unvisited)
  | p :: rest =>
      g' ← grid_set g p OBSTACLE;
      place_obstacles rest g' (unvisited ∖ {[p]})
  end.

(** The [while True] loop that places one dynamic obstacle. *)
Fixpoint place_dynamic_obstacle (fuel : nat) (w h : Z) (g : list (list Z))
  : rand (list (list Z) * cell) :=
  match fuel with
  | O => λ _, Unfinished
  | S fuel' =>
      x ← randint 0 (w - 1);
      y ← randint 0 (h - 1);
      v ← lift (grid_get g (x, y));
      if v =? UNVISITED then
        g' ← lift (grid_set g (x, y) DYNAMIC_OBSTACLE);
        mret (g', (x, y))
      else place_dynamic_obstacle fuel' w h g
  end.

(** [for _ in range(count): ...]; each round of the inner loop uses two
    draws, so the draws at hand bound its length. *)
Fixpoint place_dynamic_obstacles (count : nat) (w h : Z) (g : list (list Z))
    (placed : list cell) : rand (list (list Z) * list cell) :=
  match count with
  | O => mret (g, placed)
  | S count' => λ draws,
      ('(g', p) ← place_dynamic_obstacle (length draws) w h g;
       place_dynamic_obstacles count' w h g' (placed ++ [p])) draws
  end.

Definition init_with (count : nat) (w h : Z) (obstacles : list cell)
  : rand RobotNavigation :=
  let grid0 := replicate (Z.to_nat h) (replicate (Z.to_nat w) UNVISITED) in
  '(g1, unvisited) ← lift (place_obstacles obstacles grid0 (initial_unvisited w h));
  '(g2, dyn) ← place_dynamic_obstacles count w h g1 [];
  g3 ← lift (grid_set g2 (0, 0) ROBOT);
  mret {| width := w; height := h; grid := g3; robot_pos := (0, 0);
          visited_cells := {[(0, 0)]}; unvisited_cells := unvisited;
          dynamic_obstacles := dyn |}.

(** ** [move_dynamic_obstacles] (the same text in every file) *)

(** The state written back to the cell an obstacle leaves. *)
Definition restored_state (s : RobotNavigation) (p : cell) : Z :=
  if bool_decide (p ∈ visited_cells s) then VISITED
  else if bool_decide (p ∉ unvisited_cells s) then RETRACED_PATH
  else UNVISITED.

(** The first direction, in shuffled order, whose target is in bounds and
    holds [UNVISITED], [VISITED] or [RETRACED_PATH]. *)
Fixpoint first_free (s : RobotNavigation) (g : list (list Z)) (p : cell)
    (ds : list cell) : outcome (option cell) :=
  match ds with
  | [] => mret None
  | d :: ds' =>
      let q := shift p d in
      ok ← (if in_bounds s q then
              v ← grid_get g q;
              mret (bool_decide (v ∈ [UNVISITED; VISITED; RETRACED_PATH])
                    && negb (v =? ROBOT))
            else mret false);
      if ok : bool then mret (Some q) else first_free s g p ds'
  end.

(** The loop body for the obstacle at index [i]. *)
Definition move_dynamic_obstacle (s : RobotNavigation) (i : nat) (p : cell)
  : rand RobotNavigation :=
  g1 ← lift (grid_set (grid s) p (restored_state s p));
  ds ← shuffle directions;
  q ← lift (first_free s g1 p ds);
  match q with
  | Some q =>
      g2 ← lift (grid_set g1 q DYNAMIC_OBSTACLE);
      mret (with_dynamic_obstacles (with_grid s g2) (<[i:=q]> (dynamic_obstacles s)))
  | None => mret (with_grid s g1)
  end.

(** [for i, obstacle in enumerate(self.dynamic_obstacles)], from index [i]
    with [n] items to go. *)
Fixpoint move_dynamic_obstacles_from (n i : nat) (s : RobotNavigation)
  : rand RobotNavigation :=
  match n with
  | O => mret s
  | S n' =>
      match dynamic_obstacles s !! i with
      | None => mret s
      | Some p =>
          s' ← move_dynamic_obstacle s i p;
          move_dynamic_obstacles_from n' (S i) s'
      end
  end.

Definition move_dynamic_obstacles (s : RobotNavigation) : rand RobotNavigation :=
  move_dynamic_obstacles_from (length (dynamic_obstacles s)) 0 s.

(** ** [move_robot] *)

(** [for x, y in path[:-1]: if grid[y][x] == VISITED: grid[y][x] = RETRACED_PATH] *)
Fixpoint retrace (g : list (list Z)) (cells : list cell) : outcome (list (list Z)) :=
  match cells with
  | [] => mret g
  | p :: rest =>
      v ← grid_get g p;
      g' ← (if v =? VISITED then grid_set g p RETRACED_PATH else mret g);
      retrace g' rest
  end.

(** The part of [move_robot] after the path is retraced: the robot is
    put on [target]. *)
Definition arrive (s : RobotNavigation) (g : list (list Z)) (target : cell)
  : outcome (bool * RobotNavigation) :=
  g1 ← grid_set g (robot_pos s) VISITED;
  g2 ← grid_set g1 target ROBOT;
  mret (true,
        {| width := width s; height := height s; grid := g2; robot_pos := target;
           visited_cells := {[target]} ∪ visited_cells s;
           unvisited_cells := unvisited_cells s ∖ {[target]};
           dynamic_obstacles := dynamic_obstacles s |}).

(** [path[:-1]] and [path[-1]] of a non-empty list. *)
Definition but_last (path : list cell) : list cell := take (length path - 1) path.

(** ** demo.py *)

Module Demo.

Definition init := init_with 3.

(** The [for dx, dy in ...] loop of one dequeued item. *)
Fixpoint expand (s : RobotNavigation) (current : cell) (path : list cell)
    (ds : list cell) (open_set : list entry) (visited : gset cell)
  : outcome expansion :=
  match ds with
  | [] => mret (Continue open_set visited)
  | d :: ds' =>
      let neighbor := shift current d in
      ok ← passable s neighbor;
      if ok && negb (bool_decide (neighbor ∈ visited)) then
        let new_path := path ++ [neighbor] in
        if bool_decide (neighbor ∈ unvisited_cells s) then mret (Found new_path)
        else
          let visited' := {[neighbor]} ∪ visited in
          k ← unexplored_neighbors s neighbor directions;
          let priority := Z.of_nat (length new_path) - k in
          expand s current path ds' (heappush open_set (priority, neighbor, new_path)) visited'
      else expand s current path ds' open_set visited
  end.

(** The [while open_set] loop. *)
Fixpoint search (fuel : nat) (s : RobotNavigation) (open_set : list entry)
    (visited : gset cell) : outcome (option (list cell)) :=
  match fuel with
  | O => Unfinished
  | S fuel' =>
      match heappop open_set with
      | None => mret None
      | Some ((_, current, path), open_set') =>
          r ← expand s current path directions open_set' visited;
          match r with
          | Found p => mret (Some p)
          | Continue o v => search fuel' s o v
          end
      end
  end.

Definition find_most_efficient_path (s : RobotNavigation) : outcome (option (list cell)) :=
  let start := robot_pos s in
  search (search_fuel s) s (heappush [] (0, start, [])) {[start]}.

(** [path] is what the caller passes: [None] or a list. *)
Definition move_robot (s : RobotNavigation) (path : option (list cell))
  : outcome (bool * RobotNavigation) :=
  match path with
  | None | Some [] => mret (false, s)
  | Some path =>
      g ← retrace (grid s) (but_last path);
      let target := default (0, 0) (last path) in
      v ← grid_get g target;
      if v =? DYNAMIC_OBSTACLE then mret (false, with_grid s g)
      else arrive s g target
  end.

Definition is_exploration_complete (s : RobotNavigation) : bool :=
  bool_decide (size (unvisited_cells s) = 0%nat)
  && forallb (forallb (λ c, negb (c =? UNVISITED))) (grid s).

End Demo.

(** ** h14.py: the search and completion test of demo.py, and a
    [move_robot] without the wait on a dynamic obstacle *)

Module H14.

Definition init := init_with 3.

Fixpoint expand (s : RobotNavigation) (current : cell) (path : list cell)
    (ds : list cell) (open_set : list entry) (visited : gset cell)
  : outcome expansion :=
  match ds with
  | [] => mret (Continue open_set visited)
  | d :: ds' =>
      let neighbor := shift current d in
      ok ← passable s neighbor;
      if ok && negb (bool_decide (neighbor ∈ visited)) then
        let new_path := path ++ [neighbor] in
        if bool_decide (neighbor ∈ unvisited_cells s) then mret (Found new_path)
        else
          let visited' := {[neighbor]} ∪ visited in
          k ← unexplored_neighbors s neighbor directions;
          let priority := Z.of_nat (length new_path) - k in
          expand s current path ds' (heappush open_set (priority, neighbor, new_path)) visited'
      else expand s current path ds' open_set visited
  end.

Fixpoint search (fuel : nat) (s : RobotNavigation) (open_set : list entry)
    (visited : gset cell) : outcome (option (list cell)) :=
  match fuel with
  | O => Unfinished
  | S fuel' =>
      match heappop open_set with
      | None => mret None
      | Some ((_, current, path), open_set') =>
          r ← expand s current path directions open_set' visited;
          match r with
          | Found p => mret (Some p)
          | Continue o v => search fuel' s o v
          end
      end
  end.

Definition find_most_efficient_path (s : RobotNavigation) : outcome (option (list cell)) :=
  let start := robot_pos s in
  search (search_fuel s) s (heappush [] (0, start, [])) {[start]}.

Definition move_robot (s : RobotNavigation) (path : option (list cell))
  : outcome (bool * RobotNavigation) :=
  match path with
  | None | Some [] => mret (false, s)
  | Some path =>
      g ← retrace (grid s) (but_last path);
      arrive s g (default (0, 0) (last path))
  end.

Definition is_exploration_complete (s : RobotNavigation) : bool :=
  bool_decide (size (unvisited_cells s) = 0%nat)
  && forallb (forallb (λ c, negb (c =? UNVISITED))) (grid s).

End H14.

(** ** h1.py (and the class of h13.py, which is the same text): A* and
    the search that falls back on it *)

(** Loop budget of A*.  A cell is expanded once, pushing at most four
    items; an item popped for a cell already expanded is dropped. *)
Definition astar_fuel (s : RobotNavigation) : nat :=
  (5 * (Z.to_nat (width s) * Z.to_nat (height s) + 1) + 2)%nat.

Module H1.

Definition init := init_with 5.

(** The [for dx, dy in ...] loop of A* for the dequeued [current]. *)
Fixpoint relax (s : RobotNavigation) (target current : cell) (path : list cell)
    (ds : list cell) (open_set : list entry) (g_score : gmap cell Z)
  : outcome (list entry * gmap cell Z) :=
  match ds with
  | [] => mret (open_set, g_score)
  | d :: ds' =>
      let neighbor := shift current d in
      ok ← passable s neighbor;
      if ok : bool then
        match g_score !! current with
        | None => Raised KeyError
        | Some g_current =>
            let tentative_g_score := g_current + 1 in
            if match g_score !! neighbor with
               | None => true
               | Some g_neighbor => bool_decide (tentative_g_score < g_neighbor)
               end
            then
              let f_score := tentative_g_score + Z.abs (neighbor.1 - target.1)
                             + Z.abs (neighbor.2 - target.2) in
              relax s target current path ds'
                (heappush open_set (f_score, neighbor, path ++ [current]))
                (<[neighbor:=tentative_g_score]> g_score)
            else relax s target current path ds' open_set g_score
        end
      else relax s target current path ds' open_set g_score
  end.

Fixpoint astar_loop (fuel : nat) (s : RobotNavigation) (target : cell)
    (open_set : list entry) (g_score : gmap cell Z) (visited : gset cell)
  : outcome (option (list cell)) :=
  match fuel with
  | O => Unfinished
  | S fuel' =>
      match heappop open_set with
      | None => mret None
      | Some ((_, current, path), open_set') =>
          if bool_decide (current = target) then mret (Some (path ++ [current]))
          else if bool_decide (current ∈ visited) then
            astar_loop fuel' s target open_set' g_score visited
          else
            '(o, g) ← relax s target current path directions open_set' g_score;
            astar_loop fuel' s target o g ({[current]} ∪ visited)
      end
  end.

Definition astar_pathfinding (s : RobotNavigation) (start target : cell)
  : outcome (option (list cell)) :=
  astar_loop (astar_fuel s) s target (heappush [] (0, start, [])) {[start := 0]} ∅.

Fixpoint expand (s : RobotNavigation) (current : cell) (path : list cell)
    (ds : list cell) (open_set : list entry) (visited : gset cell)
  : outcome expansion :=
  match ds with
  | [] => mret (Continue open_set visited)
  | d :: ds' =>
      let neighbor := shift current d in
      ok ← passable s neighbor;
      if ok && negb (bool_decide (neighbor ∈ visited)) then
        let new_path := path ++ [neighbor] in
        if bool_decide (neighbor ∈ unvisited_cells s) then mret (Found new_path)
        else
          let visited' := {[neighbor]} ∪ visited in
          k ← unexplored_neighbors s neighbor directions;
          let priority := Z.of_nat (length new_path) - k in
          expand s current path ds' (heappush open_set (priority, neighbor, new_path)) visited'
      else expand s current path ds' open_set visited
  end.

Fixpoint search (fuel : nat) (s : RobotNavigation) (open_set : list entry)
    (visited : gset cell) : outcome (option (list cell)) :=
  match fuel with
  | O => Unfinished
  | S fuel' =>
      match heappop open_set with
      | None => mret None
      | Some ((_, current, path), open_set') =>
          r ← expand s current path directions open_set' visited;
          match r with
          | Found p => mret (Some p)
          | Continue o v => search fuel' s o v
          end
      end
  end.

Definition find_most_efficient_path (s : RobotNavigation) : outcome (option (list cell)) :=
  let start := robot_pos s in
  if bool_decide (size (unvisited_cells s) = 1%nat) then
    match elements (unvisited_cells s) with
    | target :: _ => astar_pathfinding s start target
    | [] => Raised StopIteration
    end
  else search (search_fuel s) s (heappush [] (0, start, [])) {[start]}.

Definition move_robot (s : RobotNavigation) (path : option (list cell))
  : outcome (bool * RobotNavigation) :=
  match path with
  | None | Some [] => mret (false, s)
  | Some path =>
      g ← retrace (grid s) (but_last path);
      arrive s g (default (0, 0) (last path))
  end.

Definition is_exploration_complete (s : RobotNavigation) : bool :=
  bool_decide (unvisited_cells s = ∅).

End H1.

(** ** h13.py: the robot's turn in the loop of [run_simulation] *)

Module H13.

Record simulation := {
  robot_nav : RobotNavigation;
  path_traveled : list cell;
  last_robot_move : Z;
  waiting_start_time : option Z
}.

(** Truth value of [waiting_start_time]: [None] and [0] are false. *)
Definition is_waiting (t : option Z) : bool :=
  match t with
  | Some t => negb (t =? 0)
  | None => false
  end.

(** [for x, y in path: if grid[y][x] == DYNAMIC_OBSTACLE: blocked = True; break] *)
Fixpoint blocked (g : list (list Z)) (path : list cell) : outcome bool :=
  match path with
  | [] => mret false
  | p :: rest =>
      v ← grid_get g p;
      if v =? DYNAMIC_OBSTACLE then mret true else blocked g rest
  end.

(** The body of [if current_time - last_robot_move > robot_delay:].  The
    boolean says whether the loop is left ([break]). *)
Definition robot_turn (current_time : Z) (st : simulation)
  : outcome (bool * simulation) :=
  let s := robot_nav st in
  path ← H1.find_most_efficient_path s;
  '(s1, traveled, waiting) ←
    match path with
    | None | Some [] => mret (s, path_traveled st, waiting_start_time st)
    | Some p =>
        b ← blocked (grid s) p;
        if b : bool then
          mret (s, path_traveled st,
                if is_waiting (waiting_start_time st) then waiting_start_time st
                else Some current_time)
        else
          '(_, s') ← H1.move_robot s (Some p);
          mret (s', path_traveled st ++ p, waiting_start_time st)
    end;
  if H1.is_exploration_complete s1 then
    g ← grid_set (grid s1) (robot_pos s1) ROBOT;
    mret (true, {| robot_nav := with_grid s1 g; path_traveled := traveled;
                   last_robot_move := last_robot_move st;
                   waiting_start_time := waiting |})
  else
    mret (false, {| robot_nav := s1; path_traveled := traveled;
                    last_robot_move := current_time;
                    waiting_start_time := waiting |}).

End H13.

(** * Vocabulary of the properties *)

(** A grid has the shape [w] by [h]. *)
Definition shaped (w h : Z) (g : list (list Z)) : Prop :=
  length g = Z.to_nat h ∧ Forall (λ row, length row = Z.to_nat w) g.

(** Two cells are neighbours in one of the four directions. *)
Definition adjacent (a b : cell) : Prop :=
  Z.abs (a.1 - b.1) + Z.abs (a.2 - b.2) = 1.

#[global] Instance adjacent_dec a b : Decision (adjacent a b).
Proof. unfold adjacent. apply _. Defined.

(** Each cell of [path] is a neighbour of the one before it, the first
    of [prev]. *)
Fixpoint connected (prev : cell) (path : list cell) : Prop :=
  match path with
  | [] => True
  | p :: rest => adjacent prev p ∧ connected p rest
  end.

#[global] Instance connected_dec prev path : Decision (connected prev path).
Proof. revert prev. induction path; simpl; apply _. Defined.

(** [p] is on the grid and holds neither a static nor a dynamic obstacle. *)
Definition open_cell (s : RobotNavigation) (p : cell) : Prop :=
  in_bounds s p = true ∧
  ∃ v, grid_get (grid s) p = Returned v ∧ v ≠ OBSTACLE ∧ v ≠ DYNAMIC_OBSTACLE.

(** What the frontier search promises about a path it returns from
    [start]: it ends on an unvisited cell and passes only over open cells
    that are neither unvisited nor the start. *)
Definition frontier_path (s : RobotNavigation) (start : cell) (path : list cell) : Prop :=
  ∃ before target,
    path = before ++ [target] ∧
    connected start path ∧
    Forall (open_cell s) path ∧
    (start ∉ path) ∧
    target ∈ unvisited_cells s ∧
    Forall (λ p, p ∉ unvisited_cells s) before.

(** What A* promises: the path runs from [start] to [target], both
    included, over open cells after the start. *)
Definition astar_path (s : RobotNavigation) (start target : cell) (path : list cell) : Prop :=
  ∃ rest,
    path = start :: rest ∧
    last path = Some target ∧
    connected start rest ∧
    Forall (open_cell s) rest.

(** The invariant of the items queued by the frontier search: the stored
    path leads from the start to the item's cell over open cells that
    are neither unvisited nor the start. *)
Definition frontier_cell_ok (s : RobotNavigation) (start p : cell) : Prop :=
  open_cell s p ∧ (p ∉ unvisited_cells s) ∧ p ≠ start.

Definition frontier_entry_ok (s : RobotNavigation) (start : cell) (e : entry) : Prop :=
  last (start :: e.2) = Some e.1.2 ∧ connected start e.2 ∧
  Forall (frontier_cell_ok s start) e.2.

(** The invariant of the items queued by A*: the stored cells, followed
    by the item's own cell, run from the start over open cells. *)
Definition astar_entry_ok (s : RobotNavigation) (start : cell) (e : entry) : Prop :=
  ∃ rest, e.2 ++ [e.1.2] = start :: rest ∧ connected start rest ∧
          Forall (open_cell s) rest.

(** ** Sessions and the states they reach *)

Definition on_grid (w h : Z) (p : cell) : Prop := 0 ≤ p.1 < w ∧ 0 ≤ p.2 < h.

(** The number of cells of the matrix that do not hold [OBSTACLE]. *)
Definition free_cells (s : RobotNavigation) : nat :=
  length (filter (λ c, c ≠ OBSTACLE) (concat (grid s))).

(** The states of a session of demo.py: built by [__init__] (with [count]
    dynamic obstacles), then changed by [move_dynamic_obstacles] and by
    [move_robot] on a path the search has just returned. *)
Inductive reachable (count : nat) (w h : Z) (obstacles : list cell)
  : RobotNavigation → Prop :=
  | reach_init draws s rest :
      init_with count w h obstacles draws = Returned (s, rest) →
      reachable count w h obstacles s
  | reach_obstacles s draws s' rest :
      reachable count w h obstacles s →
      move_dynamic_obstacles s draws = Returned (s', rest) →
      reachable count w h obstacles s'
  | reach_robot s path moved s' :
      reachable count w h obstacles s →
      Demo.find_most_efficient_path s = Returned (Some path) →
      Demo.move_robot s (Some path) = Returned (moved, s') →
      reachable count w h obstacles s'.

(** Every dynamic obstacle is on the grid, on a cell that is not [OBSTACLE]. *)
Definition apart (w h : Z) (g : list (list Z)) (dyn : list cell) : Prop :=
  Forall (λ p, on_grid w h p ∧ ∃ v, grid_get g p = Returned v ∧ v ≠ OBSTACLE) dyn.

(** Every cell of the grid that reads [UNVISITED] is in the set. *)
Definition coherent (w h : Z) (g : list (list Z)) (unvisited : gset cell) : Prop :=
  ∀ q, on_grid w h q → grid_get g q = Returned UNVISITED → q ∈ unvisited.

(** The two coverage sets split the cells that are not [OBSTACLE]. *)
Definition partition (w h : Z) (g : list (list Z)) (visited unvisited : gset cell) : Prop :=
  visited ## unvisited ∧
  ∀ p, p ∈ visited ∪ unvisited ↔ on_grid w h p ∧ grid_get g p ≠ Returned OBSTACLE.

Definition tidy (s : RobotNavigation) : Prop :=
  0 < width s ∧ 0 < height s ∧
  shaped (width s) (height s) (grid s) ∧
  apart (width s) (height s) (grid s) (dynamic_obstacles s) ∧
  coherent (width s) (height s) (grid s) (unvisited_cells s).

Definition covered (s : RobotNavigation) : Prop :=
  partition (width s) (height s) (grid s) (visited_cells s) (unvisited_cells s) ∧
  robot_pos s ∈ visited_cells s.

(** The coordinates of the cells that do not hold [OBSTACLE], row by row. *)
Fixpoint free_in_row (y x : Z) (row : list Z) : list cell :=
  match row with
  | [] => []
  | c :: row' =>
      (if bool_decide (c ≠ OBSTACLE) then [(x, y)] else []) ++ free_in_row y (x + 1) row'
  end.

Fixpoint free_in_grid (y : Z) (g : list (list Z)) : list cell :=
  match g with
  | [] => []
  | row :: g' => free_in_row y 0 row ++ free_in_grid (y + 1) g'
  end.

(** The set of all cells of a [w] by [h] grid. *)
Definition grid_cells (w h : Z) : gset cell :=
  list_to_set (x ← seqZ 0 w; y ← seqZ 0 h; [(x, y)]).

(** Every cell of the static obstacle list reads [OBSTACLE]. *)
Definition marked (obstacles : list cell) (g : list (list Z)) : Prop :=
  Forall (λ o, grid_get g o = Returned OBSTACLE) obstacles.

(** ** Concrete sessions used as test points *)

(** demo.py on a 3 by 3 grid with a static obstacle in the middle, after
    construction, one step of the dynamic obstacles and one move. *)
Definition session_3x3 : RobotNavigation :=
  {| width := 3; height := 3;
     grid := [[1; 3; 0]; [5; 2; 5]; [0; 5; 0]];
     robot_pos := (1, 0);
     visited_cells := list_to_set [(0, 0); (1, 0)];
     unvisited_cells := list_to_set [(2, 0); (0, 1); (2, 1); (0, 2); (1, 2); (2, 2)];
     dynamic_obstacles := [(2, 1); (0, 1); (1, 2)] |}.

(** A 5 by 5 grid without obstacles, the robot on its start cell. *)
Definition open_5x5 : RobotNavigation :=
  {| width := 5; height := 5;
     grid := [[3; 0; 0; 0; 0]; [0; 0; 0; 0; 0]; [0; 0; 0; 0; 0];
              [0; 0; 0; 0; 0]; [0; 0; 0; 0; 0]];
     robot_pos := (0, 0);
     visited_cells := {[(0, 0)]};
     unvisited_cells := initial_unvisited 5 5;
     dynamic_obstacles := [] |}.

(** A 5 by 5 grid on which only [(2, 2)] is still unvisited, the robot
    at [(0, 0)]. *)
Definition one_left_5x5 : RobotNavigation :=
  {| width := 5; height := 5;
     grid := [[3; 1; 1; 1; 1]; [1; 1; 1; 1; 1]; [1; 1; 0; 1; 1];
              [1; 1; 1; 1; 1]; [1; 1; 1; 1; 1]];
     robot_pos := (0, 0);
     visited_cells := {[(0, 0)]} ∪ initial_unvisited 5 5 ∖ {[(2, 2)]};
     unvisited_cells := {[(2, 2)]};
     dynamic_obstacles := [] |}.

(** h13.py near the end of a run: one cell is left, and a dynamic
    obstacle has stepped onto the robot's own cell. *)
Definition robot_under_obstacle : RobotNavigation :=
  {| width := 3; height := 3;
     grid := [[5; 1; 1]; [1; 1; 1]; [1; 1; 0]];
     robot_pos := (0, 0);
     visited_cells := {[(0, 0)]} ∪ initial_unvisited 3 3 ∖ {[(2, 2)]};
     unvisited_cells := {[(2, 2)]};
     dynamic_obstacles := [(0, 0)] |}.

Definition waiting_simulation : H13.simulation :=
  {| H13.robot_nav := robot_under_obstacle; H13.path_traveled := [];
     H13.last_robot_move := 0; H13.waiting_start_time := None |}.

(** demo.py right after [RobotNavigation(2, 2, [])] when the three
    dynamic obstacles fill the grid. *)
Definition crowded_2x2 : RobotNavigation :=
  {| width := 2; height := 2;
     grid := [[3; 5]; [5; 5]];
     robot_pos := (0, 0);
     visited_cells := {[(0, 0)]};
     unvisited_cells := list_to_set [(1, 0); (0, 1); (1, 1)];
     dynamic_obstacles := [(1, 0); (0, 1); (1, 1)] |}.

(** demo.py after [RobotNavigation(3, 3, [(-1, -1)])]: the obstacle is
    written to the last cell of the last row, and [(2, 2)] stays in
    [unvisited_cells]. *)
Definition wrapped_3x3 : RobotNavigation :=
  {| width := 3; height := 3;
     grid := [[3; 5; 5]; [5; 0; 0]; [0; 0; 2]];
     robot_pos := (0, 0);
     visited_cells := {[(0, 0)]};
     unvisited_cells := initial_unvisited 3 3;
     dynamic_obstacles := [(1, 0); (2, 0); (0, 1)] |}.

(** A 4 by 4 grid without static or dynamic obstacles. *)
Definition open_4x4 : RobotNavigation :=
  {| width := 4; height := 4;
     grid := [[3; 0; 0; 0]; [0; 0; 0; 0]; [0; 0; 0; 0]; [0; 0; 0; 0]];
     robot_pos := (0, 0);
     visited_cells := {[(0, 0)]};
     unvisited_cells := initial_unvisited 4 4;
     dynamic_obstacles := [] |}.

(** The state after [n] rounds of demo.py's loop in each of which
    [move_robot] returned [True] on the path just planned; [None] when
    one of the rounds has no such move. *)
Fixpoint successful_moves (n : nat) (s : RobotNavigation) : option RobotNavigation :=
  match n with
  | O => Some s
  | S n' =>
      match Demo.find_most_efficient_path s with
      | Returned path =>
          match Demo.move_robot s path with
          | Returned (true, s') => successful_moves n' s'
          | _ => None
          end
      | _ => None
      end
  end.

(** * More of the code: the loops, the window, the state machine and
    the robots of demoai.py *)


(** ** demo.py: the loop of [run_simulation]

    One pass of the body of [while running], without the event polling
    and the drawing: the obstacles step, a path is planned and taken, and
    the pass says whether the loop is left ([break]).  A move that waits
    ([continue]) skips the completion test. *)
Definition demo_iteration (st : RobotNavigation * list cell)
  : rand (bool * (RobotNavigation * list cell)) :=
  s1 ← move_dynamic_obstacles st.1;
  path ← lift (Demo.find_most_efficient_path s1);
  match path with
  | Some (c :: p) =>
      '(moved, s2) ← lift (Demo.move_robot s1 path);
      if moved : bool then
        mret (Demo.is_exploration_complete s2, (s2, st.2 ++ c :: p))
      else mret (false, (s2, st.2))
  | _ => mret (Demo.is_exploration_complete s1, (s1, st.2))
  end.

(** At most [n] passes of the loop; the result is the state in which the
    loop is left. *)
Fixpoint demo_loop (n : nat) (st : RobotNavigation * list cell)
  : rand (RobotNavigation * list cell) :=
  match n with
  | O => λ _, Unfinished
  | S n' =>
      '(stop, st') ← demo_iteration st;
      if stop : bool then mret st' else demo_loop n' st'
  end.

Definition demo_run_simulation (n : nat) (w h : Z) (obstacles : list cell)
  : rand (RobotNavigation * list cell) :=
  robot_nav ← Demo.init w h obstacles;
  demo_loop n (robot_nav, []).

(** ** h14.py: one pass of the loop of [main]

    [draw_path] starts with [len(path)], which raises TypeError when the
    search has returned [None]; the pass then ends there, which the
    result [None] stands for.  The pygame calls are left out. *)
Definition h14_main_pass (s : RobotNavigation) : rand (option RobotNavigation) :=
  s1 ← move_dynamic_obstacles s;
  path ← lift (H14.find_most_efficient_path s1);
  match path with
  | None => mret None
  | Some [] => mret (Some s1)
  | Some (_ :: _) => '(_, s2) ← lift (H14.move_robot s1 path); mret (Some s2)
  end.

(** h14.py right after [RobotNavigation(2, 2, [(1, 0)])] when the first
    dynamic obstacle was drawn onto the robot's cell and the other two
    onto the two cells that are left. *)
Definition walled_in_2x2 : RobotNavigation :=
  {| width := 2; height := 2;
     grid := [[3; 2]; [5; 5]];
     robot_pos := (0, 0);
     visited_cells := {[(0, 0)]};
     unvisited_cells := list_to_set [(0, 1); (1, 1)];
     dynamic_obstacles := [(0, 0); (0, 1); (1, 1)] |}.

(** ** demo.py: the sizes of [GridVisualization]

    The three attributes [__init__] computes before it opens the window
    (the pygame calls are left out).  [//] is floor division; [None]
    stands for the ZeroDivisionError of [800 // max(width, height)]. *)
Record GridVisualization := {
  CELL_SIZE : Z;
  SCREEN_WIDTH : Z;
  SCREEN_HEIGHT : Z
}.

Definition grid_visualization (w h : Z) : option GridVisualization :=
  if Z.max w h =? 0 then None
  else
    let cell_size := Z.max 20 (Z.min (800 / Z.max w h) 40) in
    Some {| CELL_SIZE := cell_size; SCREEN_WIDTH := w * cell_size;
            SCREEN_HEIGHT := h * cell_size |}.

(** The rectangle [draw_grid] fills for the cell [(x, y)]:
    left, top, width, height. *)
Definition cell_rect (v : GridVisualization) (p : cell) : Z * Z * Z * Z :=
  (p.1 * CELL_SIZE v, p.2 * CELL_SIZE v, CELL_SIZE v, CELL_SIZE v).

(** The end of a line of [draw_path] at the cell [(x, y)]. *)
Definition path_point (v : GridVisualization) (p : cell) : Z * Z :=
  (p.1 * CELL_SIZE v + CELL_SIZE v / 2, p.2 * CELL_SIZE v + CELL_SIZE v / 2).

(** The lines [draw_path] draws: one for each pair of consecutive cells. *)
Fixpoint draw_path (v : GridVisualization) (path : list cell)
  : list ((Z * Z) * (Z * Z)) :=
  match path with
  | p :: (q :: _) as rest => (path_point v p, path_point v q) :: draw_path v rest
  | _ => []
  end.

(** A point lies strictly inside the rectangle (left, top, width, height). *)
Definition inside (rect : Z * Z * Z * Z) (pt : Z * Z) : Prop :=
  let '(x0, y0, wd, ht) := rect in
  x0 < pt.1 < x0 + wd ∧ y0 < pt.2 < y0 + ht.

(** The rectangle lies in the window. *)
Definition in_window (v : GridVisualization) (rect : Z * Z * Z * Z) : Prop :=
  let '(x0, y0, wd, ht) := rect in
  0 ≤ x0 ∧ x0 + wd ≤ SCREEN_WIDTH v ∧ 0 ≤ y0 ∧ y0 + ht ≤ SCREEN_HEIGHT v.

(** The window of a 3 by 3 grid. *)
Definition window_3x3 : GridVisualization :=
  {| CELL_SIZE := 40; SCREEN_WIDTH := 120; SCREEN_HEIGHT := 120 |}.

(** * manvitha.py: the finite state machine

    A Python [str] is the sequence of its characters, each a Unicode
    code point; states and symbols are such strings.  The [for] loop of
    [test_input] walks the characters of the input and looks each one up
    as the string of that one character. *)
Module Manvitha.

Definition str : Type := list Z.

(** The [str] of a literal of ASCII characters, whose code points are
    the codes of its characters. *)
Definition lit (s : string) : str :=
  (λ a, Z.of_N (Ascii.N_of_ascii a)) <$> String.list_ascii_of_string s.

Record FSM := {
  states : gset str;
  alphabet : gset str;
  transitions : gmap str (gmap str str);
  start_state : option str;
  accepting_states : gset str
}.

Definition init : FSM :=
  {| states := ∅; alphabet := ∅; transitions := ∅; start_state := None;
     accepting_states := ∅ |}.

Definition set_states (f : FSM) (new_states : list str) : FSM :=
  {| states := list_to_set new_states; alphabet := alphabet f;
     transitions := transitions f; start_state := start_state f;
     accepting_states := accepting_states f |}.

Definition set_alphabet (f : FSM) (new_alphabet : list str) : FSM :=
  {| states := states f; alphabet := list_to_set new_alphabet;
     transitions := transitions f; start_state := start_state f;
     accepting_states := accepting_states f |}.

Definition set_start_state (f : FSM) (new_start : str) : outcome FSM :=
  if bool_decide (new_start ∈ states f) then
    Returned {| states := states f; alphabet := alphabet f;
                transitions := transitions f; start_state := Some new_start;
                accepting_states := accepting_states f |}
  else Raised ValueError.

Definition set_accepting_states (f : FSM) (new_accepting : list str) : FSM :=
  {| states := states f; alphabet := alphabet f;
     transitions := transitions f; start_state := start_state f;
     accepting_states := list_to_set new_accepting |}.

Definition add_transition (f : FSM) (from_state input_symbol to_state : str)
  : outcome FSM :=
  if bool_decide (from_state ∈ states f) && bool_decide (to_state ∈ states f)
     && bool_decide (input_symbol ∈ alphabet f) then
    let row := default ∅ (transitions f !! from_state) in
    Returned {| states := states f; alphabet := alphabet f;
                transitions :=
                  <[from_state := <[input_symbol := to_state]> row]> (transitions f);
                start_state := start_state f;
                accepting_states := accepting_states f |}
  else Raised ValueError.

(** [transitions[current_state][symbol]] behind its two [in] tests;
    [current_state] is [None] as long as no start state is set. *)
Definition next_state (f : FSM) (current_state : option str) (symbol : str)
  : option str :=
  q ← current_state; row ← transitions f !! q; row !! symbol.

(** The loop of [test_input] from [current_state] on: [symbol] is the
    string [[c]] of the one character [c]. *)
Fixpoint test_from (f : FSM) (current_state : option str) (input_string : str)
  : bool :=
  match input_string with
  | [] =>
      match current_state with
      | Some q => bool_decide (q ∈ accepting_states f)
      | None => false
      end
  | c :: rest =>
      match next_state f current_state [c] with
      | Some q => test_from f (Some q) rest
      | None => false
      end
  end.

Definition test_input (f : FSM) (input_string : str) : bool :=
  test_from f (start_state f) input_string.

(** [FSMGUI.submit_fsm] on the four entries, the lists already split at
    the commas: the error of [set_start_state] is caught, and what was
    set before it stays set. *)
Definition submit_fsm (f : FSM) (new_states new_alphabet : list str)
    (new_start : str) (new_accepting : list str) : FSM :=
  let f1 := set_alphabet (set_states f new_states) new_alphabet in
  match set_start_state f1 new_start with
  | Returned f2 => set_accepting_states f2 new_accepting
  | _ => f1
  end.

(** *** Vocabulary for the properties of the machine *)

(** The state the machine is in after the characters of [input_string],
    if it does not get stuck. *)
Fixpoint run (f : FSM) (current_state : option str) (input_string : str)
  : option str :=
  match input_string with
  | [] => current_state
  | c :: rest =>
      match next_state f current_state [c] with
      | Some q => run f (Some q) rest
      | None => None
      end
  end.

(** The symbols of a string, one for each character. *)
Definition symbols (input_string : str) : list str :=
  (λ c, [c]) <$> input_string.

(** Every stored transition is between defined states on a symbol of the
    alphabet, and so is the start state. *)
Definition well_formed (f : FSM) : Prop :=
  (∀ q x q', next_state f (Some q) x = Some q' →
             q ∈ states f ∧ x ∈ alphabet f ∧ q' ∈ states f) ∧
  (∀ q, start_state f = Some q → q ∈ states f).

(** The machines the window builds: one submission on a fresh machine,
    then transitions added one by one. *)
Inductive assembled : FSM → Prop :=
  | assembled_submit sts alph start acc :
      assembled (submit_fsm init sts alph start acc)
  | assembled_transition f a x b f' :
      assembled f → add_transition f a x b = Returned f' → assembled f'.

(** A machine for the words over a and b that end in b. *)
Definition ends_in_b : FSM :=
  {| states := {[lit "p"; lit "q"]}; alphabet := {[lit "a"; lit "b"]};
     transitions := {[lit "p" := {[lit "a" := lit "p"; lit "b" := lit "q"]};
                      lit "q" := {[lit "a" := lit "p"; lit "b" := lit "q"]}]};
     start_state := Some (lit "p"); accepting_states := {[lit "q"]} |}.

(** A machine that reads one e with an acute accent (code point 233, not
    an ASCII character), and whose alphabet also holds a symbol of two
    characters. *)
Definition long_symbol : FSM :=
  {| states := {[lit "p"; lit "q"]}; alphabet := {[[233]; lit "ab"]};
     transitions := {[lit "p" := {[[233] := lit "q"]}]};
     start_state := Some (lit "p"); accepting_states := {[lit "q"]} |}.

End Manvitha.

(** * demoai.py: several robots on one grid

    [move_dynamic_obstacles], [astar_pathfinding] and the two loops of
    [find_most_efficient_path] have the text of h1.py, with
    [robot_positions[robot_index]] where h1.py has [robot_pos]; they are
    run here on the single-robot object that holds the same attributes. *)
Module DemoAI.

Definition planner : Type := RobotNavigation.
Definition planner_grid (s : planner) : list (list Z) := grid s.
Definition planner_visited_cells (s : planner) : gset cell := visited_cells s.
Definition planner_unvisited_cells (s : planner) : gset cell := unvisited_cells s.
Definition planner_dynamic_obstacles (s : planner) : list cell := dynamic_obstacles s.
Definition Planner (w h : Z) (g : list (list Z)) (start : cell)
    (visited unvisited : gset cell) (dyn : list cell) : planner :=
  {| width := w; height := h; grid := g; robot_pos := start;
     visited_cells := visited; unvisited_cells := unvisited;
     dynamic_obstacles := dyn |}.

Record RobotNavigation := {
  width : Z;
  height : Z;
  grid : list (list Z);
  robot_positions : list cell;
  visited_cells : gset cell;
  unvisited_cells : gset cell;
  dynamic_obstacles : list cell;
  robot_paths : gmap Z (list cell)
}.

(** The attributes the shared methods read, for the robot at [start]. *)
Definition as_seen_from (m : RobotNavigation) (start : cell) : planner :=
  Planner (width m) (height m) (grid m) start (visited_cells m)
    (unvisited_cells m) (dynamic_obstacles m).

Definition initial_unvisited (w h : Z) (positions : list cell) : gset cell :=
  list_to_set (x ← seqZ 0 w; y ← seqZ 0 h;
               if bool_decide ((x, y) ∉ positions) then [(x, y)] else []).

(** [for x, y in self.robot_positions: self.grid[y][x] = self.ROBOT] *)
Fixpoint mark_robots (positions : list cell) (g : list (list Z))
  : outcome (list (list Z)) :=
  match positions with
  | [] => mret g
  | p :: rest => g' ← grid_set g p ROBOT; mark_robots rest g'
  end.

Definition init (w h : Z) (obstacles positions : list cell) : rand RobotNavigation :=
  let grid0 := replicate (Z.to_nat h) (replicate (Z.to_nat w) UNVISITED) in
  '(g1, unvisited) ← lift (place_obstacles obstacles grid0 (initial_unvisited w h positions));
  '(g2, dyn) ← place_dynamic_obstacles 5 w h g1 [];
  g3 ← lift (mark_robots positions g2);
  mret {| width := w; height := h; grid := g3; robot_positions := positions;
          visited_cells := list_to_set positions; unvisited_cells := unvisited;
          dynamic_obstacles := dyn;
          robot_paths :=
            list_to_map ((λ i : nat, (Z.of_nat i, [])) <$> seq 0 (length positions)) |}.

(** The method reads no robot position: the start handed to the shared
    text is never looked at. *)
Definition move_dynamic_obstacles (m : RobotNavigation) : rand RobotNavigation :=
  s ← move_dynamic_obstacles (as_seen_from m (0, 0));
  mret {| width := width m; height := height m; grid := planner_grid s;
          robot_positions := robot_positions m;
          visited_cells := visited_cells m; unvisited_cells := unvisited_cells m;
          dynamic_obstacles := planner_dynamic_obstacles s;
          robot_paths := robot_paths m |}.

Definition find_most_efficient_path (m : RobotNavigation) (robot_index : Z)
  : outcome (option (list cell)) :=
  start ← getitem (robot_positions m) robot_index;
  H1.find_most_efficient_path (as_seen_from m start).

(** [robot_paths[robot_index]] is a dict lookup: a key that is missing
    raises KeyError. *)
Definition move_robot (m : RobotNavigation) (robot_index : Z) (path : option (list cell))
  : outcome (bool * RobotNavigation) :=
  match path with
  | None | Some [] => mret (false, m)
  | Some path =>
      g ← retrace (grid m) (but_last path);
      let target := default (0, 0) (last path) in
      pos ← getitem (robot_positions m) robot_index;
      '(_, s) ← arrive (as_seen_from m pos) g target;
      positions ← setitem (robot_positions m) robot_index target;
      match robot_paths m !! robot_index with
      | None => Raised KeyError
      | Some track =>
          mret (true,
                {| width := width m; height := height m; grid := planner_grid s;
                   robot_positions := positions;
                   visited_cells := planner_visited_cells s;
                   unvisited_cells := planner_unvisited_cells s;
                   dynamic_obstacles := dynamic_obstacles m;
                   robot_paths := <[robot_index := track ++ [target]]> (robot_paths m) |})
      end
  end.

Definition is_exploration_complete (m : RobotNavigation) : bool :=
  bool_decide (unvisited_cells m = ∅).

(** One pass of [for i in range(len(robot_positions))] in [run_simulation],
    over the indices still to come. *)
Fixpoint robots_turn (indices : list Z) (m : RobotNavigation) : outcome RobotNavigation :=
  match indices with
  | [] => mret m
  | i :: rest =>
      path ← find_most_efficient_path m i;
      match path with
      | Some (_ :: _) => '(_, m') ← move_robot m i path; robots_turn rest m'
      | _ => robots_turn rest m
      end
  end.

(** The three robots [run_simulation] starts with. *)
Definition start_positions (w h : Z) : list cell := [(0, 0); (0, h - 1); (w - 1, 0)].

(** The states of a session: built by [__init__], then changed by
    [move_dynamic_obstacles] and by a pass over the robots. *)
Inductive reachable (w h : Z) (obstacles positions : list cell)
  : RobotNavigation → Prop :=
  | reach_init draws m rest :
      init w h obstacles positions draws = Returned (m, rest) →
      reachable w h obstacles positions m
  | reach_obstacles m draws m' rest :
      reachable w h obstacles positions m →
      move_dynamic_obstacles m draws = Returned (m', rest) →
      reachable w h obstacles positions m'
  | reach_robots m m' :
      reachable w h obstacles positions m →
      robots_turn (seqZ 0 (Z.of_nat (length positions))) m = Returned m' →
      reachable w h obstacles positions m'.

(** The robots stand on visited cells, no two on the same one. *)
Definition separate (m : RobotNavigation) : Prop :=
  NoDup (robot_positions m) ∧
  Forall (λ p, p ∈ visited_cells m) (robot_positions m) ∧
  visited_cells m ## unvisited_cells m.

End DemoAI.

(** Each robot's recorded track is kept under its index, holds visited
    cells only and, once it is not empty, ends where the robot stands. *)
Definition tracked (m : DemoAI.RobotNavigation) : Prop :=
  ∀ i track, DemoAI.robot_paths m !! i = Some track →
    0 ≤ i < Z.of_nat (length (DemoAI.robot_positions m)) ∧
    Forall (λ p, p ∈ DemoAI.visited_cells m) track ∧
    (track = [] ∨ last track = DemoAI.robot_positions m !! Z.to_nat i).

(** demoai.py on a 4 by 4 grid with one static obstacle, after
    construction, one step of the dynamic obstacles and one pass over
    the three robots. *)
Definition fleet_4x4 : DemoAI.RobotNavigation :=
  {| DemoAI.width := 4; DemoAI.height := 4;
     DemoAI.grid := [[1; 5; 5; 1]; [3; 0; 0; 3]; [3; 0; 2; 5]; [1; 5; 0; 5]];
     DemoAI.robot_positions := [(0, 1); (0, 2); (3, 1)];
     DemoAI.visited_cells :=
       list_to_set [(0, 0); (0, 3); (3, 0); (0, 1); (0, 2); (3, 1)];
     DemoAI.unvisited_cells :=
       list_to_set [(1, 0); (2, 0); (1, 1); (2, 1); (1, 2); (3, 2);
                    (1, 3); (2, 3); (3, 3)];
     DemoAI.dynamic_obstacles := [(1, 0); (2, 0); (3, 2); (1, 3); (3, 3)];
     DemoAI.robot_paths := list_to_map [(0, [(0, 1)]); (1, [(0, 2)]); (2, [(3, 1)])] |}.

(** * Vocabulary of the further properties *)

(** A cell is queued when some item of the queue is for it. *)
Definition queued (open_set : list entry) (c : cell) : Prop :=
  ∃ e, e ∈ open_set ∧ e.1.2 = c.

(** All open neighbours of [c] are in [seen]. *)
Definition closed (s : RobotNavigation) (seen : gset cell) (c : cell) : Prop :=
  ∀ n, adjacent c n → open_cell s n → n ∈ seen.

(** What a pass of the loop keeps: the travelled cells lead from the
    start cell to the robot, every visited cell is the start or
    travelled, and the two coverage sets together are the cells of the
    grid outside the obstacle list. *)
Definition on_track (w h : Z) (obstacles : list cell)
    (st : RobotNavigation * list cell) : Prop :=
  connected (0, 0) st.2 ∧ last ((0, 0) :: st.2) = Some (robot_pos st.1) ∧
  visited_cells st.1 ⊆ {[(0, 0)]} ∪ list_to_set st.2 ∧
  visited_cells st.1 ∪ unvisited_cells st.1
  = {[(0, 0)]} ∪ initial_unvisited w h ∖ list_to_set obstacles.


(** The path stored in a queue item passes no cell twice and only cells
    of [seen]. *)
Definition simple_entry (seen : gset cell) (e : entry) : Prop :=
  NoDup e.2 ∧ ∀ c, c ∈ e.2 → c ∈ seen.

(** ** demo.py: [draw_grid]

    The colour table and the two loops over the cells, row by row; the
    result lists the rectangles filled and their colours.  A state that
    is not a key of [COLORS] raises KeyError. *)
Definition COLORS : gmap Z (Z * Z * Z) :=
  list_to_map [(0, (255, 255, 255)); (1, (200, 255, 200)); (2, (100, 100, 100));
               (3, (0, 0, 255)); (4, (255, 255, 0)); (5, (255, 0, 0))].

Fixpoint draw_cells (v : GridVisualization) (g : list (list Z)) (cells : list cell)
  : outcome (list (Z * Z * Z * Z * (Z * Z * Z))) :=
  match cells with
  | [] => mret []
  | p :: rest =>
      state ← grid_get g p;
      colour ← match COLORS !! state with
               | Some c => Returned c
               | None => Raised KeyError
               end;
      drawn ← draw_cells v g rest;
      mret ((cell_rect v p, colour) :: drawn)
  end.

Definition draw_grid (v : GridVisualization) (robot_nav : RobotNavigation)
  : outcome (list (Z * Z * Z * Z * (Z * Z * Z))) :=
  draw_cells v (grid robot_nav)
    (y ← seqZ 0 (height robot_nav); x ← seqZ 0 (width robot_nav); [(x, y)]).

(** Every cell of the matrix holds one of the six states. *)
Definition legend (g : list (list Z)) : Prop :=
  ∀ q state, grid_get g q = Returned state → 0 ≤ state ≤ 5.

#[global] Instance on_grid_dec w h p : Decision (on_grid w h p).
Proof. unfold on_grid. apply _. Defined.

(** The coordinates of the obstacle list that are cells of the grid other
    than the start cell [(0, 0)], which [__init__] hands to the robot. *)
Definition off_start (w h : Z) (obstacles : list cell) : list cell :=
  filter (λ o, on_grid w h o ∧ o ≠ (0, 0)) obstacles.

(** demo.py after [RobotNavigation(3, 3, [(0, 0)])], the robot's first
    move and one step of the dynamic obstacles. *)
Definition obstacle_on_start_3x3 : RobotNavigation :=
  {| width := 3; height := 3;
     grid := [[5; 0; 0]; [3; 0; 0]; [0; 5; 5]];
     robot_pos := (0, 1);
     visited_cells := list_to_set [(0, 0); (0, 1)];
     unvisited_cells := list_to_set [(1, 0); (2, 0); (1, 1); (2, 1); (0, 2); (1, 2); (2, 2)];
     dynamic_obstacles := [(0, 0); (1, 2); (2, 2)] |}.
(** * Properties *)

#[local] Set Warnings "-clear-no-such-hyp".

(** ** Reading results of the two monads *)

Lemma bind_Returned {A B} (m : outcome A) (k : A → outcome B) (b : B) :
  m ≫= k = Returned b → ∃ a, m = Returned a ∧ k a = Returned b.
Proof. destruct m as [a| |]; simpl; [eauto | discriminate..]. Qed.

Lemma rand_bind_Returned {A B} (m : rand A) (k : A → rand B) draws b rest :
  (m ≫= k) draws = Returned (b, rest) →
  ∃ a draws', m draws = Returned (a, draws') ∧ k a draws' = Returned (b, rest).
Proof.
  unfold mbind, rand_bind. destruct (m draws) as [[a d]| |]; [eauto | discriminate..].
Qed.

Lemma lift_Returned {A} (m : outcome A) draws a rest :
  lift m draws = Returned (a, rest) → m = Returned a ∧ rest = draws.
Proof. unfold lift. destruct m; intros; simplify_eq; auto. Qed.

Ltac outcome_inv :=
  repeat match goal with
  | H : _ ≫= _ = Returned _ |- _ =>
      apply bind_Returned in H; destruct H as (? & ? & H)
  | H : (_ ≫= _) _ = Returned (_, _) |- _ =>
      apply rand_bind_Returned in H; destruct H as (? & ? & ? & H)
  | H : lift _ _ = Returned (_, _) |- _ =>
      apply lift_Returned in H; destruct H as [H ?]
  | H : mret _ = Returned _ |- _ => injection H as H
  | H : mret _ _ = Returned _ |- _ => injection H as H
  | H : Returned _ = Returned _ |- _ => injection H as H
  | H : Raised _ = Returned _ |- _ => discriminate H
  | H : Unfinished = Returned _ |- _ => discriminate H
  end.

(** ** Python indexing *)

Lemma py_index_lt n i k : py_index n i = Some k → (k < n)%nat.
Proof. unfold py_index. repeat case_bool_decide; intros; simplify_eq; lia. Qed.

Lemma py_index_nonneg n i : 0 ≤ i < Z.of_nat n → py_index n i = Some (Z.to_nat i).
Proof. intros. unfold py_index. rewrite bool_decide_eq_true_2; auto. Qed.

Lemma py_index_inj n i j k :
  0 ≤ i < Z.of_nat n → 0 ≤ j < Z.of_nat n →
  py_index n i = Some k → py_index n j = Some k → i = j.
Proof. intros Hi Hj. rewrite !py_index_nonneg by done. intros; simplify_eq; lia. Qed.

Lemma getitem_Returned {A} (l : list A) i a :
  getitem l i = Returned a ↔ ∃ k, py_index (length l) i = Some k ∧ l !! k = Some a.
Proof.
  unfold getitem. destruct (py_index (length l) i) as [k|]; simpl.
  - destruct (l !! k) eqn:E; split; intros H; simplify_eq; eauto;
      destruct H as (? & ? & ?); simplify_eq; congruence.
  - split; [discriminate | intros (? & ? & ?); discriminate].
Qed.

Lemma getitem_total {A} (l : list A) i k :
  py_index (length l) i = Some k → ∃ a, getitem l i = Returned a.
Proof.
  intros Hk. destruct (lookup_lt_is_Some_2 l k (py_index_lt _ _ _ Hk)) as [a Ha].
  exists a. apply getitem_Returned; eauto.
Qed.

(** ** Grid reads and writes *)

Lemma grid_get_unfold g p :
  grid_get g p = match py_index (length g) p.2 ≫= (g !!.) with
                 | Some row => getitem row p.1
                 | None => Raised IndexError
                 end.
Proof.
  unfold grid_get, getitem.
  destruct (py_index (length g) p.2) as [y|]; simpl; [|done].
  by destruct (g !! y).
Qed.

Lemma grid_get_Returned g p v :
  grid_get g p = Returned v ↔
  ∃ y row x, py_index (length g) p.2 = Some y ∧ g !! y = Some row ∧
             py_index (length row) p.1 = Some x ∧ row !! x = Some v.
Proof.
  unfold grid_get. split.
  - intros H. outcome_inv. apply getitem_Returned in H0 as (y & ? & ?).
    apply getitem_Returned in H as (x' & ? & ?). eauto 10.
  - intros (y & row & x & Hy & Hrow & Hx & Hv).
    assert (getitem g p.2 = Returned row) as -> by (apply getitem_Returned; eauto).
    simpl. apply getitem_Returned; eauto.
Qed.

Lemma grid_set_spec g c v g' :
  grid_set g c v = Returned g' →
  length g' = length g ∧
  (∀ n, Forall (λ row, length row = n) g → Forall (λ row, length row = n) g') ∧
  grid_get g' c = Returned v ∧
  ∀ q, grid_get g' q = grid_get g q ∨
       (grid_get g' q = Returned v ∧ grid_get g q = grid_get g c).
Proof.
  unfold grid_set. intros H. outcome_inv.
  rename x into row, x0 into row'.
  apply getitem_Returned in H0 as (y & Hy & Hrow).
  unfold setitem in *.
  destruct (py_index (length row) c.1) as [xx|] eqn:Hx; [|discriminate].
  rewrite Hy in H. simplify_eq.
  pose proof (py_index_lt _ _ _ Hy) as Hylt.
  pose proof (py_index_lt _ _ _ Hx) as Hxlt.
  split; [by rewrite length_insert|].
  split.
  { intros n Hn. apply Forall_insert; [done|].
    rewrite length_insert. eapply Forall_lookup_1 in Hn; eauto. }
  assert (Hc' : grid_get (<[y:=<[xx:=v]> row]> g) c = Returned v).
  { apply grid_get_Returned. exists y, (<[xx:=v]> row), xx.
    rewrite !length_insert. split_and!; auto.
    - by apply list_lookup_insert_eq.
    - by apply list_lookup_insert_eq. }
  split; [done|].
  assert (Hc : grid_get g c = getitem row c.1).
  { unfold grid_get.
    assert (getitem g c.2 = Returned row) as -> by (apply getitem_Returned; eauto).
    done. }
  intros q. rewrite Hc, !(grid_get_unfold _ q), length_insert.
  destruct (py_index (length g) q.2) as [y'|] eqn:Hy'; simpl; [|by left].
  destruct (decide (y' = y)) as [->|Hne].
  - rewrite list_lookup_insert_eq by done. rewrite Hrow.
    unfold getitem. rewrite length_insert.
    destruct (py_index (length row) q.1) as [x'|] eqn:Hx'; simpl; [|by left].
    destruct (decide (x' = xx)) as [->|Hne].
    + right. rewrite list_lookup_insert_eq by done. split; [done|].
      rewrite Hx. done.
    + left. by rewrite list_lookup_insert_ne.
  - left. by rewrite list_lookup_insert_ne.
Qed.

Lemma grid_set_shaped w h g c v g' :
  grid_set g c v = Returned g' → shaped w h g → shaped w h g'.
Proof.
  intros H [Hl Hr]. apply grid_set_spec in H as (Hl' & Hr' & _). split; [congruence | auto].
Qed.

(** On a grid of the right shape a cell within the bounds can be read,
    and two such cells are only the same place when they are equal. *)
Lemma grid_get_in_bounds w h g p :
  shaped w h g → 0 ≤ p.1 < w → 0 ≤ p.2 < h →
  ∃ row v, g !! Z.to_nat p.2 = Some row ∧ row !! Z.to_nat p.1 = Some v ∧
           grid_get g p = Returned v.
Proof.
  intros [Hl Hr] Hx Hy.
  destruct (lookup_lt_is_Some_2 g (Z.to_nat p.2)) as [row Hrow]; [lia|].
  pose proof (Forall_lookup_1 _ _ _ _ Hr Hrow) as Hlen. simpl in Hlen.
  destruct (lookup_lt_is_Some_2 row (Z.to_nat p.1)) as [v Hv]; [lia|].
  exists row, v. split_and!; auto. apply grid_get_Returned.
  exists (Z.to_nat p.2), row, (Z.to_nat p.1). split_and!; auto.
  - apply py_index_nonneg. lia.
  - apply py_index_nonneg. lia.
Qed.

Lemma grid_set_other w h g c v g' q :
  grid_set g c v = Returned g' → shaped w h g →
  0 ≤ c.1 < w → 0 ≤ c.2 < h → 0 ≤ q.1 < w → 0 ≤ q.2 < h → q ≠ c →
  grid_get g' q = grid_get g q.
Proof.
  intros H [Hl Hr] Hcx Hcy Hqx Hqy Hne.
  unfold grid_set in H. outcome_inv. rename x into row.
  apply getitem_Returned in H0 as (y & Hy & Hrow).
  rewrite py_index_nonneg in Hy by lia. simplify_eq.
  pose proof (Forall_lookup_1 _ _ _ _ Hr Hrow) as Hlen. simpl in Hlen.
  unfold setitem in *. rewrite py_index_nonneg in H1 by lia.
  rewrite py_index_nonneg in H by lia. simplify_eq.
  rewrite !(grid_get_unfold _ q), length_insert, py_index_nonneg by lia. simpl.
  destruct (decide (Z.to_nat q.2 = Z.to_nat c.2)) as [Heq|Hne'].
  - rewrite Heq, list_lookup_insert_eq, Hrow by lia.
    unfold getitem. rewrite length_insert, py_index_nonneg by lia. simpl.
    rewrite list_lookup_insert_ne; [done|].
    intros ?. apply Hne. destruct q, c; simpl in *. f_equal; lia.
  - by rewrite list_lookup_insert_ne.
Qed.
(** ** The random source *)

(** [shuffle] returns an ordering of its list, and every ordering is
    returned for some draw. *)
Lemma shuffle_permutation {A} (l : list A) r draws :
  ∃ l', shuffle l (r :: draws) = Returned (l', draws) ∧ l ≡ₚ l'.
Proof.
  unfold shuffle. eexists. split; [done|].
  destruct (permutations l !! _) as [l'|] eqn:E; simpl; [|done].
  apply permutations_Permutation. by eapply list_elem_of_lookup_2.
Qed.

Lemma shuffle_any_permutation {A} (l l' : list A) draws :
  l ≡ₚ l' → ∃ r, shuffle l (r :: draws) = Returned (l', draws).
Proof.
  intros Hp. apply permutations_Permutation, list_elem_of_lookup in Hp as [i Hi].
  exists (Z.of_nat i). unfold shuffle.
  apply lookup_lt_Some in Hi as Hlt.
  rewrite Z.mod_small, Nat2Z.id, Hi by lia. done.
Qed.

(** [randint a b] returns a value of [a..b], and every such value is
    returned for some draw. *)
Lemma randint_any a b x draws :
  a ≤ x ≤ b → ∃ r, randint a b (r :: draws) = Returned (x, draws).
Proof.
  intros Hx. exists (x - a). unfold randint.
  rewrite bool_decide_eq_false_2, Z.mod_small by lia.
  do 2 f_equal. lia.
Qed.
(** ** Paths *)

Lemma connected_snoc prev path cur n :
  last (prev :: path) = Some cur → connected prev path → adjacent cur n →
  connected prev (path ++ [n]).
Proof.
  revert prev. induction path as [|p path IH]; intros prev Hlast Hc Hadj.
  - simpl in *. simplify_eq. auto.
  - destruct Hc as [? ?]. split; [done|]. apply IH; auto.
Qed.

Lemma shift_adjacent c d : d ∈ directions → adjacent c (shift c d).
Proof.
  unfold directions. rewrite !elem_of_cons, elem_of_nil.
  intros [->|[->|[->|[->|[]]]]]; unfold adjacent, shift; simpl; lia.
Qed.

Lemma passable_true s p : passable s p = Returned true → open_cell s p.
Proof.
  unfold passable, open_cell. destruct (in_bounds s p); [|discriminate].
  intros H. outcome_inv. split; [done|]. exists x. split; [done|].
  apply negb_true_iff, bool_decide_eq_false in H.
  rewrite !elem_of_cons, elem_of_nil in H. tauto.
Qed.

Lemma Forall_heappush (P : entry → Prop) h e :
  Forall P h → P e → Forall P (heappush h e).
Proof.
  induction 1 as [|e' h' He' Hh' IH]; intros He; simpl.
  - by constructor.
  - destruct (entry_ltb e' e); constructor; auto.
Qed.

Lemma length_heappush h e : length (heappush h e) = S (length h).
Proof. induction h as [|e' h' IH]; simpl; [done|]. destruct (entry_ltb e' e); simpl; auto. Qed.

(** ** The frontier search *)

Section frontier.
Variable s : RobotNavigation.
Variable start : cell.

#[local] Abbreviation cell_ok := (frontier_cell_ok s start).
#[local] Abbreviation entry_ok := (frontier_entry_ok s start).

Lemma frontier_path_intro path current n :
  last (start :: path) = Some current → connected start path →
  Forall cell_ok path → adjacent current n → open_cell s n → n ≠ start →
  n ∈ unvisited_cells s → frontier_path s start (path ++ [n]).
Proof.
  intros Hlast Hc Hok Hadj Hopen Hne Hun. exists path, n. split_and!; auto.
  - eapply connected_snoc; eauto.
  - apply Forall_app. split; [|by apply Forall_singleton].
    eapply Forall_impl; [exact Hok|]. by intros ? (? & _).
  - rewrite elem_of_app, list_elem_of_singleton. intros [Hin| ->]; [|done].
    rewrite Forall_forall in Hok. by destruct (Hok _ Hin) as (_ & _ & ?).
  - eapply Forall_impl; [exact Hok|]. by intros ? (_ & ? & _).
Qed.

Lemma expand_spec current path ds : ∀ open_set visited r,
  Forall (λ d, d ∈ directions) ds →
  last (start :: path) = Some current → connected start path → Forall cell_ok path →
  Forall entry_ok open_set → start ∈ visited →
  Demo.expand s current path ds open_set visited = Returned r →
  match r with
  | Found p => frontier_path s start p
  | Continue o v => Forall entry_ok o ∧ start ∈ v
  end.
Proof.
  induction ds as [|d ds IH]; intros open_set visited r Hds Hlast Hc Hok Ho Hs H.
  - simpl in H. outcome_inv. subst r. auto.
  - cbn -[directions] in H. apply Forall_cons in Hds as [Hd Hds].
    apply bind_Returned in H as (ok & Hpass & H).
    destruct ok; cbn -[directions] in H; [|by eapply IH].
    destruct (bool_decide (shift current d ∈ visited)) eqn:Hv; cbn -[directions] in H; [by eapply IH|].
    apply bool_decide_eq_false in Hv.
    assert (shift current d ≠ start) by (intros Heq; apply Hv; by rewrite Heq).
    pose proof (passable_true _ _ Hpass) as Hopen.
    pose proof (shift_adjacent current d Hd) as Hadj.
    case_bool_decide as Hun.
    + outcome_inv. subst r. eapply frontier_path_intro; eauto.
    + apply bind_Returned in H as (k & _ & H).
      refine (IH _ _ _ Hds Hlast Hc Hok _ _ H); [|by apply elem_of_union_r].
      apply Forall_heappush; [done|]. split_and!; simpl.
      * by rewrite last_cons, last_snoc.
      * eapply connected_snoc; eauto.
      * apply Forall_app. split; [done|]. by apply Forall_singleton.
Qed.

Lemma search_spec fuel : ∀ open_set visited path,
  Forall entry_ok open_set → start ∈ visited →
  Demo.search fuel s open_set visited = Returned (Some path) →
  frontier_path s start path.
Proof.
  induction fuel as [|fuel IH]; intros open_set visited p Ho Hs H; [discriminate|].
  destruct open_set as [|[[prio current] path] open_set]; cbn -[directions] in H.
  - outcome_inv. discriminate.
  - apply Forall_cons in Ho as [(Hlast & Hc & Hok) Ho]. simpl in Hlast, Hc, Hok.
    apply bind_Returned in H as (r & Hexp & H).
    eapply expand_spec in Hexp; eauto.
    + destruct r as [p'|o v].
      * outcome_inv. by simplify_eq.
      * destruct Hexp. eauto.
    + unfold directions. repeat constructor; set_solver.
Qed.
End frontier.

Lemma find_most_efficient_path_spec s path :
  Demo.find_most_efficient_path s = Returned (Some path) →
  frontier_path s (robot_pos s) path.
Proof.
  unfold Demo.find_most_efficient_path. intros H.
  eapply search_spec in H; eauto.
  - repeat constructor.
  - set_solver.
Qed.
(** ** A* *)

Section astar.
Variable s : RobotNavigation.
Variables start target : cell.

#[local] Abbreviation entry_ok := (astar_entry_ok s start).

Lemma relax_spec current path ds : ∀ open_set g_score o g,
  Forall (λ d, d ∈ directions) ds →
  entry_ok (0, current, path) → Forall entry_ok open_set →
  H1.relax s target current path ds open_set g_score = Returned (o, g) →
  Forall entry_ok o.
Proof.
  induction ds as [|d ds IH]; intros open_set g_score o g Hds Hcur Ho H.
  - cbn in H. outcome_inv. by simplify_eq.
  - cbn -[directions] in H. apply Forall_cons in Hds as [Hd Hds].
    apply bind_Returned in H as (ok & Hpass & H).
    destruct ok; [|by eapply IH].
    destruct (g_score !! current) as [gc|]; [|discriminate].
    destruct (match g_score !! shift current d with
              | Some g_neighbor => bool_decide (gc + 1 < g_neighbor)
              | None => true
              end); [|by eapply IH].
    refine (IH _ _ _ _ Hds Hcur _ H).
    apply Forall_heappush; [done|].
    destruct Hcur as (rest & Heq & Hc & Hopen). simpl in Heq.
    exists (rest ++ [shift current d]). simpl. split_and!.
    + by rewrite Heq.
    + eapply connected_snoc; eauto using shift_adjacent.
      by rewrite <- Heq, last_snoc.
    + apply Forall_app. split; [done|].
      apply Forall_singleton. by apply passable_true.
Qed.

Lemma astar_loop_spec fuel : ∀ open_set g_score visited path,
  Forall entry_ok open_set →
  H1.astar_loop fuel s target open_set g_score visited = Returned (Some path) →
  astar_path s start target path.
Proof.
  induction fuel as [|fuel IH]; intros open_set g_score visited p Ho H; [discriminate|].
  destruct open_set as [|[[f current] path] open_set]; cbn -[directions] in H.
  - outcome_inv. discriminate.
  - apply Forall_cons in Ho as [Hcur Ho].
    case_bool_decide as Ht.
    + outcome_inv. simplify_eq. destruct Hcur as (rest & Heq & Hc & Hopen).
      simpl in Heq. exists rest. split_and!; auto.
      by rewrite last_snoc.
    + case_bool_decide; [by eapply IH|].
      apply bind_Returned in H as ([o g] & Hrelax & H).
      eapply IH; [|exact H].
      eapply relax_spec; [| |exact Ho|exact Hrelax].
      * unfold directions. repeat constructor; set_solver.
      * exact Hcur.
Qed.
End astar.

Lemma astar_pathfinding_spec s start target path :
  H1.astar_pathfinding s start target = Returned (Some path) →
  astar_path s start target path.
Proof.
  unfold H1.astar_pathfinding. intros H.
  eapply astar_loop_spec in H; [done|].
  apply Forall_singleton. exists []. simpl. split_and!; auto.
Qed.

(** ** The three copies of the frontier search *)

Lemma H14_expand_eq s current path ds : ∀ open_set visited,
  H14.expand s current path ds open_set visited
  = Demo.expand s current path ds open_set visited.
Proof.
  induction ds as [|d ds IH]; intros; cbn -[directions]; [done|].
  destruct (passable s (shift current d)) as [ok| |]; cbn -[directions]; [|done..].
  destruct (ok && negb (bool_decide (shift current d ∈ visited))); [|apply IH].
  case_bool_decide; [done|].
  destruct (unexplored_neighbors s (shift current d) directions); cbn -[directions]; [|done..].
  apply IH.
Qed.

Lemma H14_search_eq fuel s : ∀ open_set visited,
  H14.search fuel s open_set visited = Demo.search fuel s open_set visited.
Proof.
  induction fuel as [|fuel IH]; intros; cbn -[directions]; [done|].
  destruct (heappop open_set) as [[[[f current] path] open_set']|]; [|done].
  rewrite H14_expand_eq.
  destruct (Demo.expand s current path directions open_set' visited) as [[p|o v]| |];
    cbn -[directions]; auto.
Qed.

Lemma H1_expand_eq s current path ds : ∀ open_set visited,
  H1.expand s current path ds open_set visited
  = Demo.expand s current path ds open_set visited.
Proof.
  induction ds as [|d ds IH]; intros; cbn -[directions]; [done|].
  destruct (passable s (shift current d)) as [ok| |]; cbn -[directions]; [|done..].
  destruct (ok && negb (bool_decide (shift current d ∈ visited))); [|apply IH].
  case_bool_decide; [done|].
  destruct (unexplored_neighbors s (shift current d) directions); cbn -[directions]; [|done..].
  apply IH.
Qed.

Lemma H1_search_eq fuel s : ∀ open_set visited,
  H1.search fuel s open_set visited = Demo.search fuel s open_set visited.
Proof.
  induction fuel as [|fuel IH]; intros; cbn -[directions]; [done|].
  destruct (heappop open_set) as [[[[f current] path] open_set']|]; [|done].
  rewrite H1_expand_eq.
  destruct (Demo.expand s current path directions open_set' visited) as [[p|o v]| |];
    cbn -[directions]; auto.
Qed.
(** ** The order of the priority queue *)

Lemma cell_compare_eq a b : cell_compare a b = Eq ↔ a = b.
Proof.
  unfold cell_compare. destruct a as [a1 a2], b as [b1 b2]; simpl.
  destruct (Z.compare_spec a1 b1); [|split; [done|intros; simplify_eq; lia]..].
  subst. rewrite Z.compare_eq_iff. split; intros; by simplify_eq.
Qed.

Lemma cell_compare_antisym a b : cell_compare b a = CompOpp (cell_compare a b).
Proof.
  unfold cell_compare. rewrite (Z.compare_antisym a.1 b.1), (Z.compare_antisym a.2 b.2).
  by destruct (a.1 ?= b.1).
Qed.

Lemma cell_compare_trans a b c :
  cell_compare a b = Lt → cell_compare b c = Lt → cell_compare a c = Lt.
Proof.
  unfold cell_compare.
  destruct (Z.compare_spec a.1 b.1), (Z.compare_spec b.1 c.1), (Z.compare_spec a.1 c.1);
    try done; try lia; rewrite !Z.compare_lt_iff; lia.
Qed.

Lemma path_compare_eq p : ∀ q, path_compare p q = Eq ↔ p = q.
Proof.
  induction p as [|a p IH]; intros [|b q]; simpl; try done.
  destruct (cell_compare a b) eqn:E.
  - apply cell_compare_eq in E as ->. rewrite IH. split; intros; by simplify_eq.
  - split; [done|]. intros; simplify_eq.
    assert (cell_compare b b = Eq) by by apply cell_compare_eq. congruence.
  - split; [done|]. intros; simplify_eq.
    assert (cell_compare b b = Eq) by by apply cell_compare_eq. congruence.
Qed.

Lemma path_compare_antisym p : ∀ q, path_compare q p = CompOpp (path_compare p q).
Proof.
  induction p as [|a p IH]; intros [|b q]; simpl; try done.
  rewrite (cell_compare_antisym a b), IH. by destruct (cell_compare a b).
Qed.

Lemma path_compare_trans p : ∀ q r,
  path_compare p q = Lt → path_compare q r = Lt → path_compare p r = Lt.
Proof.
  induction p as [|a p IH]; intros [|b q] [|c r]; simpl; try done.
  destruct (cell_compare a b) eqn:E1; [|clear IH|done];
    destruct (cell_compare b c) eqn:E2; try done; intros H1 H2.
  - apply cell_compare_eq in E1 as ->. rewrite E2. eauto.
  - apply cell_compare_eq in E1 as ->. by rewrite E2.
  - apply cell_compare_eq in E2 as <-. by rewrite E1.
  - by rewrite (cell_compare_trans a b c).
Qed.

Lemma entry_compare_eq e1 e2 : entry_compare e1 e2 = Eq ↔ e1 = e2.
Proof.
  destruct e1 as [[f1 c1] p1], e2 as [[f2 c2] p2]. unfold entry_compare. simpl.
  destruct (Z.compare_spec f1 f2); [|split; [done|intros; simplify_eq; lia]..].
  subst. destruct (cell_compare c1 c2) eqn:E.
  - apply cell_compare_eq in E as ->. rewrite path_compare_eq.
    split; intros; by simplify_eq.
  - split; [done|]. intros; simplify_eq.
    assert (cell_compare c2 c2 = Eq) by by apply cell_compare_eq. congruence.
  - split; [done|]. intros; simplify_eq.
    assert (cell_compare c2 c2 = Eq) by by apply cell_compare_eq. congruence.
Qed.

Lemma entry_compare_antisym e1 e2 : entry_compare e2 e1 = CompOpp (entry_compare e1 e2).
Proof.
  unfold entry_compare.
  rewrite (Z.compare_antisym e1.1.1 e2.1.1), (cell_compare_antisym e1.1.2 e2.1.2),
    (path_compare_antisym e1.2 e2.2).
  destruct (e1.1.1 ?= e2.1.1); simpl; [|done..].
  by destruct (cell_compare e1.1.2 e2.1.2).
Qed.

Lemma entry_compare_trans e1 e2 e3 :
  entry_compare e1 e2 = Lt → entry_compare e2 e3 = Lt → entry_compare e1 e3 = Lt.
Proof.
  unfold entry_compare.
  destruct (Z.compare_spec e1.1.1 e2.1.1) as [E1| |]; [|
    destruct (Z.compare_spec e2.1.1 e3.1.1) as [E2| |]; try done; intros _ _;
    (assert (e1.1.1 < e3.1.1) as ->%Z.compare_lt_iff by lia); done |done].
  rewrite E1. destruct (e2.1.1 ?= e3.1.1); [|done..].
  destruct (cell_compare e1.1.2 e2.1.2) eqn:C1; [| |done];
    destruct (cell_compare e2.1.2 e3.1.2) eqn:C2; try done; intros H1 H2.
  - apply cell_compare_eq in C1. rewrite C1, C2. eauto using path_compare_trans.
  - apply cell_compare_eq in C1. by rewrite C1, C2.
  - apply cell_compare_eq in C2. by rewrite <- C2, C1.
  - by rewrite (cell_compare_trans _ _ _ C1 C2).
Qed.

(** The queue stays sorted, so the item [heappop] hands out is not above
    any item left in the queue. *)
Lemma heappush_sorted h e :
  StronglySorted (λ e1 e2, entry_ltb e2 e1 = false) h →
  StronglySorted (λ e1 e2, entry_ltb e2 e1 = false) (heappush h e).
Proof.
  induction 1 as [|e' h Hs IH Hall]; simpl; [by repeat constructor|].
  destruct (entry_ltb e' e) eqn:E.
  - constructor; [done|]. apply Forall_heappush; [done|].
    unfold entry_ltb in *. rewrite entry_compare_antisym.
    by destruct (entry_compare e' e).
  - constructor; [by constructor|]. constructor; [done|].
    eapply Forall_impl; [exact Hall|]. intros e'' He''.
    unfold entry_ltb in *.
    destruct (entry_compare e'' e) eqn:E1; [done| |done].
    destruct (entry_compare e' e) eqn:E2; [|done|].
    + apply entry_compare_eq in E2 as ->. by rewrite E1 in He''.
    + assert (entry_compare e e' = Lt) as E3
        by (rewrite entry_compare_antisym, E2; done).
      by rewrite (entry_compare_trans _ _ _ E1 E3) in He''.
Qed.

Lemma heappop_least h e h' :
  StronglySorted (λ e1 e2, entry_ltb e2 e1 = false) h →
  heappop h = Some (e, h') →
  Forall (λ e', entry_ltb e' e = false) h' ∧
  StronglySorted (λ e1 e2, entry_ltb e2 e1 = false) h'.
Proof. intros Hs Hpop. destruct Hs; simpl in Hpop; simplify_eq. done. Qed.
(** ** How one write to the grid acts on the invariants *)

Lemma in_bounds_on_grid s p : in_bounds s p = true ↔ on_grid (width s) (height s) p.
Proof.
  unfold in_bounds, on_grid.
  rewrite andb_true_iff, !bool_decide_eq_true. tauto.
Qed.

Lemma apart_write w h g dyn c v g' :
  apart w h g dyn → grid_set g c v = Returned g' → v ≠ OBSTACLE → apart w h g' dyn.
Proof.
  intros Ha Hset Hv. apply grid_set_spec in Hset as (_ & _ & _ & Hq).
  eapply Forall_impl; [exact Ha|]. intros p (Hp & u & Hu & Hne). split; [done|].
  destruct (Hq p) as [E|[E _]]; rewrite E; eauto.
Qed.

Lemma coherent_write w h g unvisited c v g' :
  coherent w h g unvisited → grid_set g c v = Returned g' → v ≠ UNVISITED →
  coherent w h g' unvisited.
Proof.
  intros Hc Hset Hv q Hq Hread. apply grid_set_spec in Hset as (_ & _ & _ & Hall).
  destruct (Hall q) as [E|[E _]]; rewrite E in Hread.
  - by apply Hc.
  - congruence.
Qed.

Lemma coherent_restore w h g unvisited c v g' :
  shaped w h g → coherent w h g unvisited → on_grid w h c →
  (v = UNVISITED → c ∈ unvisited) →
  grid_set g c v = Returned g' → coherent w h g' unvisited.
Proof.
  intros Hs Hc [Hcx Hcy] Hv Hset q [Hqx Hqy] Hread.
  destruct (decide (q = c)) as [->|Hne].
  - apply grid_set_spec in Hset as (_ & _ & E & _). apply Hv. congruence.
  - rewrite (grid_set_other w h g c v g' q) in Hread by done. by apply Hc.
Qed.

Lemma coherent_remove w h g unvisited t :
  coherent w h g unvisited → grid_get g t ≠ Returned UNVISITED →
  coherent w h g (unvisited ∖ {[t]}).
Proof.
  intros Hc Ht q Hq Hread. apply elem_of_difference. split; [by apply Hc|].
  rewrite elem_of_singleton. congruence.
Qed.

Lemma obstacle_stable g c v g' :
  grid_set g c v = Returned g' → v ≠ OBSTACLE → grid_get g c ≠ Returned OBSTACLE →
  ∀ q, grid_get g' q = Returned OBSTACLE ↔ grid_get g q = Returned OBSTACLE.
Proof.
  intros Hset Hv Hc q. apply grid_set_spec in Hset as (_ & _ & _ & Hall).
  destruct (Hall q) as [E|[E1 E2]].
  - by rewrite E.
  - rewrite E1, E2. split; intros ?; [congruence | done].
Qed.

Lemma partition_write w h g visited unvisited c v g' :
  partition w h g visited unvisited →
  grid_set g c v = Returned g' → v ≠ OBSTACLE → grid_get g c ≠ Returned OBSTACLE →
  partition w h g' visited unvisited.
Proof.
  intros [Hd Hp] Hset Hv Hc. split; [done|]. intros p.
  rewrite Hp. by rewrite (obstacle_stable g c v g' Hset Hv Hc p).
Qed.

Lemma partition_open w h g visited unvisited p :
  partition w h g visited unvisited → p ∈ visited ∪ unvisited →
  grid_get g p ≠ Returned OBSTACLE.
Proof. intros [_ Hp] Hin. by apply Hp in Hin as [_ ?]. Qed.

(** ** [move_dynamic_obstacles] keeps the invariants *)

Lemma first_free_Some s g p ds q :
  first_free s g p ds = Returned (Some q) →
  on_grid (width s) (height s) q ∧
  ∃ v, grid_get g q = Returned v ∧ v ≠ OBSTACLE.
Proof.
  induction ds as [|d ds IH]; intros H; cbn in H; [by outcome_inv|].
  apply bind_Returned in H as (ok & Hok & H).
  destruct ok; [|auto]. outcome_inv. simplify_eq.
  destruct (in_bounds s (shift p d)) eqn:Hb; [|by outcome_inv].
  apply in_bounds_on_grid in Hb. split; [done|].
  outcome_inv. exists x. split; [done|].
  apply andb_true_iff in Hok as [Hok _]. apply bool_decide_eq_true in Hok.
  rewrite !elem_of_cons, elem_of_nil in Hok. unfold OBSTACLE.
  destruct Hok as [->|[->|[->|[]]]]; done.
Qed.

Lemma restored_state_open s p : restored_state s p ≠ OBSTACLE.
Proof. unfold restored_state. repeat case_bool_decide; done. Qed.

Lemma restored_state_unvisited s p :
  restored_state s p = UNVISITED → p ∈ unvisited_cells s.
Proof.
  unfold restored_state. repeat case_bool_decide; try done.
Qed.

Lemma move_dynamic_obstacle_spec s i p draws s' rest :
  tidy s → dynamic_obstacles s !! i = Some p →
  move_dynamic_obstacle s i p draws = Returned (s', rest) →
  tidy s' ∧ (covered s → covered s') ∧
  length (dynamic_obstacles s') = length (dynamic_obstacles s).
Proof.
  intros (Hw & Hh & Hshape & Hapart & Hcoh) Hp H.
  unfold move_dynamic_obstacle in H. outcome_inv.
  rename x into g1, x1 into ds, x3 into q, H0 into Hset1, H2 into Hfree.
  pose proof (Forall_lookup_1 _ _ _ _ Hapart Hp) as (Hpon & u & Hu & Hune).
  assert (Hshape1 : shaped (width s) (height s) g1) by eauto using grid_set_shaped.
  assert (Hapart1 : apart (width s) (height s) g1 (dynamic_obstacles s))
    by eauto using apart_write, restored_state_open.
  assert (Hcoh1 : coherent (width s) (height s) g1 (unvisited_cells s))
    by eauto using coherent_restore, restored_state_unvisited.
  assert (Hpart1 : covered s → partition (width s) (height s) g1
                                 (visited_cells s) (unvisited_cells s)).
  { intros [Hpart _]. eapply partition_write; eauto using restored_state_open.
    congruence. }
  destruct q as [q|]; outcome_inv; subst s'.
  - rename x into g2, H0 into Hset2.
    apply first_free_Some in Hfree as (Hqon & v & Hv & Hvne).
    pose proof (grid_set_spec _ _ _ _ Hset2) as (_ & _ & Hq2 & _).
    split_and!; simpl.
    + split_and!; simpl; eauto using grid_set_shaped.
      * apply Forall_insert.
        -- by refine (apart_write _ _ _ _ _ _ _ Hapart1 Hset2 _).
        -- split; [done|]. by exists DYNAMIC_OBSTACLE.
      * by refine (coherent_write _ _ _ _ _ _ _ Hcoh1 Hset2 _).
    + intros Hcov. split; simpl; [|by destruct Hcov].
      refine (partition_write _ _ _ _ _ _ _ _ (Hpart1 Hcov) Hset2 _ _); [done|congruence].
    + by rewrite length_insert.
  - split_and!; simpl; [|intros Hcov; split; [by apply Hpart1 | by destruct Hcov]|done].
    split_and!; simpl; auto.
Qed.

Lemma move_dynamic_obstacles_from_spec n : ∀ i s draws s' rest,
  tidy s → move_dynamic_obstacles_from n i s draws = Returned (s', rest) →
  tidy s' ∧ (covered s → covered s').
Proof.
  induction n as [|n IH]; intros i s draws s' rest Ht H; cbn in H.
  - outcome_inv. by simplify_eq.
  - destruct (dynamic_obstacles s !! i) as [p|] eqn:Hp; [|outcome_inv; by simplify_eq].
    outcome_inv. eapply move_dynamic_obstacle_spec in H0 as (Ht1 & Hc1 & _); eauto.
    eapply IH in H as (Ht2 & Hc2); eauto.
Qed.

Lemma move_dynamic_obstacles_spec s draws s' rest :
  tidy s → move_dynamic_obstacles s draws = Returned (s', rest) →
  tidy s' ∧ (covered s → covered s').
Proof. apply move_dynamic_obstacles_from_spec. Qed.
(** ** [move_robot] keeps the invariants *)

Lemma retrace_ind (P : list (list Z) → Prop) cells : ∀ g g',
  (∀ g c g', P g → grid_get g c = Returned VISITED →
             grid_set g c RETRACED_PATH = Returned g' → P g') →
  P g → retrace g cells = Returned g' → P g'.
Proof.
  induction cells as [|c cells IH]; intros g g' Hstep Hg H; cbn in H.
  - outcome_inv. by simplify_eq.
  - outcome_inv. rename x into v, x0 into g1.
    eapply IH; [exact Hstep| |exact H].
    destruct (v =? VISITED) eqn:Hv.
    + apply Z.eqb_eq in Hv as ->. eauto.
    + outcome_inv. by simplify_eq.
Qed.

Lemma partition_visit w h g visited unvisited t :
  partition w h g visited unvisited → t ∈ unvisited →
  partition w h g ({[t]} ∪ visited) (unvisited ∖ {[t]}).
Proof.
  intros [Hd Hp] Ht. split; [set_solver|]. intros p. rewrite <- Hp.
  destruct (decide (p = t)); set_solver.
Qed.

Lemma retrace_tidy w h g cells g' unvisited dyn :
  retrace g cells = Returned g' →
  shaped w h g ∧ apart w h g dyn ∧ coherent w h g unvisited →
  shaped w h g' ∧ apart w h g' dyn ∧ coherent w h g' unvisited.
Proof.
  intros H Hg.
  refine (retrace_ind (λ g, shaped w h g ∧ apart w h g dyn ∧ coherent w h g unvisited)
            cells g g' _ Hg H).
  intros g1 c g2 (? & ? & ?) _ Hset. split_and!.
  - eauto using grid_set_shaped.
  - by refine (apart_write _ _ _ _ _ _ _ _ Hset _).
  - by refine (coherent_write _ _ _ _ _ _ _ _ Hset _).
Qed.

Lemma retrace_partition w h g cells g' visited unvisited :
  retrace g cells = Returned g' →
  partition w h g visited unvisited → partition w h g' visited unvisited.
Proof.
  intros H Hg.
  refine (retrace_ind (λ g, partition w h g visited unvisited) cells g g' _ Hg H).
  intros g1 c g2 Hp Hread Hset.
  refine (partition_write _ _ _ _ _ _ _ _ Hp Hset _ _); [done|].
  rewrite Hread. discriminate.
Qed.

Lemma arrive_tidy s g target moved s' :
  0 < width s → 0 < height s →
  shaped (width s) (height s) g ∧ apart (width s) (height s) g (dynamic_obstacles s)
  ∧ coherent (width s) (height s) g (unvisited_cells s) →
  arrive s g target = Returned (moved, s') → tidy s'.
Proof.
  intros Hw Hh (Hs & Ha & Hc) H. unfold arrive in H. outcome_inv.
  rename x into g1, x0 into g2, H0 into Hset1, H1 into Hset2. simplify_eq.
  pose proof (grid_set_spec _ _ _ _ Hset2) as (_ & _ & Ht & _).
  split_and!; simpl; auto.
  - eauto using grid_set_shaped.
  - refine (apart_write _ _ _ _ _ _ _ _ Hset2 _); [|done].
    by refine (apart_write _ _ _ _ _ _ _ Ha Hset1 _).
  - apply coherent_remove; [|by rewrite Ht].
    refine (coherent_write _ _ _ _ _ _ _ _ Hset2 _); [|done].
    by refine (coherent_write _ _ _ _ _ _ _ Hc Hset1 _).
Qed.

Lemma move_robot_tidy s path moved s' :
  tidy s → Demo.move_robot s path = Returned (moved, s') → tidy s'.
Proof.
  intros (Hw & Hh & Hs & Ha & Hc) H.
  destruct path as [[|p path]|]; cbn in H; [outcome_inv; by simplify_eq| |outcome_inv; by simplify_eq].
  apply bind_Returned in H as (g & Hre & H).
  eapply retrace_tidy in Hre; [|eauto].
  apply bind_Returned in H as (v & Hv & H).
  destruct (v =? DYNAMIC_OBSTACLE).
  - outcome_inv. simplify_eq. destruct Hre as (? & ? & ?). by split_and!.
  - eapply arrive_tidy; eauto.
Qed.

Lemma frontier_path_last s start path :
  frontier_path s start path →
  ∃ t, last path = Some t ∧ t ∈ unvisited_cells s ∧ open_cell s t.
Proof.
  intros (before & t & -> & _ & Hopen & _ & Ht & _). exists t.
  rewrite last_snoc. split_and!; auto.
  apply Forall_app in Hopen as [_ Hopen]. by inversion Hopen.
Qed.

Lemma arrive_covered s g target moved s' :
  partition (width s) (height s) g (visited_cells s) (unvisited_cells s) →
  robot_pos s ∈ visited_cells s → target ∈ unvisited_cells s →
  arrive s g target = Returned (moved, s') → covered s'.
Proof.
  intros Hp Hr Ht H. unfold arrive in H. outcome_inv.
  rename x into g1, x0 into g2, H0 into Hset1, H1 into Hset2. simplify_eq.
  split; simpl; [|set_solver].
  apply partition_visit; [|done].
  assert (Hp1 : partition (width s) (height s) g1 (visited_cells s) (unvisited_cells s)).
  { refine (partition_write _ _ _ _ _ _ _ _ Hp Hset1 _ _); [done|].
    eapply partition_open; [exact Hp|set_solver]. }
  refine (partition_write _ _ _ _ _ _ _ _ Hp1 Hset2 _ _); [done|].
  eapply partition_open; [exact Hp1|set_solver].
Qed.

Lemma move_robot_covered s path moved s' :
  covered s → frontier_path s (robot_pos s) path →
  Demo.move_robot s (Some path) = Returned (moved, s') → covered s'.
Proof.
  intros [Hp Hr] Hpath H.
  apply frontier_path_last in Hpath as (t & Hlast & Ht & _).
  destruct path as [|p path]; [discriminate|]. cbn -[last but_last] in H.
  rewrite Hlast in H. simpl in H.
  apply bind_Returned in H as (g & Hre & H).
  eapply retrace_partition in Hre; [|exact Hp].
  apply bind_Returned in H as (v & Hv & H).
  destruct (v =? DYNAMIC_OBSTACLE).
  - outcome_inv. simplify_eq. by split.
  - eapply arrive_covered; eauto.
Qed.
(** ** The static obstacles keep their mark *)

Lemma marked_write obstacles g c v g' :
  marked obstacles g → grid_set g c v = Returned g' →
  grid_get g c ≠ Returned OBSTACLE → marked obstacles g'.
Proof.
  intros Hm Hset Hc. apply grid_set_spec in Hset as (_ & _ & _ & Hall).
  eapply Forall_impl; [exact Hm|]. intros o Ho. simpl in *.
  destruct (Hall o) as [E|[_ E]]; congruence.
Qed.

Lemma move_dynamic_obstacle_marked obstacles s i p draws s' rest :
  tidy s → dynamic_obstacles s !! i = Some p →
  move_dynamic_obstacle s i p draws = Returned (s', rest) →
  marked obstacles (grid s) → marked obstacles (grid s').
Proof.
  intros (_ & _ & _ & Hapart & _) Hp H Hm.
  unfold move_dynamic_obstacle in H. outcome_inv.
  rename x into g1, x3 into q, H0 into Hset1, H2 into Hfree.
  pose proof (Forall_lookup_1 _ _ _ _ Hapart Hp) as (_ & u & Hu & Hune).
  assert (marked obstacles g1) as Hm1.
  { refine (marked_write _ _ _ _ _ Hm Hset1 _). rewrite Hu. congruence. }
  destruct q as [q|]; outcome_inv; subst s'; simpl; [|done].
  apply first_free_Some in Hfree as (_ & v & Hv & Hvne).
  refine (marked_write _ _ _ _ _ Hm1 H0 _). rewrite Hv. congruence.
Qed.

Lemma move_dynamic_obstacles_from_marked obstacles n : ∀ i s draws s' rest,
  tidy s → move_dynamic_obstacles_from n i s draws = Returned (s', rest) →
  marked obstacles (grid s) → marked obstacles (grid s').
Proof.
  induction n as [|n IH]; intros i s draws s' rest Ht H Hm; cbn in H.
  - outcome_inv. by simplify_eq.
  - destruct (dynamic_obstacles s !! i) as [p|] eqn:Hp; [|outcome_inv; by simplify_eq].
    outcome_inv.
    pose proof (move_dynamic_obstacle_marked obstacles _ _ _ _ _ _ Ht Hp H0 Hm).
    eapply move_dynamic_obstacle_spec in H0 as (Ht1 & _ & _); eauto.
Qed.

Lemma retrace_marked obstacles g cells g' :
  retrace g cells = Returned g' → marked obstacles g → marked obstacles g'.
Proof.
  intros H Hg. refine (retrace_ind (marked obstacles) cells g g' _ Hg H).
  intros g1 c g2 Hm Hread Hset.
  refine (marked_write _ _ _ _ _ Hm Hset _). rewrite Hread. discriminate.
Qed.

Lemma move_robot_marked obstacles s path moved s' :
  covered s → frontier_path s (robot_pos s) path →
  Demo.move_robot s (Some path) = Returned (moved, s') →
  marked obstacles (grid s) → marked obstacles (grid s').
Proof.
  intros [Hp Hr] Hpath H Hm.
  apply frontier_path_last in Hpath as (t & Hlast & Ht & _).
  destruct path as [|p path]; [discriminate|]. cbn -[last but_last] in H.
  rewrite Hlast in H. simpl in H.
  apply bind_Returned in H as (g & Hre & H).
  pose proof (retrace_marked _ _ _ _ Hre Hm) as Hmg.
  eapply retrace_partition in Hre; [|exact Hp].
  apply bind_Returned in H as (v & Hv & H).
  destruct (v =? DYNAMIC_OBSTACLE); [outcome_inv; by simplify_eq|].
  unfold arrive in H. outcome_inv. rename x into g1, x0 into g2. simplify_eq. simpl.
  assert (partition (width s) (height s) g1 (visited_cells s) (unvisited_cells s)) as Hp1.
  { refine (partition_write _ _ _ _ _ _ _ _ Hre H0 _ _); [done|].
    eapply partition_open; [exact Hre|set_solver]. }
  refine (marked_write _ _ _ _ _ _ H1 _).
  - refine (marked_write _ _ _ _ _ Hmg H0 _).
    eapply partition_open; [exact Hre|set_solver].
  - eapply partition_open; [exact Hp1|set_solver].
Qed.

Lemma place_obstacles_marked obstacles : ∀ g unvisited g' unvisited' done,
  place_obstacles obstacles g unvisited = Returned (g', unvisited') →
  marked done g → marked (done ++ obstacles) g'.
Proof.
  induction obstacles as [|o obstacles IH]; intros g unv g' unv' done H Hm; cbn in H.
  - outcome_inv. simplify_eq. by rewrite app_nil_r.
  - apply bind_Returned in H as (g1 & Hset & H).
    replace (done ++ o :: obstacles) with ((done ++ [o]) ++ obstacles)
      by (by rewrite <- app_assoc).
    eapply IH; [exact H|].
    pose proof (grid_set_spec _ _ _ _ Hset) as (_ & _ & Ho & Hall).
    apply Forall_app. split; [|by apply Forall_singleton].
    eapply Forall_impl; [exact Hm|]. intros q Hq. simpl in *.
    destruct (Hall q) as [E|[E _]]; congruence.
Qed.

(** ** [__init__] establishes the invariants *)

Lemma shaped_replicate w h :
  shaped w h (replicate (Z.to_nat h) (replicate (Z.to_nat w) UNVISITED)).
Proof.
  split; [by rewrite length_replicate|].
  apply Forall_replicate. by rewrite length_replicate.
Qed.

Lemma grid_get_replicate w h q :
  on_grid w h q →
  grid_get (replicate (Z.to_nat h) (replicate (Z.to_nat w) UNVISITED)) q
  = Returned UNVISITED.
Proof.
  intros [Hx Hy].
  destruct (grid_get_in_bounds w h _ q (shaped_replicate w h) Hx Hy)
    as (row & v & Hrow & Hv & ->).
  apply lookup_replicate in Hrow as [-> _].
  apply lookup_replicate in Hv as [-> _]. done.
Qed.

Lemma elem_of_initial_unvisited w h q :
  q ∈ initial_unvisited w h ↔ on_grid w h q ∧ q ≠ (0, 0).
Proof.
  unfold initial_unvisited, on_grid. rewrite elem_of_list_to_set, list_elem_of_bind.
  split.
  - intros (x & Hy & Hx). apply list_elem_of_bind in Hy as (y & Hq & Hy).
    apply elem_of_seqZ in Hx, Hy. case_bool_decide; [|by apply elem_of_nil in Hq].
    apply list_elem_of_singleton in Hq as ->. simpl. split; [lia|done].
  - intros [[Hx Hy] Hne]. exists q.1. split; [|apply elem_of_seqZ; lia].
    apply list_elem_of_bind. exists q.2. split; [|apply elem_of_seqZ; lia].
    rewrite <- surjective_pairing. rewrite bool_decide_eq_true_2 by done.
    by apply list_elem_of_singleton.
Qed.

Lemma place_obstacles_tidy w h obstacles : ∀ g unvisited g' unvisited',
  place_obstacles obstacles g unvisited = Returned (g', unvisited') →
  shaped w h g → coherent w h g (unvisited ∪ {[(0, 0)]}) →
  shaped w h g' ∧ coherent w h g' (unvisited' ∪ {[(0, 0)]}).
Proof.
  induction obstacles as [|o obstacles IH]; intros g unv g' unv' H Hs Hc; cbn in H.
  - outcome_inv. by simplify_eq.
  - apply bind_Returned in H as (g1 & Hset & H).
    eapply IH; [exact H|eauto using grid_set_shaped|].
    pose proof (grid_set_spec _ _ _ _ Hset) as (_ & _ & Ho & _).
    intros q Hq Hread.
    pose proof (coherent_write _ _ _ _ _ _ _ Hc Hset ltac:(done) q Hq Hread).
    assert (q ≠ o) by (intros ->; by rewrite Ho in Hread).
    set_solver.
Qed.

Lemma place_obstacles_partition w h obstacles : ∀ g unvisited g' unvisited',
  place_obstacles obstacles g unvisited = Returned (g', unvisited') →
  Forall (λ p, on_grid w h p ∧ p ≠ (0, 0)) obstacles →
  shaped w h g → partition w h g {[(0, 0)]} unvisited →
  partition w h g' {[(0, 0)]} unvisited'.
Proof.
  induction obstacles as [|o obstacles IH]; intros g unv g' unv' H Hobs Hs Hp; cbn in H.
  - outcome_inv. by simplify_eq.
  - apply bind_Returned in H as (g1 & Hset & H).
    apply Forall_cons in Hobs as [[[Hox Hoy] Hne] Hobs].
    eapply IH; [exact H|done|eauto using grid_set_shaped|].
    pose proof (grid_set_spec _ _ _ _ Hset) as (_ & _ & Ho & _).
    destruct Hp as [Hd Hp]. split; [set_solver|]. intros p.
    destruct (decide (p = o)) as [->|Hpo].
    + rewrite Ho. split; [set_solver|]. by intros [_ ?].
    + split.
      * intros Hin. assert (p ∈ ({[(0, 0)]} : gset cell) ∪ unv) as Hin' by set_solver.
        apply Hp in Hin' as [[Hpx Hpy] Hread]. split; [done|].
        by rewrite (grid_set_other w h g o OBSTACLE g1 p).
      * intros [[Hpx Hpy] Hread].
        rewrite (grid_set_other w h g o OBSTACLE g1 p) in Hread by done.
        assert (p ∈ ({[(0, 0)]} : gset cell) ∪ unv) by (by apply Hp).
        set_solver.
Qed.

Lemma randint_range w draws x rest :
  randint 0 (w - 1) draws = Returned (x, rest) → 0 ≤ x < w.
Proof.
  unfold randint. case_bool_decide; [discriminate|].
  destruct draws as [|r draws]; [discriminate|]. intros; simplify_eq.
  pose proof (Z.mod_pos_bound r (w - 1 - 0 + 1)). lia.
Qed.

Lemma place_dynamic_obstacle_spec fuel w h g : ∀ draws g' p rest,
  place_dynamic_obstacle fuel w h g draws = Returned (g', p, rest) →
  on_grid w h p ∧ grid_get g p = Returned UNVISITED ∧
  grid_set g p DYNAMIC_OBSTACLE = Returned g'.
Proof.
  induction fuel as [|fuel IH]; intros draws g' p rest H; cbn in H; [discriminate|].
  apply rand_bind_Returned in H as (x & d1 & Hx & H).
  apply rand_bind_Returned in H as (y & d2 & Hy & H).
  apply rand_bind_Returned in H as (v & d3 & Hv & H).
  apply lift_Returned in Hv as [Hv ->].
  apply randint_range in Hx, Hy.
  destruct (v =? UNVISITED) eqn:E; [|eauto].
  apply Z.eqb_eq in E as ->. outcome_inv. by simplify_eq.
Qed.

Lemma place_dynamic_obstacles_spec count w h unvisited : ∀ g placed draws g' placed' rest,
  place_dynamic_obstacles count w h g placed draws = Returned (g', placed', rest) →
  shaped w h g ∧ apart w h g placed ∧ coherent w h g unvisited →
  (shaped w h g' ∧ apart w h g' placed' ∧ coherent w h g' unvisited) ∧
  ∀ visited unvisited', partition w h g visited unvisited' →
                        partition w h g' visited unvisited'.
Proof.
  induction count as [|count IH]; intros g placed draws g' placed' rest H (Hs & Ha & Hc);
    cbn in H.
  - injection H as -> -> ->. done.
  - apply rand_bind_Returned in H as ([g1 p] & d1 & Hp & H).
    apply place_dynamic_obstacle_spec in Hp as (Hon & Hread & Hset).
    pose proof (grid_set_spec _ _ _ _ Hset) as (_ & _ & Hp & _).
    apply IH in H as [Hinv Hpart].
    + split; [done|]. intros vis unv' Hpt. apply Hpart.
      refine (partition_write _ _ _ _ _ _ _ _ Hpt Hset _ _); [done|].
      by rewrite Hread.
    + split_and!.
      * eauto using grid_set_shaped.
      * apply Forall_app. split.
        -- by refine (apart_write _ _ _ _ _ _ _ Ha Hset _).
        -- apply Forall_singleton. split; [done|]. by exists DYNAMIC_OBSTACLE.
      * by refine (coherent_write _ _ _ _ _ _ _ Hc Hset _).
Qed.

Lemma place_dynamic_obstacles_marked obstacles count w h : ∀ g placed draws g' placed' rest,
  place_dynamic_obstacles count w h g placed draws = Returned (g', placed', rest) →
  marked obstacles g → marked obstacles g'.
Proof.
  induction count as [|count IH]; intros g placed draws g' placed' rest H Hm; cbn in H.
  - by injection H as -> -> ->.
  - apply rand_bind_Returned in H as ([g1 p] & d1 & Hp & H).
    apply place_dynamic_obstacle_spec in Hp as (_ & Hread & Hset).
    eapply IH; [exact H|].
    refine (marked_write _ _ _ _ _ Hm Hset _). rewrite Hread. discriminate.
Qed.

Lemma grid_set_origin w h g v g' :
  shaped w h g → grid_set g (0, 0) v = Returned g' → 0 < w ∧ 0 < h.
Proof.
  intros [Hl Hr] H. unfold grid_set in H. outcome_inv. simpl in *.
  apply getitem_Returned in H0 as (y & Hy & Hrow).
  pose proof (Forall_lookup_1 _ _ _ _ Hr Hrow) as Hlen. simpl in Hlen.
  unfold setitem in H1. destruct (py_index (length x) 0) as [n|] eqn:Hx; [|discriminate].
  apply py_index_lt in Hy, Hx. lia.
Qed.

Lemma init_with_spec count w h obstacles draws s rest :
  init_with count w h obstacles draws = Returned (s, rest) →
  width s = w ∧ height s = h ∧ tidy s ∧
  (Forall (λ p, on_grid w h p ∧ p ≠ (0, 0)) obstacles →
   covered s ∧ marked obstacles (grid s)).
Proof.
  unfold init_with. intros H.
  apply rand_bind_Returned in H as ([g1 unv] & d1 & Hobs & H).
  apply lift_Returned in Hobs as [Hobs ->].
  apply rand_bind_Returned in H as ([g2 dyn] & d2 & Hdyn & H).
  apply rand_bind_Returned in H as (g3 & d3 & Hset & H).
  apply lift_Returned in Hset as [Hset ->].
  injection H as <- <-. simpl.
  pose proof (shaped_replicate w h) as Hs0.
  assert (Hc0 : coherent w h (replicate (Z.to_nat h) (replicate (Z.to_nat w) UNVISITED))
                  (initial_unvisited w h ∪ {[(0, 0)]})).
  { intros q Hq _. destruct (decide (q = (0, 0))); [set_solver|].
    apply elem_of_union_l, elem_of_initial_unvisited. done. }
  pose proof (place_obstacles_tidy w h _ _ _ _ _ Hobs Hs0 Hc0) as [Hs1 Hc1].
  pose proof (place_dynamic_obstacles_spec count w h _ _ _ _ _ _ _ Hdyn
                (conj Hs1 (conj (Forall_nil_2 _) Hc1))) as [(Hs2 & Ha2 & Hc2) Hpart2].
  pose proof (grid_set_origin w h _ _ _ Hs2 Hset) as [Hw Hh].
  pose proof (grid_set_spec _ _ _ _ Hset) as (_ & _ & Horigin & _).
  split_and!; auto.
  - split_and!; simpl; auto.
    + eauto using grid_set_shaped.
    + by refine (apart_write _ _ _ _ _ _ _ Ha2 Hset _).
    + intros q Hq Hread.
      pose proof (coherent_write _ _ _ _ _ _ _ Hc2 Hset ltac:(done) q Hq Hread).
      assert (q ≠ (0, 0)) by (intros ->; by rewrite Horigin in Hread).
      set_solver.
  - intros Hall.
    assert (Hp0 : partition w h (replicate (Z.to_nat h) (replicate (Z.to_nat w) UNVISITED))
                    {[(0, 0)]} (initial_unvisited w h)).
    { split.
      - intros q Hq Hq'. apply elem_of_initial_unvisited in Hq' as [_ ?]. set_solver.
      - intros q. split.
        + intros Hq. assert (on_grid w h q) as Hon.
          { apply elem_of_union in Hq as [Hq|Hq].
            - apply elem_of_singleton in Hq as ->. unfold on_grid. simpl. lia.
            - by apply elem_of_initial_unvisited in Hq as [? _]. }
          split; [done|]. by rewrite grid_get_replicate.
        + intros [Hon _]. destruct (decide (q = (0, 0))); [set_solver|].
          apply elem_of_union_r, elem_of_initial_unvisited. done. }
    pose proof (place_obstacles_partition w h _ _ _ _ _ Hobs Hall Hs0 Hp0) as Hp1.
    pose proof (Hpart2 _ _ Hp1) as Hp2.
    assert (grid_get g2 (0, 0) ≠ Returned OBSTACLE) as Hstart
      by (eapply partition_open; [exact Hp2|set_solver]).
    split; [split; simpl; [|set_solver]|].
    + by refine (partition_write _ _ _ _ _ _ _ _ Hp2 Hset _ _).
    + refine (marked_write _ _ _ _ _ _ Hset Hstart).
      eapply place_dynamic_obstacles_marked; [exact Hdyn|].
      apply (place_obstacles_marked _ _ _ _ _ [] Hobs). constructor.
Qed.

(** ** The invariants hold in every reachable state *)

Lemma reachable_tidy count w h obstacles s :
  reachable count w h obstacles s → tidy s.
Proof.
  induction 1 as [draws s rest Hinit|s draws s' rest _ IH Hmove|s path moved s' _ IH _ Hmove].
  - by apply init_with_spec in Hinit as (_ & _ & ? & _).
  - by apply move_dynamic_obstacles_spec in Hmove as [? _].
  - eauto using move_robot_tidy.
Qed.

Lemma reachable_covered count w h obstacles s :
  Forall (λ p, on_grid w h p ∧ p ≠ (0, 0)) obstacles →
  reachable count w h obstacles s → covered s.
Proof.
  intros Hall.
  induction 1 as [draws s rest Hinit|s draws s' rest Hs IH Hmove|s path moved s' Hs IH Hfind Hmove].
  - apply init_with_spec in Hinit as (_ & _ & _ & Hinit). by apply Hinit.
  - apply reachable_tidy in Hs.
    apply move_dynamic_obstacles_spec in Hmove as [_ ?]; auto.
  - eapply move_robot_covered; eauto using find_most_efficient_path_spec.
Qed.

Lemma reachable_marked count w h obstacles s :
  Forall (λ p, on_grid w h p ∧ p ≠ (0, 0)) obstacles →
  reachable count w h obstacles s → marked obstacles (grid s).
Proof.
  intros Hall.
  induction 1 as [draws s rest Hinit|s draws s' rest Hs IH Hmove|s path moved s' Hs IH Hfind Hmove].
  - apply init_with_spec in Hinit as (_ & _ & _ & Hinit). by apply Hinit.
  - apply reachable_tidy in Hs.
    eapply move_dynamic_obstacles_from_marked; eauto.
  - eapply move_robot_marked; eauto using find_most_efficient_path_spec, reachable_covered.
Qed.
(** ** Counting the free cells *)

Lemma length_free_in_row y row : ∀ x,
  length (free_in_row y x row) = length (filter (λ c, c ≠ OBSTACLE) row).
Proof.
  induction row as [|c row IH]; intros x; simpl; [done|].
  rewrite length_app, IH, filter_cons. case_bool_decide; by case_decide.
Qed.

Lemma length_free_in_grid g : ∀ y,
  length (free_in_grid y g) = length (filter (λ c, c ≠ OBSTACLE) (concat g)).
Proof.
  induction g as [|row g IH]; intros y; simpl; [done|].
  by rewrite filter_app, !length_app, length_free_in_row, IH.
Qed.

Lemma elem_of_free_in_row y row p : ∀ x,
  p ∈ free_in_row y x row ↔
  p.2 = y ∧ ∃ n c, p.1 = x + Z.of_nat n ∧ row !! n = Some c ∧ c ≠ OBSTACLE.
Proof.
  induction row as [|c row IH]; intros x; simpl.
  - rewrite elem_of_nil. split; [done|]. by intros (_ & n & c & _ & ? & _).
  - rewrite elem_of_app, IH. split.
    + intros [Hp|(Hy & n & c' & Hx & Hn & Hc)].
      * case_bool_decide; [|by apply elem_of_nil in Hp].
        apply list_elem_of_singleton in Hp as ->. split; [done|].
        exists 0%nat, c. simpl. split_and!; auto. lia.
      * split; [done|]. exists (S n), c'. split_and!; auto. lia.
    + intros (Hy & [|n] & c' & Hx & Hn & Hc); simpl in Hn.
      * left. simplify_eq. rewrite bool_decide_eq_true_2 by done.
        apply list_elem_of_singleton. destruct p; simpl in *. f_equal; lia.
      * right. split; [done|]. exists n, c'. split_and!; auto. lia.
Qed.

Lemma elem_of_free_in_grid g p : ∀ y,
  p ∈ free_in_grid y g ↔
  ∃ m row n c, p.2 = y + Z.of_nat m ∧ g !! m = Some row ∧
               p.1 = Z.of_nat n ∧ row !! n = Some c ∧ c ≠ OBSTACLE.
Proof.
  induction g as [|row g IH]; intros y; simpl.
  - rewrite elem_of_nil. split; [done|]. by intros (m & ? & ? & ? & _ & ? & _).
  - rewrite elem_of_app, IH, elem_of_free_in_row. split.
    + intros [(Hy & n & c & Hx & Hn & Hc)|(m & row' & n & c & Hy & Hm & Hx & Hn & Hc)].
      * exists 0%nat, row, n, c. simpl. split_and!; auto; lia.
      * exists (S m), row', n, c. simpl. split_and!; auto; lia.
    + intros ([|m] & row' & n & c & Hy & Hm & Hx & Hn & Hc); simpl in Hm.
      * left. simplify_eq. split; [lia|]. exists n, c. split_and!; auto.
      * right. exists m, row', n, c. split_and!; auto; lia.
Qed.

Lemma NoDup_free_in_row y row : ∀ x, NoDup (free_in_row y x row).
Proof.
  induction row as [|c row IH]; intros x; simpl; [constructor|].
  apply NoDup_app. split_and!; [|intros p Hp|apply IH].
  - case_bool_decide; [apply NoDup_singleton|constructor].
  - case_bool_decide; [|by apply elem_of_nil in Hp].
    apply list_elem_of_singleton in Hp as ->.
    rewrite elem_of_free_in_row. simpl. intros (_ & n & ? & ? & _). lia.
Qed.

Lemma NoDup_free_in_grid g : ∀ y, NoDup (free_in_grid y g).
Proof.
  induction g as [|row g IH]; intros y; simpl; [constructor|].
  apply NoDup_app. split_and!; [apply NoDup_free_in_row|intros p Hp|apply IH].
  apply elem_of_free_in_row in Hp as [Hy _].
  rewrite elem_of_free_in_grid. intros (m & ? & ? & ? & ? & _). lia.
Qed.

Lemma partition_free_cells w h g visited unvisited :
  shaped w h g → partition w h g visited unvisited →
  visited ∪ unvisited = list_to_set (free_in_grid 0 g).
Proof.
  intros Hs [_ Hp]. apply set_eq. intros p.
  rewrite Hp, elem_of_list_to_set, elem_of_free_in_grid. split.
  - intros [[Hx Hy] Hread].
    destruct (grid_get_in_bounds w h g p Hs Hx Hy) as (row & v & Hrow & Hv & Hget).
    exists (Z.to_nat p.2), row, (Z.to_nat p.1), v. split_and!; auto; try lia.
    intros ->. by rewrite Hget in Hread.
  - intros (m & row & n & c & Hy & Hm & Hx & Hn & Hc).
    destruct Hs as [Hl Hr].
    pose proof (Forall_lookup_1 _ _ _ _ Hr Hm) as Hlen. simpl in Hlen.
    apply lookup_lt_Some in Hm as Hmlt. apply lookup_lt_Some in Hn as Hnlt.
    assert (grid_get g p = Returned c) as ->.
    { apply grid_get_Returned. exists m, row, n. split_and!; auto.
      - rewrite py_index_nonneg by lia. f_equal. lia.
      - rewrite py_index_nonneg by lia. f_equal. lia. }
    split; [split; lia|]. intros ?. by simplify_eq.
Qed.

Lemma covered_count s :
  tidy s → covered s →
  visited_cells s ## unvisited_cells s ∧
  (size (visited_cells s) + size (unvisited_cells s))%nat = free_cells s.
Proof.
  intros (_ & _ & Hs & _) [Hp _]. split; [by destruct Hp|].
  rewrite <- size_union by by destruct Hp.
  rewrite (partition_free_cells _ _ _ _ _ Hs Hp).
  rewrite size_list_to_set by apply NoDup_free_in_grid.
  apply length_free_in_grid.
Qed.
(** ** The loop budgets are enough *)

Lemma elem_of_grid_cells w h p : p ∈ grid_cells w h ↔ on_grid w h p.
Proof.
  unfold grid_cells, on_grid. rewrite elem_of_list_to_set, list_elem_of_bind. split.
  - intros (x & Hy & Hx). apply list_elem_of_bind in Hy as (y & Hp & Hy).
    apply list_elem_of_singleton in Hp as ->. apply elem_of_seqZ in Hx, Hy. simpl. lia.
  - intros [Hx Hy]. exists p.1. split; [|apply elem_of_seqZ; lia].
    apply list_elem_of_bind. exists p.2. split; [|apply elem_of_seqZ; lia].
    rewrite <- surjective_pairing. by apply list_elem_of_singleton.
Qed.

Lemma size_list_to_set_le (l : list cell) : (size (list_to_set l : gset cell) ≤ length l)%nat.
Proof.
  induction l as [|p l IH]; [by rewrite list_to_set_nil, size_empty|].
  rewrite list_to_set_cons, size_union_alt, size_singleton. simpl.
  pose proof (subseteq_size (list_to_set l ∖ {[p]}) (list_to_set l : gset cell)
                ltac:(set_solver)). lia.
Qed.

Lemma length_bind_const {A B} (f : A → list B) n (l : list A) :
  (∀ x, length (f x) = n) → length (l ≫= f) = (length l * n)%nat.
Proof.
  intros Hf. induction l as [|x l IH]; [done|].
  change ((x :: l) ≫= f) with (f x ++ (l ≫= f)).
  rewrite length_app, Hf, IH. simpl. lia.
Qed.

Lemma size_grid_cells w h : (size (grid_cells w h) ≤ Z.to_nat w * Z.to_nat h)%nat.
Proof.
  unfold grid_cells. etransitivity; [apply size_list_to_set_le|].
  rewrite (length_bind_const _ (Z.to_nat h)), length_seqZ; [done|].
  intros x. by rewrite (length_bind_const _ 1%nat), length_seqZ, Nat.mul_1_r.
Qed.

Lemma size_visit (cells visited : gset cell) p :
  p ∈ cells → p ∉ visited →
  (size (cells ∖ ({[p]} ∪ visited)) < size (cells ∖ visited))%nat.
Proof. intros Hp Hv. apply subset_size. set_solver. Qed.

Lemma grid_get_finished g p : grid_get g p ≠ Unfinished.
Proof.
  rewrite grid_get_unfold. destruct (py_index (length g) p.2 ≫= (g !!.)) as [row|]; [|done].
  unfold getitem. by destruct (py_index (length row) p.1 ≫= (row !!.)).
Qed.

Lemma passable_finished s p : passable s p ≠ Unfinished.
Proof.
  unfold passable. destruct (in_bounds s p); [|done].
  pose proof (grid_get_finished (grid s) p). by destruct (grid_get (grid s) p).
Qed.

Lemma unexplored_neighbors_finished s n ds : unexplored_neighbors s n ds ≠ Unfinished.
Proof.
  induction ds as [|d ds IH]; cbn; [done|].
  destruct (in_bounds s (shift n d)); cbn.
  - pose proof (grid_get_finished (grid s) (shift n d)).
    destruct (grid_get (grid s) (shift n d)); cbn; [|done..].
    by destruct (unexplored_neighbors s n ds).
  - by destruct (unexplored_neighbors s n ds).
Qed.

Lemma passable_in_cells s p :
  passable s p = Returned true → p ∈ grid_cells (width s) (height s).
Proof.
  intros H. apply passable_true in H as [H _].
  by apply elem_of_grid_cells, in_bounds_on_grid.
Qed.

Section budget.
Variable s : RobotNavigation.

#[local] Abbreviation cells := (grid_cells (width s) (height s)).

Lemma expand_budget current path ds : ∀ open_set visited,
  match Demo.expand s current path ds open_set visited with
  | Returned (Continue o v) =>
      (length o + size (cells ∖ v) ≤ length open_set + size (cells ∖ visited))%nat
  | Returned (Found _) | Raised _ => True
  | Unfinished => False
  end.
Proof.
  induction ds as [|d ds IH]; intros open_set visited; cbn -[directions]; [done|].
  pose proof (passable_finished s (shift current d)) as Hfin.
  destruct (passable s (shift current d)) as [ok| |] eqn:Hpass; cbn -[directions];
    [|done..].
  destruct ok; cbn -[directions]; [|apply IH].
  case_bool_decide as Hv; cbn -[directions]; [apply IH|].
  case_bool_decide; [done|].
  pose proof (unexplored_neighbors_finished s (shift current d) directions) as Hfin'.
  destruct (unexplored_neighbors s (shift current d) directions) as [k| |];
    cbn -[directions]; [|done..].
  specialize (IH (heappush open_set
                    (Z.of_nat (length (path ++ [shift current d])) - k,
                     shift current d, path ++ [shift current d]))
                 ({[shift current d]} ∪ visited)).
  destruct (Demo.expand _ _ _ _ _ _) as [[p|o v]| |]; try done.
  rewrite length_heappush in IH.
  pose proof (size_visit cells visited _ (passable_in_cells _ _ Hpass) Hv). lia.
Qed.

Lemma search_budget fuel : ∀ open_set visited,
  (length open_set + size (cells ∖ visited) < fuel)%nat →
  Demo.search fuel s open_set visited ≠ Unfinished.
Proof.
  induction fuel as [|fuel IH]; intros open_set visited Hlt; [lia|].
  destruct open_set as [|[[f current] path] open_set]; cbn -[directions]; [done|].
  pose proof (expand_budget current path directions open_set visited) as Hexp.
  destruct (Demo.expand _ _ _ _ _ _) as [[p|o v]| |]; cbn -[directions]; try done.
  apply IH. simpl in Hlt. lia.
Qed.

Lemma relax_budget (U : gset cell) target current path ds : ∀ open_set g_score,
  cells ⊆ U →
  Forall (λ e : entry, e.1.2 ∈ U) open_set →
  match H1.relax s target current path ds open_set g_score with
  | Returned (o, _) =>
      (length o ≤ length open_set + length ds)%nat ∧
      Forall (λ e : entry, e.1.2 ∈ U) o
  | Raised _ => True
  | Unfinished => False
  end.
Proof.
  induction ds as [|d ds IH]; intros open_set g_score HU Ho; cbn -[directions].
  { split; [lia|done]. }
  pose proof (passable_finished s (shift current d)) as Hfin.
  destruct (passable s (shift current d)) as [ok| |] eqn:Hpass; cbn -[directions];
    [|done..].
  assert (∀ o g, Forall (λ e : entry, e.1.2 ∈ U) o →
                 (length o ≤ S (length open_set))%nat →
            match H1.relax s target current path ds o g with
            | Returned (o', _) =>
                (length o' ≤ length open_set + S (length ds))%nat ∧
                Forall (λ e : entry, e.1.2 ∈ U) o'
            | Raised _ => True
            | Unfinished => False
            end) as Hstep.
  { intros o g Hall Hlen. specialize (IH o g HU Hall).
    destruct (H1.relax s target current path ds o g) as [[o' g']| |]; try done.
    destruct IH. split; [lia|done]. }
  destruct ok; [|apply Hstep; [done|lia]].
  destruct (g_score !! current) as [gc|]; [|done].
  destruct (match g_score !! shift current d with
            | Some g_neighbor => bool_decide (gc + 1 < g_neighbor)
            | None => true
            end); [|apply Hstep; [done|lia]].
  apply Hstep; [|by rewrite length_heappush].
  apply Forall_heappush; [done|]. simpl.
  apply HU. by apply passable_in_cells.
Qed.

Lemma astar_loop_budget start target fuel : ∀ open_set g_score visited,
  Forall (λ e : entry, e.1.2 ∈ {[start]} ∪ cells) open_set →
  (length open_set + 5 * size (({[start]} ∪ cells) ∖ visited) < fuel)%nat →
  H1.astar_loop fuel s target open_set g_score visited ≠ Unfinished.
Proof.
  induction fuel as [|fuel IH]; intros open_set g_score visited Ho Hlt; [lia|].
  destruct open_set as [|[[f current] path] open_set]; cbn -[directions]; [done|].
  apply Forall_cons in Ho as [Hcur Ho]. simpl in Hcur.
  rewrite length_cons in Hlt.
  case_bool_decide; [done|].
  case_bool_decide as Hv; [apply IH; [done|lia]|].
  pose proof (relax_budget ({[start]} ∪ cells) target current path directions
                open_set g_score ltac:(set_solver) Ho) as Hr.
  destruct (H1.relax _ _ _ _ _ _ _) as [[o g]| |]; cbn -[directions]; try done.
  destruct Hr as [Hlen Hall].
  apply IH; [done|].
  pose proof (size_visit ({[start]} ∪ cells) visited current Hcur Hv).
  simpl in Hlen. lia.
Qed.
End budget.

(** [find_most_efficient_path] of demo.py always comes to an end within
    its budget: it returns a path or [None], or raises. *)
Lemma find_most_efficient_path_finished s :
  Demo.find_most_efficient_path s ≠ Unfinished.
Proof.
  apply search_budget. unfold search_fuel. simpl.
  pose proof (size_grid_cells (width s) (height s)).
  pose proof (subseteq_size (grid_cells (width s) (height s) ∖ {[robot_pos s]})
                (grid_cells (width s) (height s)) ltac:(set_solver)).
  lia.
Qed.

(** So does [astar_pathfinding]. *)
Lemma astar_pathfinding_finished s start target :
  H1.astar_pathfinding s start target ≠ Unfinished.
Proof.
  apply (astar_loop_budget s start).
  - apply Forall_singleton. simpl. set_solver.
  - unfold astar_fuel. simpl.
    pose proof (size_grid_cells (width s) (height s)).
    pose proof (subseteq_size (({[start]} ∪ grid_cells (width s) (height s)) ∖ ∅)
                  ({[start]} ∪ grid_cells (width s) (height s)) ltac:(set_solver)).
    pose proof (size_union_alt ({[start]} : gset cell) (grid_cells (width s) (height s))).
    pose proof (subseteq_size (grid_cells (width s) (height s) ∖ {[start]})
                  (grid_cells (width s) (height s)) ltac:(set_solver)).
    rewrite size_singleton in *. lia.
Qed.
(** ** Lemmas used for the claims *)

Lemma session_3x3_reachable : reachable 3 3 3 [(1, 1)] session_3x3.
Proof.
  eapply (reach_robot _ _ _ _ _ [(1, 0)] true).
  - eapply (reach_obstacles _ _ _ _ _ [0; 5; 17]).
    + eapply (reach_init _ _ _ _ [2; 0; 1; 1; 0; 2; 2; 2]). vm_compute. reflexivity.
    + vm_compute. reflexivity.
  - vm_compute. reflexivity.
  - vm_compute. reflexivity.
Defined.

Lemma no_unvisited_mark s :
  tidy s → unvisited_cells s = ∅ →
  forallb (forallb (λ c, negb (c =? UNVISITED))) (grid s) = true.
Proof.
  intros (_ & _ & [Hl Hr] & _ & Hc) Hempty.
  apply forallb_forall. intros row Hrow. apply forallb_forall. intros c Hcell.
  apply list_elem_of_In, list_elem_of_lookup in Hrow as [m Hm].
  apply list_elem_of_In, list_elem_of_lookup in Hcell as [n Hn].
  pose proof (Forall_lookup_1 _ _ _ _ Hr Hm) as Hlen. simpl in Hlen.
  apply lookup_lt_Some in Hm as Hmlt. apply lookup_lt_Some in Hn as Hnlt.
  apply negb_true_iff, Z.eqb_neq. intros ->.
  assert ((Z.of_nat n, Z.of_nat m) ∈ unvisited_cells s) as Hin; [|set_solver].
  apply Hc; [split; simpl; lia|].
  apply grid_get_Returned. exists m, row, n. simpl. split_and!; auto.
  - rewrite py_index_nonneg by lia. f_equal. lia.
  - rewrite py_index_nonneg by lia. f_equal. lia.
Qed.

Lemma H1_find_spec s path :
  H1.find_most_efficient_path s = Returned (Some path) →
  path ≠ [] ∧ unvisited_cells s ≠ ∅ ∧
  ∃ rest, Forall (open_cell s) rest ∧ (path = rest ∨ path = robot_pos s :: rest).
Proof.
  unfold H1.find_most_efficient_path. case_bool_decide as Hsize.
  - destruct (elements (unvisited_cells s)) as [|target l]; [discriminate|].
    intros H. apply astar_pathfinding_spec in H as (rest & -> & _ & _ & Hopen).
    split_and!; [done| |eauto].
    intros Hempty. by rewrite Hempty in Hsize.
  - rewrite H1_search_eq. intros H.
    apply find_most_efficient_path_spec in H
      as (before & target & -> & _ & Hopen & _ & Ht & _).
    split_and!; [by destruct before|set_solver|eauto].
Qed.

Lemma blocked_true g path p :
  Forall (λ q, ∃ v, grid_get g q = Returned v) path →
  p ∈ path → grid_get g p = Returned DYNAMIC_OBSTACLE →
  H13.blocked g path = Returned true.
Proof.
  induction 1 as [|q path [v Hv] Hall IH]; intros Hin Hp; [by apply elem_of_nil in Hin|].
  cbn. rewrite Hv. cbn. destruct (v =? DYNAMIC_OBSTACLE) eqn:E; [done|].
  apply elem_of_cons in Hin as [->|Hin]; [|auto].
  rewrite Hp in Hv. by simplify_eq.
Qed.

(** In demo.py the search runs on the grid as it is when [move_robot] is
    called, so a planned path never has a cell that holds
    [DYNAMIC_OBSTACLE]. *)
Lemma planned_path_is_clear s path :
  Demo.find_most_efficient_path s = Returned (Some path) →
  Forall (λ p, grid_get (grid s) p ≠ Returned DYNAMIC_OBSTACLE) path.
Proof.
  intros H. apply find_most_efficient_path_spec in H as (_ & _ & _ & _ & Hopen & _).
  eapply Forall_impl; [exact Hopen|]. intros p (_ & v & -> & _ & Hv) ?. by simplify_eq.
Qed.

Lemma H1_find_finished s : H1.find_most_efficient_path s ≠ Unfinished.
Proof.
  unfold H1.find_most_efficient_path. case_bool_decide.
  - destruct (elements (unvisited_cells s)); [done|apply astar_pathfinding_finished].
  - rewrite H1_search_eq. apply find_most_efficient_path_finished.
Qed.

Lemma rand_bind_unfold {A B} (m : rand A) (k : A → rand B) draws :
  (m ≫= k) draws = match m draws with
                   | Returned (a, draws') => k a draws'
                   | Raised e => Raised e
                   | Unfinished => Unfinished
                   end.
Proof. done. Qed.

Lemma rand_ret_unfold {A} (a : A) draws : (mret a : rand A) draws = Returned (a, draws).
Proof. done. Qed.

Lemma py_index_range n i k : py_index n i = Some k → - Z.of_nat n ≤ i < Z.of_nat n.
Proof. unfold py_index. repeat case_bool_decide; intros; simplify_eq; lia. Qed.

Lemma grid_set_in_range w h g p v g' :
  shaped w h g → grid_set g p v = Returned g' → - w ≤ p.1 < w ∧ - h ≤ p.2 < h.
Proof.
  intros [Hl Hr] H. unfold grid_set in H. outcome_inv.
  apply getitem_Returned in H0 as (y & Hy & Hrow).
  pose proof (Forall_lookup_1 _ _ _ _ Hr Hrow) as Hlen. simpl in Hlen.
  unfold setitem in H1. destruct (py_index (length x) p.1) as [n|] eqn:Hx; [|discriminate].
  apply py_index_range in Hy, Hx. lia.
Qed.

Lemma grid_set_finished g p v : grid_set g p v ≠ Unfinished.
Proof.
  unfold grid_set, getitem, setitem.
  destruct (py_index (length g) p.2 ≫= (g !!.)) as [row|]; cbn; [|done].
  destruct (py_index (length row) p.1); cbn; [|done].
  by destruct (py_index (length g) p.2).
Qed.

Lemma place_obstacles_finished obstacles : ∀ g unvisited,
  place_obstacles obstacles g unvisited ≠ Unfinished.
Proof.
  induction obstacles as [|o obstacles IH]; intros g unv; cbn; [done|].
  pose proof (grid_set_finished g o OBSTACLE).
  destruct (grid_set g o OBSTACLE); cbn; auto.
Qed.

Lemma place_obstacles_in_range w h obstacles : ∀ g unvisited r,
  shaped w h g → place_obstacles obstacles g unvisited = Returned r →
  shaped w h r.1 ∧ Forall (λ p, - w ≤ p.1 < w ∧ - h ≤ p.2 < h) obstacles.
Proof.
  induction obstacles as [|o obstacles IH]; intros g unv r Hs H; cbn in H.
  - outcome_inv. by simplify_eq.
  - apply bind_Returned in H as (g1 & Hset & H).
    pose proof (grid_set_in_range _ _ _ _ _ _ Hs Hset).
    eapply IH in H as [? ?]; eauto using grid_set_shaped.
Qed.

(** On a path the search has just returned, [move_robot] of demo.py does
    not take its wait branch: it does what the [move_robot] of h14.py
    and h1.py does. *)
Lemma planned_move_never_waits s path :
  Demo.find_most_efficient_path s = Returned (Some path) →
  Demo.move_robot s (Some path) = H14.move_robot s (Some path) ∧
  Demo.move_robot s (Some path) = H1.move_robot s (Some path).
Proof.
  intros H. apply find_most_efficient_path_spec, frontier_path_last in H
    as (t & Hlast & _ & _ & v & Hv & _ & Hdyn).
  destruct path as [|p path]; [done|].
  cbn -[last but_last]. rewrite Hlast. simpl default.
  destruct (retrace (grid s) (but_last (p :: path))) as [g| |] eqn:Hre; [|done..].
  assert (∃ u, grid_get g t = Returned u ∧ u ≠ DYNAMIC_OBSTACLE) as (u & Hu & Hne).
  { refine (retrace_ind (λ g, ∃ u, grid_get g t = Returned u ∧ u ≠ DYNAMIC_OBSTACLE)
              _ _ _ _ _ Hre); [|eauto].
    intros g1 c g2 (u & Hu & Hne) _ Hset.
    apply grid_set_spec in Hset as (_ & _ & _ & Hall).
    destruct (Hall t) as [E|[E _]]; rewrite E; eauto. }
  cbn. rewrite Hu. cbn.
  destruct (u =? DYNAMIC_OBSTACLE) eqn:E; [|done].
  by apply Z.eqb_eq in E.
Qed.

(** ** What [__init__] builds *)

Lemma place_obstacles_unvisited obstacles : ∀ g unvisited g' unvisited',
  place_obstacles obstacles g unvisited = Returned (g', unvisited') →
  unvisited' = unvisited ∖ list_to_set obstacles.
Proof.
  induction obstacles as [|o obstacles IH]; intros g unv g' unv' H; cbn in H.
  - outcome_inv. simplify_eq. set_solver.
  - apply bind_Returned in H as (g1 & _ & H). apply IH in H as ->. set_solver.
Qed.

Lemma place_dynamic_obstacles_distinct count w h : ∀ g placed draws g' placed' rest,
  place_dynamic_obstacles count w h g placed draws = Returned (g', placed', rest) →
  NoDup placed → Forall (λ p, grid_get g p = Returned DYNAMIC_OBSTACLE) placed →
  length placed' = (length placed + count)%nat ∧ NoDup placed' ∧
  Forall (λ p, grid_get g' p = Returned DYNAMIC_OBSTACLE) placed'.
Proof.
  induction count as [|count IH]; intros g placed draws g' placed' rest H Hnd Hall;
    cbn in H.
  - injection H as -> -> ->. split_and!; auto.
  - apply rand_bind_Returned in H as ([g1 p] & d1 & Hp & H).
    apply place_dynamic_obstacle_spec in Hp as (_ & Hread & Hset).
    pose proof (grid_set_spec _ _ _ _ Hset) as (_ & _ & Hp & Hother).
    apply IH in H as (Hlen & Hnd' & Hall').
    + rewrite length_app in Hlen. simpl in Hlen. split_and!; auto. lia.
    + apply NoDup_app. split_and!; [done| |apply NoDup_singleton].
      intros q Hq Hq'. apply list_elem_of_singleton in Hq' as ->.
      rewrite Forall_forall in Hall. apply Hall in Hq. by rewrite Hread in Hq.
    + apply Forall_app. split; [|by apply Forall_singleton].
      eapply Forall_impl; [exact Hall|]. intros q Hq. simpl in *.
      destruct (Hother q) as [E|[E _]]; congruence.
Qed.

Lemma init_with_fields count w h obstacles draws s rest :
  init_with count w h obstacles draws = Returned (s, rest) →
  robot_pos s = (0, 0) ∧ visited_cells s = {[(0, 0)]} ∧
  unvisited_cells s = initial_unvisited w h ∖ list_to_set obstacles ∧
  length (dynamic_obstacles s) = count ∧ NoDup (dynamic_obstacles s) ∧
  grid_get (grid s) (0, 0) = Returned ROBOT ∧
  Forall (λ p, p = (0, 0) ∨ grid_get (grid s) p = Returned DYNAMIC_OBSTACLE)
    (dynamic_obstacles s).
Proof.
  intros H. unfold init_with in H.
  apply rand_bind_Returned in H as ([g1 unv] & d1 & Hobs & H).
  apply lift_Returned in Hobs as [Hobs ->].
  apply rand_bind_Returned in H as ([g2 dyn] & d2 & Hdyn & H).
  apply rand_bind_Returned in H as (g3 & d3 & Hset & H).
  apply lift_Returned in Hset as [Hset ->].
  injection H as <- <-. simpl.
  apply place_obstacles_unvisited in Hobs as Hunv.
  pose proof (shaped_replicate w h) as Hs0.
  assert (Hc0 : coherent w h (replicate (Z.to_nat h) (replicate (Z.to_nat w) UNVISITED))
                  (initial_unvisited w h ∪ {[(0, 0)]})).
  { intros q Hq _. destruct (decide (q = (0, 0))); [set_solver|].
    apply elem_of_union_l, elem_of_initial_unvisited. done. }
  pose proof (place_obstacles_tidy w h _ _ _ _ _ Hobs Hs0 Hc0) as [Hs1 Hc1].
  pose proof (place_dynamic_obstacles_spec count w h _ _ _ _ _ _ _ Hdyn
                (conj Hs1 (conj (Forall_nil_2 _) Hc1))) as [(Hs2 & Ha2 & _) _].
  apply place_dynamic_obstacles_distinct in Hdyn as (Hlen & Hnd & Hall);
    [|constructor..].
  pose proof (grid_set_origin w h _ _ _ Hs2 Hset) as [Hw Hh].
  pose proof (grid_set_spec _ _ _ _ Hset) as (_ & _ & Horigin & _).
  split_and!; auto.
  unfold apart in Ha2. rewrite Forall_forall in Hall, Ha2. apply Forall_forall.
  intros p Hp. destruct (decide (p = (0, 0))) as [|Hne]; [by left|]. right.
  destruct (Ha2 p Hp) as [[Hx Hy] _].
  rewrite (grid_set_other w h g2 (0, 0) ROBOT g3 p Hset Hs2); simpl; auto; lia.
Qed.

(** * Further properties of the session class *)

(** ** Writes and reads that cannot fail *)

Lemma grid_set_total w h g p v :
  shaped w h g → on_grid w h p → ∃ g', grid_set g p v = Returned g'.
Proof.
  intros Hs [Hx Hy].
  destruct (grid_get_in_bounds w h g p Hs Hx Hy) as (row & u & Hrow & Hu & _).
  destruct Hs as [Hl Hr].
  pose proof (Forall_lookup_1 _ _ _ _ Hr Hrow) as Hlen. simpl in Hlen.
  unfold grid_set.
  assert (getitem g p.2 = Returned row) as ->.
  { apply getitem_Returned. exists (Z.to_nat p.2). split; [|done].
    apply py_index_nonneg. lia. }
  cbn. unfold setitem. rewrite py_index_nonneg by lia. cbn.
  rewrite py_index_nonneg by lia. eauto.
Qed.

Lemma grid_get_total w h g p :
  shaped w h g → on_grid w h p → ∃ v, grid_get g p = Returned v.
Proof.
  intros Hs [Hx Hy].
  destruct (grid_get_in_bounds w h g p Hs Hx Hy) as (row & u & _ & _ & Hget). eauto.
Qed.

Lemma retrace_total w h cells : ∀ g,
  shaped w h g → Forall (on_grid w h) cells →
  ∃ g', retrace g cells = Returned g' ∧ shaped w h g'.
Proof.
  induction cells as [|c cells IH]; intros g Hs Hall; cbn; [eauto|].
  apply Forall_cons in Hall as [Hc Hall].
  destruct (grid_get_total w h g c Hs Hc) as [v ->]. cbn.
  destruct (v =? VISITED).
  - destruct (grid_set_total w h g c RETRACED_PATH Hs Hc) as [g1 Hset].
    rewrite Hset. cbn. eauto using grid_set_shaped.
  - cbn. eauto.
Qed.

Lemma retrace_keeps_clear cells : ∀ g g' t,
  retrace g cells = Returned g' →
  (∃ u, grid_get g t = Returned u ∧ u ≠ DYNAMIC_OBSTACLE) →
  ∃ u, grid_get g' t = Returned u ∧ u ≠ DYNAMIC_OBSTACLE.
Proof.
  intros g g' t Hre Ht.
  refine (retrace_ind (λ g, ∃ u, grid_get g t = Returned u ∧ u ≠ DYNAMIC_OBSTACLE)
            _ _ _ _ Ht Hre).
  intros g1 c g2 (u & Hu & Hne) _ Hset.
  apply grid_set_spec in Hset as (_ & _ & _ & Hall).
  destruct (Hall t) as [E|[E _]]; rewrite E; eauto.
Qed.

(** ** What [move_dynamic_obstacles] leaves alone *)

Lemma move_dynamic_obstacle_frame s i p draws s' rest :
  move_dynamic_obstacle s i p draws = Returned (s', rest) →
  width s' = width s ∧ height s' = height s ∧ robot_pos s' = robot_pos s ∧
  visited_cells s' = visited_cells s ∧ unvisited_cells s' = unvisited_cells s ∧
  (dynamic_obstacles s' = dynamic_obstacles s ∨
   ∃ q, adjacent p q ∧ dynamic_obstacles s' = <[i:=q]> (dynamic_obstacles s)).
Proof.
  intros H. unfold move_dynamic_obstacle in H. outcome_inv.
  rename x1 into ds, x3 into q, H1 into Hsh, H2 into Hfree.
  assert (Forall (λ d, d ∈ directions) ds) as Hds.
  { destruct x0 as [|r x0]; [discriminate|].
    destruct (shuffle_permutation directions r x0) as (l' & E & Hperm).
    rewrite E in Hsh. injection Hsh as <- _.
    apply Forall_forall. intros d Hd. by rewrite Hperm. }
  destruct q as [q|]; outcome_inv; subst s'; simpl; split_and!; auto.
  right. exists q. split; [|done].
  clear -Hfree Hds. induction Hds as [|d ds Hd _ IH]; cbn in Hfree; [by outcome_inv|].
  apply bind_Returned in Hfree as (ok & _ & Hfree).
  destruct ok; [|auto]. outcome_inv. simplify_eq. by apply shift_adjacent.
Qed.

Lemma move_dynamic_obstacles_from_frame n : ∀ i s draws s' rest,
  move_dynamic_obstacles_from n i s draws = Returned (s', rest) →
  width s' = width s ∧ height s' = height s ∧ robot_pos s' = robot_pos s ∧
  visited_cells s' = visited_cells s ∧ unvisited_cells s' = unvisited_cells s ∧
  length (dynamic_obstacles s') = length (dynamic_obstacles s) ∧
  ∀ k p p', dynamic_obstacles s !! k = Some p → dynamic_obstacles s' !! k = Some p' →
            p' = p ∨ ((i ≤ k)%nat ∧ adjacent p p').
Proof.
  induction n as [|n IH]; intros i s draws s' rest H; cbn in H.
  { outcome_inv. simplify_eq. split_and!; auto. intros; simplify_eq; auto. }
  destruct (dynamic_obstacles s !! i) as [p|] eqn:Hp.
  2:{ outcome_inv. simplify_eq. split_and!; auto. intros; simplify_eq; auto. }
  outcome_inv. rename x into s1.
  apply move_dynamic_obstacle_frame in H0 as (Hw & Hh & Hr & Hv & Hu & Hd).
  apply IH in H as (Hw' & Hh' & Hr' & Hv' & Hu' & Hl' & Hstep).
  split_and!; try congruence.
  - destruct Hd as [E|(q & _ & E)]; rewrite Hl', E; [done|]. apply length_insert.
  - intros k c c' Hc Hc'.
    destruct Hd as [E|(q & Hadj & E)].
    + rewrite E in Hstep. destruct (Hstep k c c' Hc Hc') as [?|[? ?]]; [auto|].
      right. split; [lia|done].
    + rewrite E in Hstep. destruct (decide (k = i)) as [->|Hne].
      * assert (c = p) as -> by congruence.
        assert (<[i:=q]> (dynamic_obstacles s) !! i = Some q) as Hq
          by (apply list_lookup_insert_eq; by eapply lookup_lt_Some).
        destruct (Hstep i q c' Hq Hc') as [->|[? ?]]; [|lia].
        right. split; [lia|done].
      * assert (<[i:=q]> (dynamic_obstacles s) !! k = Some c) as Hk
          by (by rewrite list_lookup_insert_ne).
        destruct (Hstep k c c' Hk Hc') as [?|[? ?]]; [auto|].
        right. split; [lia|done].
Qed.

(** ** The robot stays on the grid, and a planned move goes through *)

Lemma move_robot_position s path moved s' :
  Demo.move_robot s path = Returned (moved, s') →
  width s' = width s ∧ height s' = height s ∧
  dynamic_obstacles s' = dynamic_obstacles s ∧
  if moved then
    ∃ t, path ≫= last = Some t ∧ robot_pos s' = t ∧
         visited_cells s' = {[t]} ∪ visited_cells s ∧
         unvisited_cells s' = unvisited_cells s ∖ {[t]}
  else robot_pos s' = robot_pos s ∧ visited_cells s' = visited_cells s ∧
       unvisited_cells s' = unvisited_cells s.
Proof.
  intros H. destruct path as [[|c path]|]; cbn -[last but_last] in H;
    [outcome_inv; by simplify_eq| |outcome_inv; by simplify_eq].
  apply bind_Returned in H as (g & _ & H).
  apply bind_Returned in H as (v & _ & H).
  destruct (v =? DYNAMIC_OBSTACLE); [outcome_inv; by simplify_eq|].
  unfold arrive in H. outcome_inv. simplify_eq. simpl. split_and!; auto.
  destruct (last (c :: path)) as [t|] eqn:E; [|by apply last_None in E].
  by exists t.
Qed.

Lemma reachable_robot_on_grid count w h obstacles s :
  reachable count w h obstacles s → on_grid (width s) (height s) (robot_pos s).
Proof.
  induction 1 as [draws s rest Hinit|s draws s' rest _ IH Hmove|s path moved s' _ IH Hfind Hmove].
  - pose proof (init_with_spec _ _ _ _ _ _ _ Hinit) as (_ & _ & (Hw & Hh & _) & _).
    apply init_with_fields in Hinit as (-> & _). unfold on_grid. simpl. lia.
  - apply move_dynamic_obstacles_from_frame in Hmove as (-> & -> & -> & _). done.
  - apply find_most_efficient_path_spec, frontier_path_last in Hfind
      as (t & Hlast & _ & Hopen & _).
    apply move_robot_position in Hmove as (-> & -> & _ & Hpos).
    destruct moved.
    + destruct Hpos as (t' & Ht' & -> & _). simpl in Ht'. simplify_eq.
      by apply in_bounds_on_grid.
    + by destruct Hpos as (-> & _).
Qed.

Lemma planned_move_goes_through s path :
  shaped (width s) (height s) (grid s) →
  on_grid (width s) (height s) (robot_pos s) →
  Demo.find_most_efficient_path s = Returned (Some path) →
  ∃ t s', last path = Some t ∧ t ∈ unvisited_cells s ∧
          Demo.move_robot s (Some path) = Returned (true, s') ∧
          shaped (width s) (height s) (grid s').
Proof.
  intros Hs Hr Hfind.
  apply find_most_efficient_path_spec in Hfind as Hpath.
  destruct Hpath as (before & t & -> & _ & Hopen & _ & Ht & _).
  exists t. rewrite last_snoc.
  assert (Forall (on_grid (width s) (height s)) (before ++ [t])) as Hon.
  { eapply Forall_impl; [exact Hopen|]. intros c [Hc _]. by apply in_bounds_on_grid. }
  destruct (before ++ [t]) as [|c l] eqn:Hcl; [by destruct before|].
  assert (last (c :: l) = Some t) as Hlast by (by rewrite <- Hcl, last_snoc).
  cbn -[last but_last]. rewrite Hlast. simpl default.
  destruct (retrace_total (width s) (height s) (but_last (c :: l)) (grid s) Hs)
    as (g & Hre & Hsg).
  { unfold but_last. by apply Forall_take. }
  rewrite Hre. cbn.
  assert (open_cell s t) as (Hton & v & Hv & _ & Hdyn).
  { rewrite Forall_forall in Hopen. apply Hopen. rewrite <- Hcl.
    apply elem_of_app. right. apply list_elem_of_here. }
  destruct (retrace_keeps_clear _ _ _ t Hre) as (u & Hu & Hne); [eauto|].
  rewrite Hu. cbn. destruct (u =? DYNAMIC_OBSTACLE) eqn:E; [by apply Z.eqb_eq in E|].
  unfold arrive.
  destruct (grid_set_total _ _ g (robot_pos s) VISITED Hsg Hr) as [g1 Hset1].
  rewrite Hset1. cbn.
  assert (shaped (width s) (height s) g1) as Hs1 by eauto using grid_set_shaped.
  apply in_bounds_on_grid in Hton.
  destruct (grid_set_total _ _ g1 t ROBOT Hs1 Hton) as [g2 Hset2].
  rewrite Hset2. cbn. eexists. split_and!; eauto.
  simpl. eauto using grid_set_shaped.
Qed.

(** ** The searches give up only when there is no way *)

Lemma adjacent_shift c n : adjacent c n → ∃ d, d ∈ directions ∧ n = shift c d.
Proof.
  unfold adjacent, shift, directions. destruct c as [cx cy], n as [nx ny]. simpl.
  intros H.
  assert ((nx = cx ∧ ny = cy + 1) ∨ (nx = cx + 1 ∧ ny = cy) ∨
          (nx = cx ∧ ny = cy + -1) ∨ (nx = cx + -1 ∧ ny = cy)) as Hcase by lia.
  destruct Hcase as [[-> ->]|[[-> ->]|[[-> ->]|[-> ->]]]].
  - exists (0, 1). split; [set_solver|]. simpl. f_equal; lia.
  - exists (1, 0). split; [set_solver|]. simpl. f_equal; lia.
  - exists (0, -1). split; [set_solver|]. simpl. f_equal; lia.
  - exists (-1, 0). split; [set_solver|]. simpl. f_equal; lia.
Qed.

Lemma open_passable s n : open_cell s n → passable s n = Returned true.
Proof.
  intros (Hb & v & Hv & Ho & Hd). unfold passable. rewrite Hb, Hv. cbn.
  rewrite bool_decide_eq_false_2; [done|].
  rewrite !elem_of_cons, elem_of_nil. tauto.
Qed.

Lemma elem_of_heappush h e e' : e' ∈ heappush h e ↔ e' = e ∨ e' ∈ h.
Proof.
  induction h as [|e0 h IH]; simpl.
  - rewrite list_elem_of_singleton, elem_of_nil. tauto.
  - destruct (entry_ltb e0 e); rewrite !elem_of_cons; [rewrite IH|]; tauto.
Qed.

Lemma expand_closure s current path ds : ∀ open_set visited o v,
  Demo.expand s current path ds open_set visited = Returned (Continue o v) →
  visited ⊆ v ∧ (∀ e, e ∈ open_set → e ∈ o) ∧
  (∀ c, c ∈ v → c ∈ visited ∨ ((c ∉ unvisited_cells s) ∧ queued o c)) ∧
  (∀ d, d ∈ ds → open_cell s (shift current d) → shift current d ∈ v).
Proof.
  induction ds as [|d ds IH]; intros open_set visited o v H; cbn -[directions] in H.
  { outcome_inv. simplify_eq. split_and!; auto. intros d Hd. by apply elem_of_nil in Hd. }
  apply bind_Returned in H as (ok & Hpass & H).
  assert (∀ o0 v0,
            Demo.expand s current path ds o0 v0 = Returned (Continue o v) →
            visited ⊆ v0 → (∀ e, e ∈ open_set → e ∈ o0) →
            (∀ c, c ∈ v0 → c ∈ visited ∨ ((c ∉ unvisited_cells s) ∧ queued o0 c)) →
            (open_cell s (shift current d) → shift current d ∈ v0) →
            visited ⊆ v ∧ (∀ e, e ∈ open_set → e ∈ o) ∧
            (∀ c, c ∈ v → c ∈ visited ∨ ((c ∉ unvisited_cells s) ∧ queued o c)) ∧
            (∀ d0, d0 ∈ d :: ds → open_cell s (shift current d0) → shift current d0 ∈ v))
    as Hstep.
  { intros o0 v0 Hexp Hsub Hq Hnew Hd.
    apply IH in Hexp as (Hsub' & Hq' & Hnew' & Hds). split_and!.
    - set_solver.
    - auto.
    - intros c Hc. destruct (Hnew' c Hc) as [Hc0|[? (e & ? & ?)]].
      + destruct (Hnew c Hc0) as [?|[? (e & ? & ?)]]; [auto|].
        right. split; [done|]. exists e. auto.
      + right. split; [done|]. by exists e.
    - intros d0 Hd0 Hopen. apply elem_of_cons in Hd0 as [->|Hd0]; [|auto].
      apply Hsub'. auto. }
  destruct ok; cbn -[directions] in H.
  2:{ apply (Hstep _ _ H); auto.
      intros Hopen. apply open_passable in Hopen. congruence. }
  case_bool_decide as Hv; cbn -[directions] in H.
  { apply (Hstep _ _ H); auto. }
  case_bool_decide as Hun; [by outcome_inv|].
  apply bind_Returned in H as (k & _ & H).
  apply (Hstep _ _ H).
  - set_solver.
  - intros e He. apply elem_of_heappush. auto.
  - intros c Hc. apply elem_of_union in Hc as [Hc|Hc]; [|auto].
    apply elem_of_singleton in Hc as ->. right. split; [done|].
    eexists. split; [apply elem_of_heappush; left; reflexivity|done].
  - intros _. set_solver.
Qed.

Lemma search_closure s start fuel : ∀ open_set visited,
  start ∈ visited →
  (∀ c, c ∈ visited → c = start ∨ c ∉ unvisited_cells s) →
  (∀ c, c ∈ visited → queued open_set c ∨ closed s visited c) →
  Demo.search fuel s open_set visited = Returned None →
  ∃ seen : gset cell,
    start ∈ seen ∧ (∀ c, c ∈ seen → c = start ∨ c ∉ unvisited_cells s) ∧
    (∀ c, c ∈ seen → closed s seen c).
Proof.
  induction fuel as [|fuel IH]; intros open_set visited Hs Hun Hq H; [discriminate|].
  destruct open_set as [|[[f current] path] open_set]; cbn -[directions] in H.
  - exists visited. split_and!; auto. intros c Hc.
    destruct (Hq c Hc) as [(e & He & _)|?]; [by apply elem_of_nil in He|done].
  - apply bind_Returned in H as (r & Hexp & H).
    destruct r as [p|o v]; [by outcome_inv|].
    apply expand_closure in Hexp as (Hsub & Hkeep & Hnew & Hdirs).
    apply IH in H; [done|set_solver| |].
    + intros c Hc. destruct (Hnew c Hc) as [?|[? _]]; auto.
    + intros c Hc.
      assert (closed s v current) as Hcur.
      { intros n Hadj Hopen. apply adjacent_shift in Hadj as (d & Hd & ->). auto. }
      destruct (Hnew c Hc) as [Hc0|[_ ?]]; [|by left].
      destruct (Hq c Hc0) as [(e & He & Hec)|Hcl].
      * apply elem_of_cons in He as [->|He]; [simpl in Hec; subst c; by right|].
        left. exists e. auto.
      * right. intros n Hadj Hopen. apply Hsub. by apply Hcl.
Qed.

Lemma closed_walk (s : RobotNavigation) (seen : gset cell) walk : ∀ prev,
  (∀ c, c ∈ seen → closed s seen c) →
  prev ∈ seen → connected prev walk → Forall (open_cell s) walk →
  Forall (λ p, p ∈ seen) walk.
Proof.
  induction walk as [|p walk IH]; intros prev Hcl Hprev Hc Hopen; [constructor|].
  destruct Hc as [Hadj Hc]. apply Forall_cons in Hopen as [Hp Hopen].
  assert (p ∈ seen) by (by eapply Hcl).
  constructor; [done|]. by eapply IH.
Qed.

Lemma find_none_closure s walk :
  Demo.find_most_efficient_path s = Returned None →
  connected (robot_pos s) walk → Forall (open_cell s) walk →
  Forall (λ p, p = robot_pos s ∨ p ∉ unvisited_cells s) walk.
Proof.
  unfold Demo.find_most_efficient_path. intros H Hc Hopen.
  apply (search_closure s (robot_pos s)) in H as (seen & Hs & Hun & Hcl).
  - eapply Forall_impl; [by eapply closed_walk|]. auto.
  - set_solver.
  - intros c Hc'. left. apply elem_of_singleton in Hc'. by subst.
  - intros c Hc'. apply elem_of_singleton in Hc' as ->. left.
    eexists. split; [apply list_elem_of_here|done].
Qed.

(** On a grid of the right shape the search raises nothing. *)
Lemma passable_returns s p :
  shaped (width s) (height s) (grid s) → ∃ b, passable s p = Returned b.
Proof.
  intros Hs. unfold passable. destruct (in_bounds s p) eqn:Hb; [|eauto].
  apply in_bounds_on_grid in Hb.
  destruct (grid_get_total _ _ _ p Hs Hb) as [v ->]. cbn. eauto.
Qed.

Lemma unexplored_neighbors_returns s n ds :
  shaped (width s) (height s) (grid s) → ∃ k, unexplored_neighbors s n ds = Returned k.
Proof.
  intros Hs. induction ds as [|d ds [k IH]]; cbn; [eauto|].
  rewrite IH. destruct (in_bounds s (shift n d)) eqn:Hb; cbn; [|eauto].
  apply in_bounds_on_grid in Hb.
  destruct (grid_get_total _ _ _ (shift n d) Hs Hb) as [v ->]. cbn. eauto.
Qed.

Lemma expand_no_raise s current path ds : ∀ open_set visited e,
  shaped (width s) (height s) (grid s) →
  Demo.expand s current path ds open_set visited ≠ Raised e.
Proof.
  induction ds as [|d ds IH]; intros open_set visited e Hs; cbn -[directions]; [done|].
  destruct (passable_returns s (shift current d) Hs) as [ok ->]. cbn -[directions].
  destruct (ok && negb (bool_decide (shift current d ∈ visited))); [|by apply IH].
  case_bool_decide; [done|].
  destruct (unexplored_neighbors_returns s (shift current d) directions Hs) as [k ->].
  cbn -[directions]. by apply IH.
Qed.

Lemma search_no_raise s fuel : ∀ open_set visited e,
  shaped (width s) (height s) (grid s) →
  Demo.search fuel s open_set visited ≠ Raised e.
Proof.
  induction fuel as [|fuel IH]; intros open_set visited e Hs; [done|].
  destruct open_set as [|[[f current] path] open_set]; cbn -[directions]; [done|].
  pose proof (expand_no_raise s current path directions open_set visited e Hs).
  destruct (Demo.expand _ _ _ _ _ _) as [[p|o v]| |]; cbn -[directions]; try done.
  - by apply IH.
  - congruence.
Qed.

Lemma relax_closure s target current path ds : ∀ open_set (g_score : gmap cell Z) o g,
  H1.relax s target current path ds open_set g_score = Returned (o, g) →
  dom g_score ⊆ dom g ∧ (∀ e, e ∈ open_set → e ∈ o) ∧
  (∀ c, c ∈ dom g → c ∈ dom g_score ∨ queued o c) ∧
  (∀ d, d ∈ ds → open_cell s (shift current d) → shift current d ∈ dom g).
Proof.
  induction ds as [|d ds IH]; intros open_set g_score o g H; cbn -[directions] in H.
  { outcome_inv. simplify_eq. split_and!; auto. intros d Hd. by apply elem_of_nil in Hd. }
  apply bind_Returned in H as (ok & Hpass & H).
  assert (∀ o0 (g0 : gmap cell Z),
            H1.relax s target current path ds o0 g0 = Returned (o, g) →
            dom g_score ⊆ dom g0 → (∀ e, e ∈ open_set → e ∈ o0) →
            (∀ c, c ∈ dom g0 → c ∈ dom g_score ∨ queued o0 c) →
            (open_cell s (shift current d) → shift current d ∈ dom g0) →
            dom g_score ⊆ dom g ∧ (∀ e, e ∈ open_set → e ∈ o) ∧
            (∀ c, c ∈ dom g → c ∈ dom g_score ∨ queued o c) ∧
            (∀ d0, d0 ∈ d :: ds → open_cell s (shift current d0) →
                   shift current d0 ∈ dom g)) as Hstep.
  { intros o0 g0 Hrel Hsub Hq Hnew Hd.
    apply IH in Hrel as (Hsub' & Hq' & Hnew' & Hds). split_and!.
    - set_solver.
    - auto.
    - intros c Hc. destruct (Hnew' c Hc) as [Hc0|(e & ? & ?)].
      + destruct (Hnew c Hc0) as [?|(e & ? & ?)]; [auto|]. right. exists e. auto.
      + right. by exists e.
    - intros d0 Hd0 Hopen. apply elem_of_cons in Hd0 as [->|Hd0]; [|auto].
      apply Hsub'. auto. }
  destruct ok.
  2:{ apply (Hstep _ _ H); auto.
      intros Hopen. apply open_passable in Hopen. congruence. }
  destruct (g_score !! current) as [gc|]; [|discriminate].
  destruct (g_score !! shift current d) as [gn|] eqn:Hn.
  - case_bool_decide.
    + apply (Hstep _ _ H).
      * rewrite dom_insert_L. set_solver.
      * intros e He. apply elem_of_heappush. auto.
      * intros c Hc. rewrite dom_insert_L in Hc.
        apply elem_of_union in Hc as [Hc|Hc]; [|auto].
        apply elem_of_singleton in Hc as ->. right.
        eexists. split; [apply elem_of_heappush; left; reflexivity|done].
      * intros _. rewrite dom_insert_L. set_solver.
    + apply (Hstep _ _ H); auto. intros _. apply elem_of_dom. eauto.
  - apply (Hstep _ _ H).
    + rewrite dom_insert_L. set_solver.
    + intros e He. apply elem_of_heappush. auto.
    + intros c Hc. rewrite dom_insert_L in Hc.
      apply elem_of_union in Hc as [Hc|Hc]; [|auto].
      apply elem_of_singleton in Hc as ->. right.
      eexists. split; [apply elem_of_heappush; left; reflexivity|done].
    + intros _. rewrite dom_insert_L. set_solver.
Qed.

Lemma astar_closure s start target fuel : ∀ open_set (g_score : gmap cell Z) visited,
  start ∈ dom g_score →
  (∀ c, c ∈ dom g_score → c ∈ visited ∨ queued open_set c) →
  (∀ c, c ∈ visited → closed s (dom g_score) c ∧ c ≠ target) →
  H1.astar_loop fuel s target open_set g_score visited = Returned None →
  ∃ seen : gset cell,
    start ∈ seen ∧ ∀ c, c ∈ seen → closed s seen c ∧ c ≠ target.
Proof.
  induction fuel as [|fuel IH]; intros open_set g_score visited Hs Hq Hcl H; [discriminate|].
  destruct open_set as [|[[f current] path] open_set]; cbn -[directions] in H.
  - exists (dom g_score). split; [done|]. intros c Hc.
    destruct (Hq c Hc) as [?|(e & He & _)]; [auto|by apply elem_of_nil in He].
  - case_bool_decide as Ht; [by outcome_inv|].
    case_bool_decide as Hv.
    + apply IH in H; [done..| |done].
      intros c Hc. destruct (Hq c Hc) as [?|(e & He & Hec)]; [auto|].
      apply elem_of_cons in He as [->|He]; [simpl in Hec; subst c; auto|].
      right. by exists e.
    + apply bind_Returned in H as ([o g] & Hrel & H).
      apply relax_closure in Hrel as (Hsub & Hkeep & Hnew & Hdirs).
      apply IH in H; [done|set_solver| |].
      * intros c Hc. destruct (Hnew c Hc) as [Hc0|?]; [|auto].
        destruct (Hq c Hc0) as [?|(e & He & Hec)]; [set_solver|].
        apply elem_of_cons in He as [->|He]; [simpl in Hec; subst c; set_solver|].
        right. exists e. auto.
      * intros c Hc. apply elem_of_union in Hc as [Hc|Hc].
        -- apply elem_of_singleton in Hc as ->. split; [|done].
           intros n Hadj Hopen. apply adjacent_shift in Hadj as (d & Hd & ->). auto.
        -- destruct (Hcl c Hc) as [Hc1 ?]. split; [|done].
           intros n Hadj Hopen. apply Hsub. by apply Hc1.
Qed.

Lemma astar_none_closure s start target rest :
  H1.astar_pathfinding s start target = Returned None →
  connected start rest → Forall (open_cell s) rest →
  Forall (λ p, p ≠ target) (start :: rest).
Proof.
  unfold H1.astar_pathfinding. intros H Hc Hopen.
  apply (astar_closure s start) in H as (seen & Hs & Hcl).
  - constructor; [by apply Hcl|].
    eapply Forall_impl; [eapply (closed_walk s seen); eauto|].
    + intros c Hc'. by apply Hcl.
    + intros c Hc'. by apply Hcl.
  - rewrite dom_singleton_L. set_solver.
  - intros c Hc'. rewrite dom_singleton_L in Hc'. apply elem_of_singleton in Hc' as ->.
    right. eexists. split; [apply list_elem_of_here|done].
  - set_solver.
Qed.

Lemma relax_no_raise s target current path ds : ∀ open_set (g_score : gmap cell Z),
  shaped (width s) (height s) (grid s) → current ∈ dom g_score →
  Forall (λ e : entry, e.1.2 ∈ dom g_score) open_set →
  ∃ o g, H1.relax s target current path ds open_set g_score = Returned (o, g) ∧
         dom g_score ⊆ dom g ∧ Forall (λ e : entry, e.1.2 ∈ dom g) o.
Proof.
  induction ds as [|d ds IH]; intros open_set g_score Hs Hcur Ho; cbn -[directions].
  { eauto 10. }
  destruct (passable_returns s (shift current d) Hs) as [ok ->]. cbn -[directions].
  destruct ok; [|by apply IH].
  apply elem_of_dom in Hcur as Hg. destruct Hg as [gc Hgc]. rewrite Hgc.
  assert (∃ o g, H1.relax s target current path ds
                   (heappush open_set
                      (gc + 1 + Z.abs ((shift current d).1 - target.1)
                       + Z.abs ((shift current d).2 - target.2),
                       shift current d, path ++ [current]))
                   (<[shift current d:=gc + 1]> g_score) = Returned (o, g) ∧
                 dom g_score ⊆ dom g ∧ Forall (λ e : entry, e.1.2 ∈ dom g) o) as Hpush.
  { destruct (IH (heappush open_set
                    (gc + 1 + Z.abs ((shift current d).1 - target.1)
                     + Z.abs ((shift current d).2 - target.2),
                     shift current d, path ++ [current]))
                 (<[shift current d:=gc + 1]> g_score) Hs) as (o & g & -> & Hsub & Hall).
    - rewrite dom_insert_L. set_solver.
    - apply Forall_heappush.
      + eapply Forall_impl; [exact Ho|]. intros e He. simpl in *.
        rewrite dom_insert_L. set_solver.
      + simpl. rewrite dom_insert_L. set_solver.
    - exists o, g. split_and!; auto. rewrite dom_insert_L in Hsub. set_solver. }
  destruct (g_score !! shift current d); [|done].
  case_bool_decide; [done|]. by apply IH.
Qed.

Lemma astar_loop_no_raise s target fuel : ∀ open_set (g_score : gmap cell Z) visited e,
  shaped (width s) (height s) (grid s) →
  Forall (λ e : entry, e.1.2 ∈ dom g_score) open_set →
  H1.astar_loop fuel s target open_set g_score visited ≠ Raised e.
Proof.
  induction fuel as [|fuel IH]; intros open_set g_score visited e Hs Ho; [done|].
  destruct open_set as [|[[f current] path] open_set]; cbn -[directions]; [done|].
  apply Forall_cons in Ho as [Hcur Ho]. simpl in Hcur.
  case_bool_decide; [done|].
  case_bool_decide; [by apply IH|].
  destruct (relax_no_raise s target current path directions open_set g_score Hs Hcur Ho)
    as (o & g & -> & _ & Hall).
  cbn -[directions]. by apply IH.
Qed.

(** ** The loop of demo.py's [run_simulation] *)

Lemma connected_app prev l1 l2 c :
  connected prev l1 → last (prev :: l1) = Some c → connected c l2 →
  connected prev (l1 ++ l2).
Proof.
  revert prev. induction l1 as [|a l1 IH]; intros prev Hc Hlast Hc2; simpl in *.
  - by simplify_eq.
  - destruct Hc. split; [done|]. eapply IH; eauto.
Qed.

Lemma demo_iteration_on_track w h obstacles st draws stop st' rest :
  on_track w h obstacles st →
  demo_iteration st draws = Returned (stop, st', rest) →
  on_track w h obstacles st' ∧
  (stop = true → unvisited_cells st'.1 = ∅).
Proof.
  destruct st as [s traveled]. intros (Hc & Hlast & Hvis & Hall) H.
  unfold demo_iteration in H. simpl in *.
  apply rand_bind_Returned in H as (s1 & d1 & Hmove & H).
  apply move_dynamic_obstacles_from_frame in Hmove as (_ & _ & Hr & Hv & Hu & _).
  apply rand_bind_Returned in H as (path & d2 & Hfind & H).
  apply lift_Returned in Hfind as [Hfind ->].
  assert (∀ s0, Demo.is_exploration_complete s0 = true → unvisited_cells s0 = ∅)
    as Hdone.
  { intros s0 Hs0. unfold Demo.is_exploration_complete in Hs0.
    apply andb_true_iff in Hs0 as [Hs0 _]. apply bool_decide_eq_true in Hs0.
    by apply size_empty_iff, leibniz_equiv in Hs0. }
  assert (on_track w h obstacles (s1, traveled)) as Htrack1.
  { unfold on_track. simpl. rewrite Hr, Hv, Hu. done. }
  destruct path as [[|c p]|].
  - injection H as <- <- <-. split; [done|]. apply Hdone.
  - apply rand_bind_Returned in H as ([moved s2] & d3 & Hrobot & H).
    apply lift_Returned in Hrobot as [Hrobot ->].
    apply find_most_efficient_path_spec in Hfind
      as (before & t & Hpath & Hcp & _ & _ & Ht & _).
    apply move_robot_position in Hrobot as (_ & _ & _ & Hpos).
    destruct moved.
    + injection H as <- <- <-. simpl.
      destruct Hpos as (t' & Ht' & Hr2 & Hv2 & Hu2). simpl in Ht'.
      rewrite Hpath, last_snoc in Ht'. injection Ht' as <-.
      split; [|apply Hdone]. unfold on_track. simpl. split_and!.
      * eapply connected_app; eauto. by rewrite <- Hr.
      * rewrite Hpath, Hr2, app_assoc. by rewrite last_cons, last_snoc.
      * rewrite Hv2, Hv, Hpath, list_to_set_app_L, list_to_set_app_L. set_solver.
      * rewrite Hv2, Hu2, <- Hall, <- Hv, <- Hu. apply set_eq. intros q.
        destruct (decide (q = t)); set_solver.
    + injection H as <- <- <-. destruct Hpos as (Hr2 & Hv2 & Hu2).
      split; [|done]. unfold on_track. simpl. rewrite Hr2, Hv2, Hu2. done.
  - injection H as <- <- <-. split; [done|]. apply Hdone.
Qed.

Lemma demo_loop_on_track w h obstacles n : ∀ st draws st' rest,
  on_track w h obstacles st →
  demo_loop n st draws = Returned (st', rest) →
  on_track w h obstacles st' ∧ unvisited_cells st'.1 = ∅.
Proof.
  induction n as [|n IH]; intros st draws st' rest Ht H; [discriminate|].
  cbn in H. apply rand_bind_Returned in H as ([stop st1] & d1 & Hit & H).
  eapply demo_iteration_on_track in Hit as [Ht1 Hstop]; [|done].
  destruct stop; [|eauto].
  injection H as <- <-. auto.
Qed.

(** ** When [__init__] fails and when it cannot return *)

Lemma py_index_total n i :
  - Z.of_nat n ≤ i < Z.of_nat n → ∃ k, py_index n i = Some k ∧ (k < n)%nat.
Proof.
  intros Hi. unfold py_index. case_bool_decide.
  - exists (Z.to_nat i). split; [done|lia].
  - rewrite bool_decide_eq_true_2 by lia. eexists. split; [done|lia].
Qed.

Lemma grid_set_in_range_total w h g p v :
  shaped w h g → - w ≤ p.1 < w → - h ≤ p.2 < h →
  ∃ g', grid_set g p v = Returned g' ∧ shaped w h g'.
Proof.
  intros Hs Hx Hy. pose proof Hs as [Hl Hr].
  destruct (py_index_total (length g) p.2 ltac:(lia)) as (y & Hy1 & Hy2).
  destruct (lookup_lt_is_Some_2 g y Hy2) as [row Hrow].
  pose proof (Forall_lookup_1 _ _ _ _ Hr Hrow) as Hlen. simpl in Hlen.
  destruct (py_index_total (length row) p.1 ltac:(lia)) as (x & Hx1 & Hx2).
  assert (grid_set g p v = Returned (<[y:=<[x:=v]> row]> g)) as Hset.
  { unfold grid_set, getitem, setitem. rewrite Hy1. simpl. rewrite Hrow. simpl.
    by rewrite Hx1. }
  eexists. split; [exact Hset|]. by eapply grid_set_shaped.
Qed.

Lemma place_obstacles_returns w h obstacles : ∀ g unvisited,
  shaped w h g → Forall (λ p, - w ≤ p.1 < w ∧ - h ≤ p.2 < h) obstacles →
  ∃ g' unvisited', place_obstacles obstacles g unvisited = Returned (g', unvisited') ∧
                   shaped w h g'.
Proof.
  induction obstacles as [|o obstacles IH]; intros g unv Hs Hall; cbn; [eauto|].
  apply Forall_cons in Hall as [[Hx Hy] Hall].
  destruct (grid_set_in_range_total w h g o OBSTACLE Hs Hx Hy) as (g1 & -> & Hs1).
  cbn. by apply IH.
Qed.

Lemma place_dynamic_obstacle_no_raise fuel w h : ∀ g draws e,
  0 < w → 0 < h → shaped w h g →
  place_dynamic_obstacle fuel w h g draws ≠ Raised e.
Proof.
  induction fuel as [|fuel IH]; intros g draws e Hw Hh Hs; [done|].
  cbn [place_dynamic_obstacle]. rewrite rand_bind_unfold.
  destruct (randint 0 (w - 1) draws) as [[x d1]| |] eqn:Hx; [| |done].
  2:{ unfold randint in Hx. rewrite bool_decide_eq_false_2 in Hx by lia.
      by destruct draws. }
  apply randint_range in Hx. rewrite rand_bind_unfold.
  destruct (randint 0 (h - 1) d1) as [[y d2]| |] eqn:Hy; [| |done].
  2:{ unfold randint in Hy. rewrite bool_decide_eq_false_2 in Hy by lia.
      by destruct d1. }
  apply randint_range in Hy. rewrite rand_bind_unfold.
  destruct (grid_get_total w h g (x, y) Hs ltac:(by split)) as [v ->].
  unfold lift at 1. destruct (v =? UNVISITED); [|by apply IH].
  destruct (grid_set_total w h g (x, y) DYNAMIC_OBSTACLE Hs ltac:(by split))
    as [g1 ->].
  rewrite rand_bind_unfold. by unfold lift.
Qed.

Lemma place_dynamic_obstacles_no_raise count w h : ∀ g placed draws e,
  0 < w → 0 < h → shaped w h g →
  place_dynamic_obstacles count w h g placed draws ≠ Raised e.
Proof.
  induction count as [|count IH]; intros g placed draws e Hw Hh Hs; [done|].
  cbn [place_dynamic_obstacles]. rewrite rand_bind_unfold.
  destruct (place_dynamic_obstacle (length draws) w h g draws) as [[[g1 p] d1]| |] eqn:Hp.
  - apply place_dynamic_obstacle_spec in Hp as (_ & _ & Hset).
    apply IH; [done..|]. by eapply grid_set_shaped.
  - by apply place_dynamic_obstacle_no_raise in Hp.
  - done.
Qed.

(** ** Returned paths pass no cell twice *)

Lemma simple_entry_mono seen seen' e :
  seen ⊆ seen' → simple_entry seen e → simple_entry seen' e.
Proof. intros Hsub [? Hin]. split; [done|]. intros c Hc. apply Hsub. by apply Hin. Qed.

Lemma NoDup_snoc_fresh (path : list cell) (seen : gset cell) n :
  NoDup path → (∀ c, c ∈ path → c ∈ seen) → n ∉ seen → NoDup (path ++ [n]).
Proof.
  intros Hnd Hin Hn. apply NoDup_app. split_and!; [done| |apply NoDup_singleton].
  intros c Hc Hc'. apply list_elem_of_singleton in Hc' as ->. by apply Hn, Hin.
Qed.

Lemma expand_simple s current path ds : ∀ open_set visited r,
  simple_entry visited (0, current, path) →
  Forall (simple_entry visited) open_set →
  Demo.expand s current path ds open_set visited = Returned r →
  match r with
  | Found p => NoDup p
  | Continue o v => Forall (simple_entry v) o
  end.
Proof.
  induction ds as [|d ds IH]; intros open_set visited r Hcur Ho H.
  - simpl in H. outcome_inv. by subst r.
  - cbn -[directions] in H.
    apply bind_Returned in H as (ok & Hpass & H).
    destruct ok; cbn -[directions] in H; [|by eapply IH].
    destruct (bool_decide (shift current d ∈ visited)) eqn:Hv; cbn -[directions] in H;
      [by eapply IH|].
    apply bool_decide_eq_false in Hv. destruct Hcur as [Hnd Hin]. simpl in Hnd, Hin.
    case_bool_decide as Hun.
    + outcome_inv. subst r. by eapply NoDup_snoc_fresh.
    + apply bind_Returned in H as (k & _ & H).
      refine (IH _ _ _ _ _ H).
      * split; [done|]. simpl. intros c Hc. apply elem_of_union_r. by apply Hin.
      * apply Forall_heappush.
        -- eapply Forall_impl; [exact Ho|]. intros e. apply simple_entry_mono. set_solver.
        -- split; simpl; [by eapply NoDup_snoc_fresh|].
           intros c [Hc|Hc]%elem_of_app; [apply elem_of_union_r; by apply Hin|].
           apply list_elem_of_singleton in Hc as ->. set_solver.
Qed.

Lemma search_simple s fuel : ∀ open_set visited path,
  Forall (simple_entry visited) open_set →
  Demo.search fuel s open_set visited = Returned (Some path) → NoDup path.
Proof.
  induction fuel as [|fuel IH]; intros open_set visited p Ho H; [discriminate|].
  destruct open_set as [|[[prio current] path] open_set]; cbn -[directions] in H.
  - outcome_inv. discriminate.
  - apply Forall_cons in Ho as [Hcur Ho].
    apply bind_Returned in H as (r & Hexp & H).
    eapply expand_simple in Hexp; [|exact Hcur|exact Ho].
    destruct r as [p'|o v].
    + outcome_inv. by simplify_eq.
    + by eapply IH.
Qed.

Lemma find_most_efficient_path_simple s path :
  Demo.find_most_efficient_path s = Returned (Some path) → NoDup path.
Proof.
  unfold Demo.find_most_efficient_path. apply search_simple.
  apply Forall_singleton. split; simpl; [apply NoDup_nil_2|]. by intros c ?%elem_of_nil.
Qed.

Lemma relax_simple s target current path ds : ∀ open_set (g_score : gmap cell Z) o g seen,
  NoDup (path ++ [current]) → (∀ c, c ∈ path ++ [current] → c ∈ seen) →
  Forall (simple_entry seen) open_set →
  H1.relax s target current path ds open_set g_score = Returned (o, g) →
  Forall (simple_entry seen) o.
Proof.
  induction ds as [|d ds IH]; intros open_set g_score o g seen Hnd Hin Ho H.
  - cbn in H. outcome_inv. by simplify_eq.
  - cbn -[directions] in H.
    apply bind_Returned in H as (ok & Hpass & H).
    destruct ok; [|by eapply IH].
    destruct (g_score !! current) as [gc|]; [|discriminate].
    destruct (match g_score !! shift current d with
              | Some g_neighbor => bool_decide (gc + 1 < g_neighbor)
              | None => true
              end); [|by eapply IH].
    refine (IH _ _ _ _ _ Hnd Hin _ H).
    apply Forall_heappush; [done|]. by split.
Qed.

Lemma astar_loop_simple s target fuel : ∀ open_set (g_score : gmap cell Z) visited path,
  target ∉ visited →
  Forall (simple_entry visited) open_set →
  H1.astar_loop fuel s target open_set g_score visited = Returned (Some path) →
  NoDup path.
Proof.
  induction fuel as [|fuel IH]; intros open_set g_score visited p Ht Ho H; [discriminate|].
  destruct open_set as [|[[f current] path] open_set]; cbn -[directions] in H.
  - outcome_inv. discriminate.
  - apply Forall_cons in Ho as [[Hnd Hin] Ho]. simpl in Hnd, Hin.
    case_bool_decide as Hcur.
    + outcome_inv. simplify_eq. by eapply NoDup_snoc_fresh.
    + case_bool_decide as Hv; [by eapply IH|].
      apply bind_Returned in H as ([o g] & Hrelax & H).
      refine (IH _ _ _ _ _ _ H); [set_solver|].
      eapply relax_simple; [| | |exact Hrelax].
      * by eapply NoDup_snoc_fresh.
      * intros c [Hc|Hc]%elem_of_app; [apply elem_of_union_r; by apply Hin|].
        apply list_elem_of_singleton in Hc as ->. set_solver.
      * eapply Forall_impl; [exact Ho|]. intros e. apply simple_entry_mono. set_solver.
Qed.

Lemma astar_pathfinding_simple s start target path :
  H1.astar_pathfinding s start target = Returned (Some path) → NoDup path.
Proof.
  unfold H1.astar_pathfinding. apply astar_loop_simple; [set_solver|].
  apply Forall_singleton. split; simpl; [apply NoDup_nil_2|]. by intros c ?%elem_of_nil.
Qed.

Lemma NoDup_on_grid_length w h (path : list cell) :
  NoDup path → Forall (on_grid w h) path →
  (length path ≤ Z.to_nat w * Z.to_nat h)%nat.
Proof.
  intros Hnd Hall.
  rewrite <- (size_list_to_set (C:=gset cell)) by done.
  etrans; [|apply size_grid_cells]. apply subseteq_size.
  intros p Hp. apply elem_of_list_to_set in Hp. apply elem_of_grid_cells.
  rewrite Forall_forall in Hall. by apply Hall.
Qed.

(** ** The window of demo.py *)

Lemma grid_visualization_sizes w h v :
  grid_visualization w h = Some v →
  Z.max w h ≠ 0 ∧ 20 ≤ CELL_SIZE v ≤ 40 ∧
  SCREEN_WIDTH v = w * CELL_SIZE v ∧ SCREEN_HEIGHT v = h * CELL_SIZE v ∧
  (SCREEN_WIDTH v ≤ 800 ∧ SCREEN_HEIGHT v ≤ 800 ↔ Z.max w h ≤ 40).
Proof.
  unfold grid_visualization. destruct (Z.max w h =? 0) eqn:E; [discriminate|].
  apply Z.eqb_neq in E. intros [= <-]. simpl.
  split; [done|]. split; [lia|]. split; [done|]. split; [done|].
  set (m := Z.max w h) in *.
  destruct (Z_lt_le_dec m 0) as [Hneg|Hpos].
  - assert (800 / m < 0).
    { pose proof (Z.div_mod 800 m ltac:(lia)).
      pose proof (Z.mod_neg_bound 800 m Hneg). nia. }
    split; [lia|]. intros _. nia.
  - assert (0 < m) by lia.
    pose proof (Z.mul_div_le 800 m ltac:(lia)).
    pose proof (Z.mul_succ_div_gt 800 m ltac:(lia)).
    assert (w ≤ m ∧ h ≤ m) as [? ?] by lia.
    assert (m = w ∨ m = h) as Hm by lia.
    split.
    + intros [Hw Hh]. destruct (Z_le_gt_dec m 40); [done|]. exfalso.
      assert (800 / m ≤ 19) by nia.
      destruct Hm as [->| ->]; nia.
    + intros Hle. assert (20 ≤ 800 / m) by nia.
      assert (Z.max 20 (Z.min (800 / m) 40) ≤ 800 / m) by lia.
      assert (0 ≤ Z.max 20 (Z.min (800 / m) 40)) by lia.
      split; nia.
Qed.

Lemma cell_rect_in_window w h v p :
  grid_visualization w h = Some v → on_grid w h p →
  in_window v (cell_rect v p) ∧ inside (cell_rect v p) (path_point v p).
Proof.
  intros Hv [Hx Hy]. apply grid_visualization_sizes in Hv as (_ & Hc & Hw & Hh & _).
  unfold in_window, inside, cell_rect, path_point. simpl. rewrite Hw, Hh.
  assert (0 < CELL_SIZE v / 2 < CELL_SIZE v).
  { pose proof (Z.div_mod (CELL_SIZE v) 2 ltac:(lia)).
    pose proof (Z.mod_pos_bound (CELL_SIZE v) 2 ltac:(lia)). lia. }
  assert ((p.1 + 1) * CELL_SIZE v ≤ w * CELL_SIZE v)
    by (apply Z.mul_le_mono_nonneg_r; lia).
  assert ((p.2 + 1) * CELL_SIZE v ≤ h * CELL_SIZE v)
    by (apply Z.mul_le_mono_nonneg_r; lia).
  assert (0 ≤ p.1 * CELL_SIZE v) by (apply Z.mul_nonneg_nonneg; lia).
  assert (0 ≤ p.2 * CELL_SIZE v) by (apply Z.mul_nonneg_nonneg; lia).
  repeat split; lia.
Qed.

Lemma draw_path_lines v path :
  ∀ i line, draw_path v path !! i = Some line ↔
    ∃ p q, path !! i = Some p ∧ path !! S i = Some q ∧
           line = (path_point v p, path_point v q).
Proof.
  induction path as [|p [|q rest] IH]; intros i line.
  - simpl. split; [done|]. by intros (? & ? & ? & _).
  - simpl. split; [done|]. intros (? & ? & _ & Hq & _). by destruct i.
  - change (draw_path v (p :: q :: rest))
      with ((path_point v p, path_point v q) :: draw_path v (q :: rest)).
    destruct i as [|i].
    + simpl. split.
      * intros [= <-]. by exists p, q.
      * by intros (? & ? & [= <-] & [= <-] & ->).
    + change ((_ :: draw_path v (q :: rest)) !! S i) with (draw_path v (q :: rest) !! i).
      rewrite IH. done.
Qed.

Lemma connected_lookup prev path i p q :
  connected prev path → path !! i = Some p → path !! S i = Some q → adjacent p q.
Proof.
  revert prev i. induction path as [|a path IH]; intros prev i Hc Hp Hq; [done|].
  destruct Hc as [Ha Hc]. destruct i as [|i].
  - simpl in Hp. injection Hp as ->. destruct path; [done|].
    simpl in Hq. injection Hq as ->. by destruct Hc.
  - by eapply IH.
Qed.

Lemma length_draw_path v path : length (draw_path v path) = (length path - 1)%nat.
Proof.
  induction path as [|p [|q rest] IH]; [done..|].
  change (draw_path v (p :: q :: rest))
    with ((path_point v p, path_point v q) :: draw_path v (q :: rest)).
  simpl in *. lia.
Qed.

Lemma path_point_step v p q :
  0 ≤ CELL_SIZE v → adjacent p q →
  Z.abs ((path_point v p).1 - (path_point v q).1)
  + Z.abs ((path_point v p).2 - (path_point v q).2) = CELL_SIZE v.
Proof.
  unfold adjacent, path_point. simpl. intros Hc Hadj.
  replace (p.1 * CELL_SIZE v + CELL_SIZE v / 2 - (q.1 * CELL_SIZE v + CELL_SIZE v / 2))
    with ((p.1 - q.1) * CELL_SIZE v) by lia.
  replace (p.2 * CELL_SIZE v + CELL_SIZE v / 2 - (q.2 * CELL_SIZE v + CELL_SIZE v / 2))
    with ((p.2 - q.2) * CELL_SIZE v) by lia.
  rewrite !Z.abs_mul, (Z.abs_eq (CELL_SIZE v)) by done. nia.
Qed.

(** ** The finite state machine of manvitha.py *)

Lemma add_transition_Returned f a x b f' :
  Manvitha.add_transition f a x b = Returned f' →
  a ∈ Manvitha.states f ∧ b ∈ Manvitha.states f ∧ x ∈ Manvitha.alphabet f ∧
  Manvitha.states f' = Manvitha.states f ∧
  Manvitha.alphabet f' = Manvitha.alphabet f ∧
  Manvitha.start_state f' = Manvitha.start_state f ∧
  Manvitha.accepting_states f' = Manvitha.accepting_states f ∧
  ∀ q y, Manvitha.next_state f' (Some q) y =
         if bool_decide (q = a ∧ y = x) then Some b
         else Manvitha.next_state f (Some q) y.
Proof.
  unfold Manvitha.add_transition.
  destruct (bool_decide (a ∈ Manvitha.states f)) eqn:Ha; [|done].
  destruct (bool_decide (b ∈ Manvitha.states f)) eqn:Hb; [|done].
  destruct (bool_decide (x ∈ Manvitha.alphabet f)) eqn:Hx; [|done].
  apply bool_decide_eq_true in Ha, Hb, Hx. simpl. intros [= <-]. simpl.
  repeat (split; [done|]). intros q y.
  unfold Manvitha.next_state. simpl.
  destruct (decide (q = a)) as [->|Hq].
  - rewrite lookup_insert_eq. simpl.
    destruct (decide (y = x)) as [->|Hy].
    + rewrite lookup_insert_eq. by rewrite bool_decide_eq_true_2.
    + rewrite lookup_insert_ne by done.
      rewrite bool_decide_eq_false_2 by (by intros [_ ?]).
      by destruct (Manvitha.transitions f !! a).
  - rewrite lookup_insert_ne by done.
    by rewrite bool_decide_eq_false_2 by (by intros [? _]).
Qed.

Lemma add_transition_outcome f a x b :
  (∃ f', Manvitha.add_transition f a x b = Returned f') ∨
  (Manvitha.add_transition f a x b = Raised ValueError ∧
   (a ∉ Manvitha.states f ∨ b ∉ Manvitha.states f ∨ x ∉ Manvitha.alphabet f)).
Proof.
  unfold Manvitha.add_transition.
  destruct (bool_decide (a ∈ Manvitha.states f)) eqn:Ha; simpl;
    [|apply bool_decide_eq_false in Ha; by right; split; [|left]].
  destruct (bool_decide (b ∈ Manvitha.states f)) eqn:Hb; simpl;
    [|apply bool_decide_eq_false in Hb; by right; split; [|right; left]].
  destruct (bool_decide (x ∈ Manvitha.alphabet f)) eqn:Hx; simpl;
    [|apply bool_decide_eq_false in Hx; by right; split; [|right; right]].
  left. by eexists.
Qed.

Lemma add_transition_well_formed f a x b f' :
  Manvitha.well_formed f → Manvitha.add_transition f a x b = Returned f' →
  Manvitha.well_formed f'.
Proof.
  intros [Ht Hs] Hadd.
  apply add_transition_Returned in Hadd
    as (Ha & Hb & Hx & Hst & Hal & Hss & _ & Hnext).
  split.
  - intros q y q'. rewrite Hnext, Hst, Hal.
    destruct (bool_decide (q = a ∧ y = x)) eqn:E.
    + apply bool_decide_eq_true in E as [-> ->]. by intros [= <-].
    + apply Ht.
  - intros q. rewrite Hss, Hst. apply Hs.
Qed.

Lemma submit_fsm_well_formed sts alph start acc :
  Manvitha.well_formed (Manvitha.submit_fsm Manvitha.init sts alph start acc).
Proof.
  unfold Manvitha.submit_fsm, Manvitha.set_start_state. simpl.
  destruct (bool_decide (start ∈ list_to_set sts)) eqn:E; simpl.
  - apply bool_decide_eq_true in E. split; simpl.
    + intros q x q'. unfold Manvitha.next_state. simpl.
      by rewrite lookup_empty.
    + by intros q [= <-].
  - split; simpl; [|done].
    intros q x q'. unfold Manvitha.next_state. simpl. by rewrite lookup_empty.
Qed.

Lemma assembled_well_formed f : Manvitha.assembled f → Manvitha.well_formed f.
Proof.
  induction 1 as [|f a x b f' _ IH Hadd].
  - apply submit_fsm_well_formed.
  - by eapply add_transition_well_formed.
Qed.

Lemma test_from_run f current w :
  Manvitha.test_from f current w =
  match Manvitha.run f current w with
  | Some q => bool_decide (q ∈ Manvitha.accepting_states f)
  | None => false
  end.
Proof.
  revert current. induction w as [|c w IH]; intros current; cbn [Manvitha.run Manvitha.test_from].
  - done.
  - destruct (Manvitha.next_state f current [c]); [apply IH|done].
Qed.

Lemma run_app f current u v :
  Manvitha.run f current (u ++ v) =
  match Manvitha.run f current u with
  | Some q => Manvitha.run f (Some q) v
  | None => None
  end.
Proof.
  revert current. induction u as [|c u IH]; intros current.
  - simpl. destruct current; [done|]. by destruct v.
  - change ((c :: u) ++ v) with (c :: (u ++ v)). cbn [Manvitha.run].
    destruct (Manvitha.next_state f current [c]); [apply IH|done].
Qed.

Lemma run_well_formed f q w q' :
  Manvitha.well_formed f → q ∈ Manvitha.states f →
  Manvitha.run f (Some q) w = Some q' →
  q' ∈ Manvitha.states f ∧ Forall (λ x, x ∈ Manvitha.alphabet f) (Manvitha.symbols w).
Proof.
  intros [Ht _]. revert q. induction w as [|c w IH]; intros q Hq;
    unfold Manvitha.symbols; cbn [Manvitha.run fmap list_fmap].
  - intros [= <-]. by split.
  - destruct (Manvitha.next_state f (Some q) [c]) as [q1|] eqn:E;
      [|done].
    apply Ht in E as (_ & Hc & Hq1). intros Hrun.
    destruct (IH q1 Hq1 Hrun) as [? ?]. split; [done|]. by constructor.
Qed.

Lemma run_frame f f' current w :
  (∀ c, Manvitha.next_state f' current [c] =
        Manvitha.next_state f current [c]) →
  (∀ q c, Manvitha.next_state f' (Some q) [c] =
          Manvitha.next_state f (Some q) [c]) →
  Manvitha.run f' current w = Manvitha.run f current w.
Proof.
  intros H0 H. revert current H0. induction w as [|c w IH]; intros current H0; cbn [Manvitha.run].
  - done.
  - rewrite H0. destruct (Manvitha.next_state f current [c]);
      [|done]. apply IH. intros c'. apply H.
Qed.

(** ** The robots of demoai.py keep apart *)

Lemma H1_find_target s path :
  H1.find_most_efficient_path s = Returned (Some path) →
  ∃ t, last path = Some t ∧ t ∈ unvisited_cells s.
Proof.
  unfold H1.find_most_efficient_path. case_bool_decide as Hsize.
  - destruct (elements (unvisited_cells s)) as [|target l] eqn:E; [discriminate|].
    intros H. apply astar_pathfinding_spec in H as (rest & _ & Hlast & _).
    exists target. split; [done|]. apply elem_of_elements. rewrite E. left.
  - rewrite H1_search_eq. intros H.
    apply find_most_efficient_path_spec in H
      as (before & target & -> & _ & _ & _ & Ht & _).
    exists target. by rewrite last_snoc.
Qed.

Lemma NoDup_insert_fresh {A} (l : list A) n t :
  NoDup l → t ∉ l → NoDup (<[n:=t]> l).
Proof.
  revert n. induction l as [|a l IH]; intros n Hnd Ht; [done|].
  apply NoDup_cons in Hnd as [Ha Hnd]. apply not_elem_of_cons in Ht as [Hta Ht].
  destruct n as [|n]; simpl.
  - apply NoDup_cons. by split.
  - apply NoDup_cons. split; [|by apply IH].
    intros Hin. apply list_elem_of_lookup in Hin as [k Hk].
    destruct (decide (k = n)) as [->|Hkn].
    + destruct (decide (n < length l)%nat).
      * rewrite list_lookup_insert_eq in Hk by done. by injection Hk as ->.
      * rewrite list_insert_ge in Hk by lia. apply Ha. by eapply list_elem_of_lookup_2.
    + rewrite list_lookup_insert_ne in Hk by done.
      apply Ha. by eapply list_elem_of_lookup_2.
Qed.

Lemma Forall_insert_fresh {A} (P : A → Prop) (l : list A) n t :
  Forall P l → P t → Forall P (<[n:=t]> l).
Proof.
  intros Hl Ht. destruct (decide (n < length l)%nat).
  - by apply Forall_insert.
  - by rewrite list_insert_ge by lia.
Qed.

Lemma fleet_init_separate w h obstacles positions draws m rest :
  NoDup positions →
  DemoAI.init w h obstacles positions draws = Returned (m, rest) →
  DemoAI.separate m ∧ DemoAI.robot_positions m = positions.
Proof.
  intros Hnd H. unfold DemoAI.init in H.
  apply rand_bind_Returned in H as ([g1 unv] & d1 & H1 & H).
  apply lift_Returned in H1 as [H1 ->].
  apply place_obstacles_unvisited in H1 as ->.
  apply rand_bind_Returned in H as ([g2 dyn] & d2 & _ & H).
  apply rand_bind_Returned in H as (g3 & d3 & _ & H).
  injection H as <- _. unfold DemoAI.separate. simpl.
  split; [|done]. split_and!; [done| |].
  - apply Forall_forall. intros p Hp. by apply elem_of_list_to_set.
  - intros p Hp Hu. apply elem_of_list_to_set in Hp.
    apply elem_of_difference in Hu as [Hu _].
    unfold DemoAI.initial_unvisited in Hu. apply elem_of_list_to_set in Hu.
    apply list_elem_of_bind in Hu as (x & Hu & _).
    apply list_elem_of_bind in Hu as (y & Hu & _).
    case_bool_decide as Hn; [|by apply elem_of_nil in Hu].
    apply list_elem_of_singleton in Hu as ->. done.
Qed.

Lemma fleet_obstacles_separate m draws m' rest :
  DemoAI.move_dynamic_obstacles m draws = Returned (m', rest) →
  DemoAI.robot_positions m' = DemoAI.robot_positions m ∧
  DemoAI.visited_cells m' = DemoAI.visited_cells m ∧
  DemoAI.unvisited_cells m' = DemoAI.unvisited_cells m ∧
  DemoAI.robot_paths m' = DemoAI.robot_paths m.
Proof.
  unfold DemoAI.move_dynamic_obstacles. intros H.
  apply rand_bind_Returned in H as (s & d & _ & H). by injection H as <- _.
Qed.

Lemma fleet_move_robot_spec m i path moved m' :
  DemoAI.move_robot m i (Some path) = Returned (moved, m') →
  (path = [] ∧ moved = false ∧ m' = m) ∨
  ∃ t n track,
    last path = Some t ∧ moved = true ∧
    py_index (length (DemoAI.robot_positions m)) i = Some n ∧
    DemoAI.robot_positions m' = <[n:=t]> (DemoAI.robot_positions m) ∧
    DemoAI.visited_cells m' = {[t]} ∪ DemoAI.visited_cells m ∧
    DemoAI.unvisited_cells m' = DemoAI.unvisited_cells m ∖ {[t]} ∧
    DemoAI.robot_paths m !! i = Some track ∧
    DemoAI.robot_paths m' = <[i:=track ++ [t]]> (DemoAI.robot_paths m).
Proof.
  destruct path as [|c p]; [intros [= <- <-]; by left|].
  intros H. right. unfold DemoAI.move_robot in H.
  destruct (last (c :: p)) as [t|] eqn:Hlast;
    [|by apply last_None in Hlast].
  cbn [default] in H.
  apply bind_Returned in H as (g & _ & H).
  apply bind_Returned in H as (pos & _ & H).
  apply bind_Returned in H as ([b s] & Harr & H).
  apply bind_Returned in H as (positions & Hset & H).
  destruct (DemoAI.robot_paths m !! i) as [track|] eqn:Htrack; [|done].
  injection H as <- <-. simpl.
  unfold setitem in Hset.
  destruct (py_index (length (DemoAI.robot_positions m)) i) as [n|]; [|done].
  injection Hset as <-.
  unfold arrive in Harr.
  apply bind_Returned in Harr as (g1 & _ & Harr).
  apply bind_Returned in Harr as (g2 & _ & Harr).
  injection Harr as _ <-. simpl.
  exists t, n, track. by split_and!.
Qed.

Lemma fleet_planned_move_separate m i path moved m' :
  DemoAI.separate m →
  DemoAI.find_most_efficient_path m i = Returned (Some path) →
  DemoAI.move_robot m i (Some path) = Returned (moved, m') →
  DemoAI.separate m' ∧
  length (DemoAI.robot_positions m') = length (DemoAI.robot_positions m).
Proof.
  intros (Hnd & Hvis & Hdisj) Hfind Hmove.
  unfold DemoAI.find_most_efficient_path in Hfind.
  apply bind_Returned in Hfind as (start & _ & Hfind).
  apply H1_find_target in Hfind as (t & Hlast & Ht). simpl in Ht.
  apply fleet_move_robot_spec in Hmove
    as [(-> & _)|(t' & n & track & Hlast' & _ & _ & Hpos & Hv & Hu & _)];
    [done|].
  rewrite Hlast in Hlast'. injection Hlast' as <-.
  unfold DemoAI.separate. rewrite Hpos, Hv, Hu, length_insert.
  split; [|done]. split_and!.
  - apply NoDup_insert_fresh; [done|]. intros Hin.
    rewrite Forall_forall in Hvis. apply Hvis in Hin. set_solver.
  - apply Forall_insert_fresh; [|set_solver].
    eapply Forall_impl; [exact Hvis|]. set_solver.
  - set_solver.
Qed.

Lemma robots_turn_separate indices : ∀ m m',
  DemoAI.separate m →
  DemoAI.robots_turn indices m = Returned m' →
  DemoAI.separate m' ∧
  length (DemoAI.robot_positions m') = length (DemoAI.robot_positions m).
Proof.
  induction indices as [|i indices IH]; intros m m' Hsep H; cbn in H.
  - by injection H as <-.
  - apply bind_Returned in H as (path & Hfind & H).
    destruct path as [[|c p]|]; [by apply IH| |by apply IH].
    apply bind_Returned in H as ([moved m1] & Hmove & H).
    destruct (fleet_planned_move_separate _ _ _ _ _ Hsep Hfind Hmove) as [Hsep1 Hlen].
    apply IH in H as [? ?]; [|done]. split; [done|congruence].
Qed.

Lemma fleet_reachable_separate w h obstacles positions m :
  NoDup positions →
  DemoAI.reachable w h obstacles positions m →
  DemoAI.separate m ∧ length (DemoAI.robot_positions m) = length positions.
Proof.
  intros Hnd. induction 1 as [draws m rest Hinit|m draws m' rest _ IH Hstep|m m' _ IH Hturn].
  - apply fleet_init_separate in Hinit as [? ->]; done.
  - destruct IH as [(? & ? & ?) ?].
    apply fleet_obstacles_separate in Hstep as (Hp & Hv & Hu & _).
    unfold DemoAI.separate. by rewrite Hp, Hv, Hu.
  - destruct IH as [Hsep Hlen].
    apply robots_turn_separate in Hturn as [? ?]; [|done]. split; [done|congruence].
Qed.

Lemma fleet_init_tracked w h obstacles positions draws m rest :
  DemoAI.init w h obstacles positions draws = Returned (m, rest) → tracked m.
Proof.
  intros H. unfold DemoAI.init in H.
  apply rand_bind_Returned in H as ([g1 unv] & d1 & _ & H).
  apply rand_bind_Returned in H as ([g2 dyn] & d2 & _ & H).
  apply rand_bind_Returned in H as (g3 & d3 & _ & H).
  injection H as <- _. intros i track. simpl. intros Hl.
  apply elem_of_list_to_map_2 in Hl.
  apply list_elem_of_fmap in Hl as (k & [= -> ->] & Hk).
  apply elem_of_seq in Hk. split_and!; [lia|lia|done|by left].
Qed.

Lemma fleet_move_robot_tracked m i path moved m' :
  tracked m →
  DemoAI.move_robot m i (Some path) = Returned (moved, m') → tracked m'.
Proof.
  intros Htr Hmove.
  apply fleet_move_robot_spec in Hmove
    as [(_ & _ & ->)|(t & n & track & _ & _ & Hn & Hpos & Hv & _ & Htrack & Hpaths)];
    [done|].
  destruct (Htr _ _ Htrack) as ([Hi0 Hi1] & Hvis & _).
  unfold py_index in Hn. rewrite bool_decide_eq_true_2 in Hn by done.
  injection Hn as <-.
  intros k track'. rewrite Hpaths, Hpos, Hv, length_insert.
  destruct (decide (k = i)) as [->|Hk].
  - rewrite lookup_insert_eq. intros [= <-]. split_and!; [done|done| |].
    + apply Forall_app. split; [|apply Forall_singleton; set_solver].
      eapply Forall_impl; [exact Hvis|]. set_solver.
    + right. rewrite last_snoc. symmetry. apply list_lookup_insert_eq. lia.
  - rewrite lookup_insert_ne by done. intros Hl.
    destruct (Htr _ _ Hl) as ([Hk0 Hk1] & Hvis' & Hlast).
    split_and!; [done|done| |].
    + eapply Forall_impl; [exact Hvis'|]. set_solver.
    + rewrite list_lookup_insert_ne by lia. done.
Qed.

Lemma robots_turn_tracked indices : ∀ m m',
  tracked m → DemoAI.robots_turn indices m = Returned m' → tracked m'.
Proof.
  induction indices as [|i indices IH]; intros m m' Htr H; cbn in H.
  - by injection H as <-.
  - apply bind_Returned in H as (path & Hfind & H).
    destruct path as [[|c p]|]; [by eapply IH| |by eapply IH].
    apply bind_Returned in H as ([moved m1] & Hmove & H).
    eapply IH; [|exact H]. by eapply fleet_move_robot_tracked.
Qed.

(** ** The matrix holds the six states only *)

Lemma legend_write g c v g' :
  legend g → grid_set g c v = Returned g' → 0 ≤ v ≤ 5 → legend g'.
Proof.
  intros Hl Hset Hv q state Hq.
  apply grid_set_spec in Hset as (_ & _ & _ & Hall).
  destruct (Hall q) as [E|[E _]]; rewrite E in Hq.
  - by eapply Hl.
  - by injection Hq as <-.
Qed.

Lemma legend_replicate w h :
  legend (replicate (Z.to_nat h) (replicate (Z.to_nat w) UNVISITED)).
Proof.
  intros q state Hq. apply grid_get_Returned in Hq as (y & row & x & _ & Hrow & _ & Hx).
  apply lookup_replicate in Hrow as [-> _]. apply lookup_replicate in Hx as [-> _].
  done.
Qed.

Lemma place_obstacles_legend obstacles : ∀ g unvisited g' unvisited',
  place_obstacles obstacles g unvisited = Returned (g', unvisited') →
  legend g → legend g'.
Proof.
  induction obstacles as [|o obstacles IH]; intros g unv g' unv' H Hl; cbn in H.
  - outcome_inv. by simplify_eq.
  - apply bind_Returned in H as (g1 & Hset & H).
    eapply IH; [exact H|]. by eapply legend_write.
Qed.

Lemma place_dynamic_obstacles_legend count w h : ∀ g placed draws g' placed' rest,
  place_dynamic_obstacles count w h g placed draws = Returned (g', placed', rest) →
  legend g → legend g'.
Proof.
  induction count as [|count IH]; intros g placed draws g' placed' rest H Hl; cbn in H.
  - by injection H as -> -> ->.
  - apply rand_bind_Returned in H as ([g1 p] & d1 & Hp & H).
    apply place_dynamic_obstacle_spec in Hp as (_ & _ & Hset).
    eapply IH; [exact H|]. by eapply legend_write.
Qed.

Lemma init_with_legend count w h obstacles draws s rest :
  init_with count w h obstacles draws = Returned (s, rest) → legend (grid s).
Proof.
  intros H. unfold init_with in H.
  apply rand_bind_Returned in H as ([g1 unv] & d1 & H1 & H).
  apply lift_Returned in H1 as [H1 ->].
  apply rand_bind_Returned in H as ([g2 dyn] & d2 & H2 & H).
  apply rand_bind_Returned in H as (g3 & d3 & H3 & H).
  apply lift_Returned in H3 as [H3 ->]. injection H as <- _. simpl.
  eapply legend_write; [|exact H3|done].
  eapply place_dynamic_obstacles_legend; [exact H2|].
  eapply place_obstacles_legend; [exact H1|]. apply legend_replicate.
Qed.

Lemma move_dynamic_obstacle_legend s i p draws s' rest :
  move_dynamic_obstacle s i p draws = Returned (s', rest) →
  legend (grid s) → legend (grid s').
Proof.
  unfold move_dynamic_obstacle. intros H Hl.
  apply rand_bind_Returned in H as (g1 & d1 & H1 & H).
  apply lift_Returned in H1 as [H1 ->].
  assert (legend g1) as Hl1.
  { eapply legend_write; [exact Hl|exact H1|].
    unfold restored_state. repeat case_bool_decide; done. }
  apply rand_bind_Returned in H as (ds & d2 & _ & H).
  apply rand_bind_Returned in H as (q & d3 & _ & H).
  destruct q as [q|].
  - apply rand_bind_Returned in H as (g2 & d4 & H2 & H).
    apply lift_Returned in H2 as [H2 ->]. injection H as <- _. simpl.
    by eapply legend_write.
  - by injection H as <- _.
Qed.

Lemma move_dynamic_obstacles_from_legend n : ∀ i s draws s' rest,
  move_dynamic_obstacles_from n i s draws = Returned (s', rest) →
  legend (grid s) → legend (grid s').
Proof.
  induction n as [|n IH]; intros i s draws s' rest H Hl; cbn in H.
  - by injection H as <- _.
  - destruct (dynamic_obstacles s !! i) as [p|]; [|by injection H as <- _].
    apply rand_bind_Returned in H as (s1 & d1 & H1 & H).
    eapply IH; [exact H|]. by eapply move_dynamic_obstacle_legend.
Qed.

Lemma move_robot_legend s path moved s' :
  Demo.move_robot s path = Returned (moved, s') →
  legend (grid s) → legend (grid s').
Proof.
  intros H Hl. destruct path as [[|c p]|]; try (by injection H as _ <-).
  cbn -[last but_last] in H.
  apply bind_Returned in H as (g & Hre & H).
  assert (legend g) as Hg.
  { refine (retrace_ind legend _ _ _ _ Hl Hre).
    intros g0 c0 g0' Hl0 _ Hset. by eapply legend_write. }
  apply bind_Returned in H as (v & _ & H).
  destruct (v =? DYNAMIC_OBSTACLE); [by injection H as _ <-|].
  unfold arrive in H.
  apply bind_Returned in H as (g1 & H1 & H).
  apply bind_Returned in H as (g2 & H2 & H).
  injection H as _ <-. simpl.
  eapply legend_write; [|exact H2|done]. by eapply legend_write.
Qed.

Lemma reachable_legend count w h obstacles s :
  reachable count w h obstacles s → legend (grid s).
Proof.
  induction 1 as [draws s rest Hinit|s draws s' rest _ IH Hstep|s path moved s' _ IH _ Hmove].
  - by eapply init_with_legend.
  - by eapply move_dynamic_obstacles_from_legend.
  - by eapply move_robot_legend.
Qed.

Lemma draw_cells_returns w h v g cells :
  shaped w h g → legend g → Forall (on_grid w h) cells →
  ∃ drawn, draw_cells v g cells = Returned drawn ∧
           drawn.*1 = cell_rect v <$> cells.
Proof.
  intros Hs Hl. induction cells as [|p cells IH]; intros Hall; cbn -[COLORS]; [by exists []|].
  apply Forall_cons in Hall as [Hp Hall].
  destruct (grid_get_total w h g p Hs Hp) as [state Hstate]. rewrite Hstate. cbn -[COLORS].
  pose proof (Hl p state Hstate) as Hrange.
  assert (is_Some (COLORS !! state)) as [colour ->].
  { assert (state = 0 ∨ state = 1 ∨ state = 2 ∨ state = 3 ∨ state = 4 ∨ state = 5)
      as [->|[->|[->|[->|[->| ->]]]]] by lia; by eexists. }
  cbn -[COLORS]. destruct (IH Hall) as (drawn & -> & Hrects). cbn -[COLORS].
  eexists. split; [done|]. cbn. by rewrite Hrects.
Qed.

(** ** Which exceptions [__init__] raises *)

Lemma bind_Raised {A B} (m : outcome A) (k : A → outcome B) e :
  m ≫= k = Raised e → m = Raised e ∨ ∃ a, m = Returned a ∧ k a = Raised e.
Proof. destruct m as [a| |]; simpl; [eauto|intros [= ->]; by left|discriminate]. Qed.

Lemma rand_bind_Raised {A B} (m : rand A) (k : A → rand B) draws e :
  (m ≫= k) draws = Raised e →
  m draws = Raised e ∨ ∃ a draws', m draws = Returned (a, draws') ∧ k a draws' = Raised e.
Proof.
  rewrite rand_bind_unfold.
  destruct (m draws) as [[a d]| |]; [eauto|intros [= ->]; by left|discriminate].
Qed.

Lemma lift_Raised {A} (m : outcome A) draws e : lift m draws = Raised e → m = Raised e.
Proof. unfold lift. destruct m; intros; simplify_eq; auto. Qed.

Lemma getitem_Raised {A} (l : list A) i e : getitem l i = Raised e → e = IndexError.
Proof. unfold getitem. destruct (py_index (length l) i ≫= _); [done|]. by intros [= <-]. Qed.

Lemma setitem_Raised {A} (l : list A) i v e : setitem l i v = Raised e → e = IndexError.
Proof. unfold setitem. destruct (py_index (length l) i); [done|]. by intros [= <-]. Qed.

Lemma grid_get_Raised g p e : grid_get g p = Raised e → e = IndexError.
Proof.
  unfold grid_get. intros [H|(row & _ & H)]%bind_Raised; by eapply getitem_Raised.
Qed.

Lemma grid_set_Raised g p v e : grid_set g p v = Raised e → e = IndexError.
Proof.
  unfold grid_set. intros [H|(row & _ & H)]%bind_Raised; [by eapply getitem_Raised|].
  apply bind_Raised in H as [H|(row' & _ & H)]; by eapply setitem_Raised.
Qed.

Lemma place_obstacles_Raised obstacles : ∀ g unvisited e,
  place_obstacles obstacles g unvisited = Raised e → e = IndexError.
Proof.
  induction obstacles as [|o obstacles IH]; intros g unv e H; cbn in H; [done|].
  apply bind_Raised in H as [H|(g1 & _ & H)]; [by eapply grid_set_Raised|by eapply IH].
Qed.

Lemma randint_Raised a b draws e : randint a b draws = Raised e → e = ValueError.
Proof.
  unfold randint. case_bool_decide; [by intros [= <-]|]. by destruct draws.
Qed.

Lemma place_dynamic_obstacle_Raised fuel w h : ∀ g draws e,
  place_dynamic_obstacle fuel w h g draws = Raised e → e = IndexError ∨ e = ValueError.
Proof.
  induction fuel as [|fuel IH]; intros g draws e H; [done|].
  cbn [place_dynamic_obstacle] in H.
  apply rand_bind_Raised in H as [H|(x & d1 & _ & H)];
    [right; by eapply randint_Raised|].
  apply rand_bind_Raised in H as [H|(y & d2 & _ & H)];
    [right; by eapply randint_Raised|].
  apply rand_bind_Raised in H as [H|(v & d3 & _ & H)];
    [left; by eapply grid_get_Raised, lift_Raised|].
  destruct (v =? UNVISITED); [|by eapply IH].
  apply rand_bind_Raised in H as [H|(g1 & d4 & _ & H)]; [|done].
  left. by eapply grid_set_Raised, lift_Raised.
Qed.

Lemma place_dynamic_obstacles_Raised count w h : ∀ g placed draws e,
  place_dynamic_obstacles count w h g placed draws = Raised e →
  e = IndexError ∨ e = ValueError.
Proof.
  induction count as [|count IH]; intros g placed draws e H; [done|].
  cbn [place_dynamic_obstacles] in H.
  apply rand_bind_Raised in H as [H|([g1 p] & d1 & _ & H)];
    [by eapply place_dynamic_obstacle_Raised|by eapply IH].
Qed.

Lemma init_with_Raised count w h obstacles draws e :
  init_with count w h obstacles draws = Raised e → e = IndexError ∨ e = ValueError.
Proof.
  unfold init_with. intros H.
  apply rand_bind_Raised in H as [H|([g1 unv] & d1 & _ & H)];
    [left; by eapply place_obstacles_Raised, lift_Raised|].
  apply rand_bind_Raised in H as [H|([g2 dyn] & d2 & _ & H)];
    [by eapply place_dynamic_obstacles_Raised|].
  apply rand_bind_Raised in H as [H|(g3 & d3 & _ & H)]; [|done].
  left. by eapply grid_set_Raised, lift_Raised.
Qed.

(** ** Static obstacle cells keep their mark *)

Lemma clear_write g c v g' q :
  grid_get g q ≠ Returned OBSTACLE → grid_set g c v = Returned g' → v ≠ OBSTACLE →
  grid_get g' q ≠ Returned OBSTACLE.
Proof.
  intros Hq Hset Hv. apply grid_set_spec in Hset as (_ & _ & _ & Hall).
  destruct (Hall q) as [E|[E _]]; rewrite E; [done|].
  intros [= ?]. done.
Qed.

Lemma reachable_sizes count w h obstacles s :
  reachable count w h obstacles s → width s = w ∧ height s = h.
Proof.
  induction 1 as [draws s rest Hinit|s draws s' rest _ IH Hstep|s path moved s' _ IH _ Hmove].
  - by apply init_with_spec in Hinit as (? & ? & _).
  - unfold move_dynamic_obstacles in Hstep.
    apply move_dynamic_obstacles_from_frame in Hstep as (-> & -> & _). done.
  - apply move_robot_position in Hmove as (-> & -> & _). done.
Qed.

Lemma init_with_marked count w h obstacles draws s rest :
  init_with count w h obstacles draws = Returned (s, rest) →
  marked (off_start w h obstacles) (grid s).
Proof.
  intros H. unfold init_with in H.
  apply rand_bind_Returned in H as ([g1 unv] & d1 & H1 & H).
  apply lift_Returned in H1 as [H1 ->].
  apply rand_bind_Returned in H as ([g2 dyn] & d2 & H2 & H).
  apply rand_bind_Returned in H as (g3 & d3 & H3 & H).
  apply lift_Returned in H3 as [H3 ->]. injection H as <- _. simpl.
  pose proof (place_obstacles_marked _ _ _ _ _ [] H1 ltac:(by apply Forall_nil)) as Hm1.
  simpl in Hm1.
  pose proof (place_obstacles_in_range w h _ _ _ _ (shaped_replicate w h) H1)
    as [Hs1 _]. simpl in Hs1.
  pose proof (place_dynamic_obstacles_marked _ _ _ _ _ _ _ _ _ _ H2 Hm1) as Hm2.
  eapply (place_dynamic_obstacles_spec _ _ _ (grid_cells w h)) in H2
    as [(Hs2 & _) _].
  2:{ split_and!; [done|by apply Forall_nil|].
      intros q Hq _. by apply elem_of_grid_cells. }
  destruct (grid_set_origin w h _ _ _ Hs2 H3) as [Hw Hh].
  unfold marked, off_start. apply Forall_forall.
  intros o [[[Hx Hy] Hne] Ho]%list_elem_of_filter.
  unfold marked in Hm2. rewrite Forall_forall in Hm2.
  rewrite (grid_set_other w h _ _ _ _ o H3 Hs2); simpl; [by apply Hm2|lia..|done].
Qed.

Lemma move_dynamic_obstacle_clear s i p draws s' rest q :
  move_dynamic_obstacle s i p draws = Returned (s', rest) →
  grid_get (grid s) q ≠ Returned OBSTACLE → grid_get (grid s') q ≠ Returned OBSTACLE.
Proof.
  unfold move_dynamic_obstacle. intros H Hq.
  apply rand_bind_Returned in H as (g1 & d1 & H1 & H).
  apply lift_Returned in H1 as [H1 ->].
  assert (grid_get g1 q ≠ Returned OBSTACLE) as Hq1.
  { eapply clear_write; [exact Hq|exact H1|].
    unfold restored_state. repeat case_bool_decide; done. }
  apply rand_bind_Returned in H as (ds & d2 & _ & H).
  apply rand_bind_Returned in H as (t & d3 & _ & H).
  destruct t as [t|].
  - apply rand_bind_Returned in H as (g2 & d4 & H2 & H).
    apply lift_Returned in H2 as [H2 ->]. injection H as <- _. simpl.
    by eapply clear_write.
  - by injection H as <- _.
Qed.

Lemma move_dynamic_obstacles_from_clear n q : ∀ i s draws s' rest,
  move_dynamic_obstacles_from n i s draws = Returned (s', rest) →
  grid_get (grid s) q ≠ Returned OBSTACLE → grid_get (grid s') q ≠ Returned OBSTACLE.
Proof.
  induction n as [|n IH]; intros i s draws s' rest H Hq; cbn in H.
  - by injection H as <- _.
  - destruct (dynamic_obstacles s !! i) as [p|]; [|by injection H as <- _].
    apply rand_bind_Returned in H as (s1 & d1 & H1 & H).
    eapply IH; [exact H|]. by eapply move_dynamic_obstacle_clear.
Qed.

Lemma planned_move_keeps_marks obstacles s path moved s' :
  grid_get (grid s) (robot_pos s) ≠ Returned OBSTACLE →
  Demo.find_most_efficient_path s = Returned (Some path) →
  Demo.move_robot s (Some path) = Returned (moved, s') →
  marked obstacles (grid s) →
  marked obstacles (grid s') ∧ grid_get (grid s') (robot_pos s') ≠ Returned OBSTACLE.
Proof.
  intros Hrobot Hfind H Hm.
  apply find_most_efficient_path_spec, frontier_path_last in Hfind
    as (t & Hlast & _ & _ & v & Hv & Hvo & _).
  destruct path as [|p path]; [discriminate|]. cbn -[last but_last] in H.
  rewrite Hlast in H. simpl in H.
  apply bind_Returned in H as (g & Hre & H).
  pose proof (retrace_marked _ _ _ _ Hre Hm) as Hmg.
  assert (∀ q, grid_get (grid s) q ≠ Returned OBSTACLE →
               grid_get g q ≠ Returned OBSTACLE) as Hkeep.
  { intros q Hq.
    refine (retrace_ind (λ g, grid_get g q ≠ Returned OBSTACLE) _ _ _ _ Hq Hre).
    intros g1 c g2 Hq1 _ Hset. by eapply clear_write. }
  apply bind_Returned in H as (u & Hu & H).
  destruct (u =? DYNAMIC_OBSTACLE); [injection H as _ <-; simpl; auto|].
  unfold arrive in H.
  apply bind_Returned in H as (g1 & H1 & H).
  apply bind_Returned in H as (g2 & H2 & H).
  injection H as _ <-. simpl.
  assert (grid_get (grid s) t ≠ Returned OBSTACLE) as Ht
    by (rewrite Hv; by intros [= ?]).
  split.
  - refine (marked_write _ _ _ _ _ _ H2 _).
    + refine (marked_write _ _ _ _ _ Hmg H1 _). by apply Hkeep.
    + eapply clear_write; [|exact H1|done]. by apply Hkeep.
  - apply grid_set_spec in H2 as (_ & _ & -> & _). done.
Qed.

Lemma reachable_marks count w h obstacles s :
  reachable count w h obstacles s →
  marked (off_start w h obstacles) (grid s) ∧
  grid_get (grid s) (robot_pos s) ≠ Returned OBSTACLE.
Proof.
  induction 1 as [draws s rest Hinit|s draws s' rest Hreach IH Hstep
                 |s path moved s' _ IH Hfind Hmove].
  - split; [by eapply init_with_marked|].
    apply init_with_fields in Hinit as (-> & _ & _ & _ & _ & -> & _). done.
  - destruct IH as [Hm Hr]. apply reachable_tidy in Hreach.
    unfold move_dynamic_obstacles in Hstep. split.
    + by eapply move_dynamic_obstacles_from_marked.
    + pose proof (move_dynamic_obstacles_from_frame _ _ _ _ _ _ Hstep)
        as (_ & _ & -> & _).
      by eapply move_dynamic_obstacles_from_clear.
  - destruct IH as [Hm Hr]. by eapply planned_move_keeps_marks.
Qed.


(** * The claims *)

(** C1: in every state reached by a session built from static obstacles
    that lie on the grid and away from the start cell, the sets
    [visited_cells] and [unvisited_cells] are disjoint and their sizes add
    up to the number of cells of the matrix that do not hold [OBSTACLE]. *)
Theorem coverage_sets_split_free_cells count w h obstacles s :
  Forall (λ p, on_grid w h p ∧ p ≠ (0, 0)) obstacles →
  reachable count w h obstacles s →
  visited_cells s ## unvisited_cells s ∧
  (size (visited_cells s) + size (unvisited_cells s))%nat = free_cells s.
Proof.
  intros Hobs Hs. apply covered_count.
  - eapply reachable_tidy; eauto.
  - eapply reachable_covered; eauto.
Qed.

Lemma coverage_sets_split_free_cells_witness :
  visited_cells session_3x3 ## unvisited_cells session_3x3 ∧
  (size (visited_cells session_3x3) + size (unvisited_cells session_3x3))%nat
  = free_cells session_3x3.
Proof.
  apply (coverage_sets_split_free_cells 3 3 3 [(1, 1)]).
  - repeat constructor; simpl; lia || discriminate.
  - exact session_3x3_reachable.
Defined.




(** C3: a path returned by the frontier search of demo.py is not empty,
    starts next to the robot and goes from neighbour to neighbour, does
    not contain the robot's cell, passes only over cells that hold
    neither [OBSTACLE] nor [DYNAMIC_OBSTACLE], ends on a cell of
    [unvisited_cells] and has no cell of that set before its end.  When
    [(2, 2)] is the only unvisited cell the path ends there, and on the 5
    by 5 grid with the robot at [(0, 0)] the search does return such a
    path. *)
Theorem frontier_search_reaches_first_unvisited :
  (∀ s path,
     Demo.find_most_efficient_path s = Returned (Some path) →
     path ≠ [] ∧
     connected (robot_pos s) path ∧
     (robot_pos s ∉ path) ∧
     Forall (open_cell s) path ∧
     (∃ before target, path = before ++ [target] ∧ target ∈ unvisited_cells s ∧
                       Forall (λ p, p ∉ unvisited_cells s) before) ∧
     (unvisited_cells s = {[(2, 2)]} → last path = Some (2, 2))) ∧
  Demo.find_most_efficient_path one_left_5x5
  = Returned (Some [(0, 1); (0, 2); (1, 2); (2, 2)]).
Proof.
  split; [|by vm_compute].
  intros s path H. apply find_most_efficient_path_spec in H.
  destruct H as (before & target & -> & Hc & Hopen & Hstart & Ht & Hb).
  split_and!; auto.
  - by destruct before.
  - eauto.
  - intros Hone. rewrite last_snoc. rewrite Hone in Ht.
    by apply elem_of_singleton in Ht as ->.
Qed.

Lemma frontier_search_reaches_first_unvisited_witness :
  [(0, 1); (0, 2); (1, 2); (2, 2)] ≠ [] ∧
  connected (robot_pos one_left_5x5) [(0, 1); (0, 2); (1, 2); (2, 2)] ∧
  (robot_pos one_left_5x5 ∉ [(0, 1); (0, 2); (1, 2); (2, 2)]) ∧
  Forall (open_cell one_left_5x5) [(0, 1); (0, 2); (1, 2); (2, 2)] ∧
  (∃ before target,
     [(0, 1); (0, 2); (1, 2); (2, 2)] = before ++ [target] ∧
     target ∈ unvisited_cells one_left_5x5 ∧
     Forall (λ p, p ∉ unvisited_cells one_left_5x5) before) ∧
  (unvisited_cells one_left_5x5 = {[(2, 2)]} →
   last [(0, 1); (0, 2); (1, 2); (2, 2)] = Some (2, 2)).
Proof.
  apply (proj1 frontier_search_reaches_first_unvisited one_left_5x5).
  vm_compute. reflexivity.
Defined.

(** C4: in the robot's turn of h13.py's loop, when the search returned a
    path and one of its cells holds [DYNAMIC_OBSTACLE], the turn ends
    without an exception and without leaving the loop, the whole
    navigation state (robot position, matrix, both coverage sets) is what
    it was, nothing is added to the travelled path, the wait is recorded,
    and the next turn plans again from that same state. *)
Theorem blocked_path_makes_robot_wait now st path p :
  (∃ v, grid_get (grid (H13.robot_nav st)) (robot_pos (H13.robot_nav st)) = Returned v) →
  H1.find_most_efficient_path (H13.robot_nav st) = Returned (Some path) →
  p ∈ path →
  grid_get (grid (H13.robot_nav st)) p = Returned DYNAMIC_OBSTACLE →
  ∃ st',
    H13.robot_turn now st = Returned (false, st') ∧
    H13.robot_nav st' = H13.robot_nav st ∧
    H13.path_traveled st' = H13.path_traveled st ∧
    H13.waiting_start_time st'
    = (if H13.is_waiting (H13.waiting_start_time st) then H13.waiting_start_time st
       else Some now) ∧
    ∀ later, ∃ st'',
      H13.robot_turn later st' = Returned (false, st'') ∧
      H13.robot_nav st'' = H13.robot_nav st.
Proof.
  intros Hrobot Hfind Hin Hp.
  assert (∀ t st0, H13.robot_nav st0 = H13.robot_nav st →
            H13.robot_turn t st0
            = Returned (false,
                {| H13.robot_nav := H13.robot_nav st;
                   H13.path_traveled := H13.path_traveled st0;
                   H13.last_robot_move := t;
                   H13.waiting_start_time :=
                     if H13.is_waiting (H13.waiting_start_time st0)
                     then H13.waiting_start_time st0 else Some t |})) as Hturn.
  { intros t st0 Hnav. unfold H13.robot_turn. rewrite Hnav, Hfind. cbn.
    pose proof (H1_find_spec _ _ Hfind) as (Hne & Hunv & rest & Hopen & Hpath).
    destruct path as [|c path]; [done|].
    rewrite (blocked_true _ _ p); [| |done..].
    - cbn. unfold H1.is_exploration_complete.
      by rewrite bool_decide_eq_false_2.
    - assert (Forall (λ q, ∃ v, grid_get (grid (H13.robot_nav st)) q = Returned v) rest)
        as Hrest.
      { eapply Forall_impl; [exact Hopen|]. intros q (_ & v & Hv & _). eauto. }
      destruct Hpath as [->| ->]; [done|]. by constructor. }
  eexists. split; [by apply Hturn|]. simpl. split_and!; auto.
  intros later. eexists. split; [by apply Hturn|]. done.
Qed.

Lemma blocked_path_makes_robot_wait_witness :
  ∃ st',
    H13.robot_turn 1000 waiting_simulation = Returned (false, st') ∧
    H13.robot_nav st' = H13.robot_nav waiting_simulation ∧
    H13.path_traveled st' = H13.path_traveled waiting_simulation ∧
    H13.waiting_start_time st'
    = (if H13.is_waiting (H13.waiting_start_time waiting_simulation)
       then H13.waiting_start_time waiting_simulation else Some 1000) ∧
    ∀ later, ∃ st'',
      H13.robot_turn later st' = Returned (false, st'') ∧
      H13.robot_nav st'' = H13.robot_nav waiting_simulation.
Proof.
  apply (blocked_path_makes_robot_wait 1000 waiting_simulation
           [(0, 0); (0, 1); (0, 2); (1, 2); (2, 2)] (0, 0)).
  - exists DYNAMIC_OBSTACLE. vm_compute. reflexivity.
  - vm_compute. reflexivity.
  - apply list_elem_of_here.
  - vm_compute. reflexivity.
Defined.

(** C5: in every reachable state [is_exploration_complete] answers true
    exactly when [unvisited_cells] is empty, both for the test of demo.py
    (and h14.py), which also scans the matrix for [UNVISITED], and for
    the test of h1.py. *)
Theorem exploration_complete_iff_none_unvisited count w h obstacles s :
  reachable count w h obstacles s →
  (Demo.is_exploration_complete s = true ↔ unvisited_cells s = ∅) ∧
  (H14.is_exploration_complete s = true ↔ unvisited_cells s = ∅) ∧
  (H1.is_exploration_complete s = true ↔ unvisited_cells s = ∅).
Proof.
  intros Hs. apply reachable_tidy in Hs.
  assert (Demo.is_exploration_complete s = true ↔ unvisited_cells s = ∅) as Hdemo.
  { unfold Demo.is_exploration_complete. rewrite andb_true_iff, bool_decide_eq_true.
    split.
    - intros [Hsize _]. by apply size_empty_iff, leibniz_equiv in Hsize.
    - intros Hempty. split; [by rewrite Hempty|by apply no_unvisited_mark]. }
  split_and!; [done|exact Hdemo|].
  unfold H1.is_exploration_complete. apply bool_decide_eq_true.
Qed.

Lemma exploration_complete_iff_none_unvisited_witness :
  (Demo.is_exploration_complete session_3x3 = true ↔ unvisited_cells session_3x3 = ∅) ∧
  (H14.is_exploration_complete session_3x3 = true ↔ unvisited_cells session_3x3 = ∅) ∧
  (H1.is_exploration_complete session_3x3 = true ↔ unvisited_cells session_3x3 = ∅).
Proof.
  apply (exploration_complete_iff_none_unvisited 3 3 3 [(1, 1)]).
  exact session_3x3_reachable.
Defined.

(** C6, as the code has it: construction ends in an exception, and no
    session is returned, whenever the width or the height is not
    positive or a static obstacle has a coordinate at or beyond the size
    of the grid.  The exception is the IndexError of a list access or
    the ValueError of [random.randint], never another one. *)
Theorem init_fails_outside_grid count w h obstacles draws :
  w ≤ 0 ∨ h ≤ 0 ∨ (∃ p, p ∈ obstacles ∧ (w ≤ p.1 ∨ h ≤ p.2)) →
  (∀ s rest, init_with count w h obstacles draws ≠ Returned (s, rest)) ∧
  (∀ e, init_with count w h obstacles draws = Raised e →
        e = IndexError ∨ e = ValueError) ∧
  (draws ≠ [] →
   init_with count w h obstacles draws = Raised IndexError ∨
   init_with count w h obstacles draws = Raised ValueError).
Proof.
  intros Hbad.
  pose proof (shaped_replicate w h) as Hs0.
  assert (∀ g1 unvisited,
            place_obstacles obstacles
              (replicate (Z.to_nat h) (replicate (Z.to_nat w) UNVISITED))
              (initial_unvisited w h) = Returned (g1, unvisited) →
            shaped w h g1 ∧ (w ≤ 0 ∨ h ≤ 0)) as Hplaced.
  { intros g1 unv Hobs.
    apply (place_obstacles_in_range w h) in Hobs as [Hs1 Hall]; [|done].
    split; [done|]. destruct Hbad as [?|[?|(p & Hp & Hout)]]; [auto..|].
    rewrite Forall_forall in Hall. apply Hall in Hp. lia. }
  assert (draws ≠ [] → ∃ e, init_with count w h obstacles draws = Raised e) as Hraise.
  { intros Hdraws. unfold init_with.
    pose proof (place_obstacles_finished obstacles
                  (replicate (Z.to_nat h) (replicate (Z.to_nat w) UNVISITED))
                  (initial_unvisited w h)) as Hfin.
    rewrite rand_bind_unfold. unfold lift at 1.
    destruct (place_obstacles _ _ _) as [[g1 unv]|e|]; [|by eauto|done].
    destruct (Hplaced _ _ eq_refl) as [Hs1 Hdim].
    rewrite rand_bind_unfold.
    destruct count as [|count].
    - cbn [place_dynamic_obstacles]. rewrite rand_ret_unfold, rand_bind_unfold.
      unfold lift at 1.
      pose proof (grid_set_finished g1 (0, 0) ROBOT).
      destruct (grid_set g1 (0, 0) ROBOT) as [g3|e|] eqn:Hset; [|by eauto|done].
      apply (grid_set_origin w h) in Hset; [lia|done].
    - destruct draws as [|r draws]; [done|].
      cbn [place_dynamic_obstacles length place_dynamic_obstacle].
      rewrite !rand_bind_unfold. unfold randint at 1.
      case_bool_decide; [by eauto|].
      rewrite rand_bind_unfold. unfold randint at 1.
      rewrite bool_decide_eq_true_2 by lia. eauto. }
  split_and!.
  - intros s rest H.
    pose proof (init_with_spec _ _ _ _ _ _ _ H) as (Hw & Hh & (? & ? & _) & _).
    unfold init_with in H.
    apply rand_bind_Returned in H as ([g1 unv] & d1 & Hobs & _).
    apply lift_Returned in Hobs as [Hobs _].
    apply Hplaced in Hobs as [_ ?]. lia.
  - intros e. apply init_with_Raised.
  - intros Hdraws. destruct (Hraise Hdraws) as [e He].
    destruct (init_with_Raised _ _ _ _ _ _ He) as [->| ->]; auto.
Qed.

Lemma init_fails_outside_grid_witness :
  (∀ s rest, init_with 3 3 3 [(3, 0)] [1; 0] ≠ Returned (s, rest)) ∧
  (∀ e, init_with 3 3 3 [(3, 0)] [1; 0] = Raised e →
        e = IndexError ∨ e = ValueError) ∧
  ([1; 0] ≠ [] →
   init_with 3 3 3 [(3, 0)] [1; 0] = Raised IndexError ∨
   init_with 3 3 3 [(3, 0)] [1; 0] = Raised ValueError).
Proof.
  apply (init_fails_outside_grid 3 3 3 [(3, 0)] [1; 0]).
  right. right. exists (3, 0). split; [apply list_elem_of_here|]. simpl. lia.
Defined.

(** C6 as stated fails: the code has no configuration error and checks
    none of its arguments.  The obstacle coordinate [(3, 0)] outside the
    3 by 3 grid ends construction in the IndexError of the list write,
    the width 0 in the ValueError of [random.randint]. *)
Lemma init_error_is_index_or_value_error :
  Demo.init 3 3 [(3, 0)] [1] = Raised IndexError ∧
  Demo.init 0 3 [] [1] = Raised ValueError.
Proof. split; vm_compute; reflexivity. Qed.

(** What the statement above leaves open: a negative coordinate within
    the size is a valid index from the end, so the unchecked constructor
    takes the coordinate [(-1, -1)], which is outside the 3 by 3 grid
    (and which h14.py's [get_input] turns down), and returns a session. *)
Lemma init_accepts_negative_coordinate :
  ¬ on_grid 3 3 (-1, -1) ∧
  Demo.init 3 3 [(-1, -1)] [1; 0; 2; 0; 0; 1] = Returned (wrapped_3x3, []).
Proof. split; [unfold on_grid; simpl; lia|]. vm_compute. reflexivity. Qed.

(** C7, as the code has it: in every reachable state, so after
    construction, after every call of [move_dynamic_obstacles] and after
    every planned move, each coordinate of the static obstacle list that
    is a cell of the grid other than the start cell [(0, 0)] still reads
    [OBSTACLE], and every dynamic obstacle is on a cell of the grid that
    does not read [OBSTACLE] and is no coordinate of the static list
    other than [(0, 0)]. *)
Theorem dynamic_obstacle_off_static_cells count w h obstacles s :
  reachable count w h obstacles s →
  (∀ o, o ∈ obstacles → on_grid w h o → o ≠ (0, 0) →
        grid_get (grid s) o = Returned OBSTACLE) ∧
  (∀ p, p ∈ dynamic_obstacles s →
        on_grid w h p ∧
        (∃ v, grid_get (grid s) p = Returned v ∧ v ≠ OBSTACLE) ∧
        (p ∈ obstacles → p = (0, 0))).
Proof.
  intros Hreach.
  destruct (reachable_marks _ _ _ _ _ Hreach) as [Hm _].
  destruct (reachable_sizes _ _ _ _ _ Hreach) as [Hw Hh].
  pose proof (reachable_tidy _ _ _ _ _ Hreach) as (_ & _ & _ & Hapart & _).
  rewrite Hw, Hh in Hapart.
  unfold marked, off_start in Hm. rewrite Forall_forall in Hm.
  unfold apart in Hapart. rewrite Forall_forall in Hapart.
  assert (∀ o, o ∈ obstacles → on_grid w h o → o ≠ (0, 0) →
               grid_get (grid s) o = Returned OBSTACLE) as Hkept.
  { intros o Ho Hon Hne. apply Hm. by apply list_elem_of_filter. }
  split; [exact Hkept|].
  intros p Hp. destruct (Hapart p Hp) as (Hon & v & Hv & Hvo).
  split_and!; [done|by exists v|].
  intros Ho. destruct (decide (p = (0, 0))) as [|Hne]; [done|].
  rewrite (Hkept p Ho Hon Hne) in Hv. by injection Hv as <-.
Qed.

Lemma dynamic_obstacle_off_static_cells_witness :
  (∀ o, o ∈ [(1, 1)] → on_grid 3 3 o → o ≠ (0, 0) →
        grid_get (grid session_3x3) o = Returned OBSTACLE) ∧
  (∀ p, p ∈ dynamic_obstacles session_3x3 →
        on_grid 3 3 p ∧
        (∃ v, grid_get (grid session_3x3) p = Returned v ∧ v ≠ OBSTACLE) ∧
        (p ∈ [(1, 1)] → p = (0, 0))).
Proof.
  apply (dynamic_obstacle_off_static_cells 3 3 3 [(1, 1)] session_3x3).
  apply session_3x3_reachable.
Defined.

(** C7 as stated fails: the code takes a static obstacle on the start
    cell, which it then hands to the robot.  With the obstacle list
    [[(0, 0)]], after the robot's first move a dynamic obstacle steps
    onto [(0, 0)], a coordinate of the static obstacle list. *)
Lemma dynamic_obstacle_on_listed_start_cell :
  reachable 3 3 3 [(0, 0)] obstacle_on_start_3x3 ∧
  (0, 0) ∈ dynamic_obstacles obstacle_on_start_3x3 ∧
  (0, 0) ∈ [(0, 0)].
Proof.
  split_and!; [|apply list_elem_of_here..].
  eapply (reach_obstacles _ _ _ _ _ [18; 0; 0]).
  - eapply (reach_robot _ _ _ _ _ [(0, 1)] true).
    + eapply (reach_init _ _ _ _ [1; 0; 2; 2; 2; 1]). vm_compute. reflexivity.
    + vm_compute. reflexivity.
    + vm_compute. reflexivity.
  - vm_compute. reflexivity.
Qed.

(** C8, as the code has it: the 4 by 4 grid without obstacles is what
    [__init__] builds when it places no dynamic obstacle; the start cell
    counts as visited from the beginning, so after exactly 15 successful
    moves [is_exploration_complete] is true, after fewer it is false, and
    there is no sixteenth successful move. *)
Theorem open_4x4_complete_after_15_moves :
  init_with 0 4 4 [] [] = Returned (open_4x4, []) ∧
  (∃ s, successful_moves 15 open_4x4 = Some s ∧
        Demo.is_exploration_complete s = true) ∧
  forallb (λ n, match successful_moves n open_4x4 with
                | Some s => negb (Demo.is_exploration_complete s)
                | None => false
                end) (seq 0 15) = true ∧
  successful_moves 16 open_4x4 = None.
Proof.
  split; [by vm_compute|].
  split; [eexists; split; vm_compute; reflexivity|].
  split; vm_compute; reflexivity.
Qed.

(** C8 as stated fails: after the fifteenth successful move the search
    returns [None], [move_robot] returns [False] on it, and so no state
    follows sixteen successful moves. *)
Lemma open_4x4_has_no_sixteenth_move :
  ∃ s, successful_moves 15 open_4x4 = Some s ∧
       Demo.find_most_efficient_path s = Returned None ∧
       Demo.move_robot s None = Returned (false, s) ∧
       successful_moves 16 open_4x4 = None.
Proof.
  eexists. split; [vm_compute; reflexivity|].
  split; [vm_compute; reflexivity|]. split; [reflexivity|].
  vm_compute. reflexivity.
Qed.

(** C9 fails on the code: on the 2 by 2 grid filled by the three dynamic
    obstacles, the obstacles at [(1, 0)] and [(0, 1)] have nowhere to go.
    After [move_dynamic_obstacles] the obstacle at [(0, 1)] is still in
    the list at [(0, 1)] and that cell reads [UNVISITED]; and whatever the
    three shuffles are, some obstacle of the list ends on a cell that is
    not marked [DYNAMIC_OBSTACLE]. *)
Lemma stuck_obstacle_loses_its_mark :
  Demo.init 2 2 [] [1; 0; 0; 1; 1; 1] = Returned (crowded_2x2, []) ∧
  (∃ s, move_dynamic_obstacles crowded_2x2 [0; 0; 0] = Returned (s, []) ∧
        dynamic_obstacles s = [(1, 0); (0, 1); (1, 0)] ∧
        grid s = [[3; 5]; [0; 0]] ∧
        grid_get (grid s) (0, 1) = Returned UNVISITED) ∧
  forallb (λ draws,
             match move_dynamic_obstacles crowded_2x2 draws with
             | Returned (s, _) =>
                 existsb (λ p, match grid_get (grid s) p with
                               | Returned v => negb (v =? DYNAMIC_OBSTACLE)
                               | _ => true
                               end) (dynamic_obstacles s)
             | _ => false
             end)
          (a ← seqZ 0 24; b ← seqZ 0 24; c ← seqZ 0 24; [[a; b; c]]) = true.
Proof.
  split; [by vm_compute|]. split; [|by vm_compute].
  eexists. split; [vm_compute; reflexivity|].
  split; [reflexivity|]. split; reflexivity.
Qed.

(** C10: when the number of unvisited cells is not one, so in particular
    when more than one remains, [find_most_efficient_path] of h1.py and
    of h14.py return what the one of demo.py returns on the same state:
    the same path, or [None], or the same failure. *)
Theorem frontier_searches_agree s :
  size (unvisited_cells s) ≠ 1%nat →
  H1.find_most_efficient_path s = Demo.find_most_efficient_path s ∧
  H14.find_most_efficient_path s = Demo.find_most_efficient_path s.
Proof.
  intros Hsize. split.
  - unfold H1.find_most_efficient_path, Demo.find_most_efficient_path.
    rewrite bool_decide_eq_false_2 by done. apply H1_search_eq.
  - apply H14_search_eq.
Qed.

Lemma frontier_searches_agree_witness :
  H1.find_most_efficient_path session_3x3 = Demo.find_most_efficient_path session_3x3 ∧
  H14.find_most_efficient_path session_3x3 = Demo.find_most_efficient_path session_3x3.
Proof.
  apply (frontier_searches_agree session_3x3). vm_compute. discriminate.
Defined.

(** * Further properties of the code *)

(** X1: what [RobotNavigation.__init__] builds.  When the constructor
    returns, the robot is on [(0, 0)], which is the one visited cell and
    reads [ROBOT]; [unvisited_cells] is every other cell of the grid
    minus the cells of the obstacle list; and there are as many dynamic
    obstacles as the placement loop counts, no two on one cell, each on
    a cell that reads [DYNAMIC_OBSTACLE] unless it is under the robot. *)
Theorem init_postcondition count w h obstacles draws s rest :
  init_with count w h obstacles draws = Returned (s, rest) →
  width s = w ∧ height s = h ∧ shaped w h (grid s) ∧
  robot_pos s = (0, 0) ∧ visited_cells s = {[(0, 0)]} ∧
  unvisited_cells s = initial_unvisited w h ∖ list_to_set obstacles ∧
  grid_get (grid s) (0, 0) = Returned ROBOT ∧
  length (dynamic_obstacles s) = count ∧ NoDup (dynamic_obstacles s) ∧
  Forall (λ p, on_grid w h p ∧
               (p = (0, 0) ∨ grid_get (grid s) p = Returned DYNAMIC_OBSTACLE))
         (dynamic_obstacles s).
Proof.
  intros H.
  destruct (init_with_spec _ _ _ _ _ _ _ H) as (Hw & Hh & (_ & _ & Hs & Hapart & _) & _).
  destruct (init_with_fields _ _ _ _ _ _ _ H) as (Hr & Hv & Hu & Hlen & Hnd & H0 & Hdyn).
  rewrite Hw, Hh in Hs, Hapart. split_and!; try done.
  unfold apart in Hapart. rewrite Forall_forall in Hapart, Hdyn.
  apply Forall_forall. intros p Hp. split; [by apply Hapart|by apply Hdyn].
Qed.

Lemma init_postcondition_witness :
  width crowded_2x2 = 2 ∧ height crowded_2x2 = 2 ∧ shaped 2 2 (grid crowded_2x2) ∧
  robot_pos crowded_2x2 = (0, 0) ∧ visited_cells crowded_2x2 = {[(0, 0)]} ∧
  unvisited_cells crowded_2x2 = initial_unvisited 2 2 ∖ list_to_set [] ∧
  grid_get (grid crowded_2x2) (0, 0) = Returned ROBOT ∧
  length (dynamic_obstacles crowded_2x2) = 3%nat ∧
  NoDup (dynamic_obstacles crowded_2x2) ∧
  Forall (λ p, on_grid 2 2 p ∧
               (p = (0, 0) ∨ grid_get (grid crowded_2x2) p = Returned DYNAMIC_OBSTACLE))
         (dynamic_obstacles crowded_2x2).
Proof.
  apply (init_postcondition 3 2 2 [] [1; 0; 0; 1; 1; 1] crowded_2x2 []).
  vm_compute. reflexivity.
Defined.

(** X2: [__init__] raises nothing when the sizes are positive and every
    obstacle coordinate is a valid Python index of its axis (from
    [-width] to [width - 1] and from [-height] to [height - 1]); it can
    then only return or, when no draw finds a free cell, go on drawing. *)
Theorem init_raises_nothing_in_index_range count w h obstacles draws e :
  0 < w → 0 < h →
  Forall (λ p, - w ≤ p.1 < w ∧ - h ≤ p.2 < h) obstacles →
  init_with count w h obstacles draws ≠ Raised e.
Proof.
  intros Hw Hh Hall. unfold init_with.
  assert (shaped w h (replicate (Z.to_nat h) (replicate (Z.to_nat w) UNVISITED))) as Hs0
    by apply shaped_replicate.
  destruct (place_obstacles_returns w h obstacles _ (initial_unvisited w h) Hs0 Hall)
    as (g1 & unv & Hplace & Hs1).
  rewrite rand_bind_unfold, Hplace. unfold lift at 1. rewrite rand_bind_unfold.
  destruct (place_dynamic_obstacles count w h g1 [] draws) as [[[g2 dyn] d2]| |] eqn:Hdyn.
  - eapply (place_dynamic_obstacles_spec _ _ _ (grid_cells w h)) in Hdyn
      as [(Hs2 & _) _].
    2:{ split_and!; [done|by apply Forall_nil|].
        intros q Hq _. by apply elem_of_grid_cells. }
    destruct (grid_set_total w h g2 (0, 0) ROBOT Hs2 ltac:(split; simpl; lia))
      as [g3 ->].
    rewrite rand_bind_unfold. by unfold lift.
  - by apply place_dynamic_obstacles_no_raise in Hdyn.
  - done.
Qed.

Lemma init_raises_nothing_in_index_range_witness :
  init_with 3 3 3 [(-1, -1); (1, 1)] [1; 0; 2; 0] ≠ Raised IndexError.
Proof.
  apply (init_raises_nothing_in_index_range 3 3 3 [(-1, -1); (1, 1)] [1; 0; 2; 0]);
    [lia|lia|].
  repeat constructor; simpl; lia.
Defined.

(** X3: [__init__] returns only when the grid has room for the dynamic
    obstacles: the cells of the grid that are not in the obstacle list
    are at least as many as the placement loop counts.  On a smaller
    grid the [while True] loop never finds a free cell. *)
Theorem init_needs_room_for_dynamic_obstacles count w h obstacles draws s rest :
  init_with count w h obstacles draws = Returned (s, rest) →
  (count ≤ size (grid_cells w h ∖ list_to_set obstacles))%nat.
Proof.
  intros H. unfold init_with in H.
  apply rand_bind_Returned in H as ([g1 unv] & d1 & H1 & H).
  apply lift_Returned in H1 as [H1 ->].
  apply rand_bind_Returned in H as ([g2 dyn] & d2 & H2 & _).
  pose proof (place_obstacles_marked _ _ _ _ _ [] H1 ltac:(by apply Forall_nil)) as Hm1.
  simpl in Hm1.
  pose proof (place_obstacles_in_range w h _ _ _ _ (shaped_replicate w h) H1)
    as [Hs1 _]. simpl in Hs1.
  pose proof (place_dynamic_obstacles_marked _ _ _ _ _ _ _ _ _ _ H2 Hm1) as Hm2.
  pose proof (place_dynamic_obstacles_distinct _ _ _ _ _ _ _ _ _ H2
                (NoDup_nil_2) ltac:(by apply Forall_nil)) as (Hlen & Hnd & Hread).
  eapply (place_dynamic_obstacles_spec _ _ _ (grid_cells w h)) in H2
    as [(_ & Hapart & _) _].
  2:{ split_and!; [done|by apply Forall_nil|].
      intros q Hq _. by apply elem_of_grid_cells. }
  simpl in Hlen. rewrite <- Hlen, <- (size_list_to_set (C:=gset cell)) by done.
  apply subseteq_size. intros p Hp. apply elem_of_list_to_set in Hp.
  apply elem_of_difference. split.
  - apply elem_of_grid_cells. unfold apart in Hapart.
    rewrite Forall_forall in Hapart. by apply Hapart.
  - intros Ho. apply elem_of_list_to_set in Ho.
    unfold marked in Hm2. rewrite Forall_forall in Hm2, Hread.
    specialize (Hm2 _ Ho). specialize (Hread _ Hp). by rewrite Hm2 in Hread.
Qed.

Lemma init_needs_room_for_dynamic_obstacles_witness :
  (3 ≤ size (grid_cells 2 2 ∖ list_to_set []))%nat.
Proof.
  apply (init_needs_room_for_dynamic_obstacles 3 2 2 [] [1; 0; 0; 1; 1; 1] crowded_2x2 []).
  vm_compute. reflexivity.
Defined.

(** X4: [move_dynamic_obstacles] changes the grid and the obstacle list
    only: sizes, robot position and both coverage sets stay, the list
    keeps its length, and every obstacle stays where it was or ends on
    one of the four neighbours of its cell. *)
Theorem obstacles_step_to_a_neighbour s draws s' rest :
  move_dynamic_obstacles s draws = Returned (s', rest) →
  width s' = width s ∧ height s' = height s ∧ robot_pos s' = robot_pos s ∧
  visited_cells s' = visited_cells s ∧ unvisited_cells s' = unvisited_cells s ∧
  length (dynamic_obstacles s') = length (dynamic_obstacles s) ∧
  ∀ k p p', dynamic_obstacles s !! k = Some p → dynamic_obstacles s' !! k = Some p' →
            p' = p ∨ adjacent p p'.
Proof.
  unfold move_dynamic_obstacles. intros H.
  apply move_dynamic_obstacles_from_frame in H as (? & ? & ? & ? & ? & ? & Hk).
  split_and!; try done. intros k p p' Hp Hp'.
  destruct (Hk k p p' Hp Hp') as [?|[_ ?]]; auto.
Qed.

Lemma obstacles_step_to_a_neighbour_witness :
  ∃ s', move_dynamic_obstacles crowded_2x2 [0; 0; 0] = Returned (s', []) ∧
        ∀ k p p', dynamic_obstacles crowded_2x2 !! k = Some p →
                  dynamic_obstacles s' !! k = Some p' → p' = p ∨ adjacent p p'.
Proof.
  eexists. split; [vm_compute; reflexivity|].
  apply (obstacles_step_to_a_neighbour crowded_2x2 [0; 0; 0] _ []).
  vm_compute. reflexivity.
Defined.

(** X5: in a session of demo.py the move along the path the search has
    just returned goes through: [move_robot] raises nothing, does not
    wait and returns [True]; the robot then stands on the last cell of
    the path, which was unvisited, and exactly that cell goes from
    [unvisited_cells] to [visited_cells]. *)
Theorem planned_move_goes_to_path_end count w h obstacles s path :
  reachable count w h obstacles s →
  Demo.find_most_efficient_path s = Returned (Some path) →
  ∃ t s', last path = Some t ∧ t ∈ unvisited_cells s ∧
          Demo.move_robot s (Some path) = Returned (true, s') ∧
          robot_pos s' = t ∧
          visited_cells s' = {[t]} ∪ visited_cells s ∧
          unvisited_cells s' = unvisited_cells s ∖ {[t]} ∧
          dynamic_obstacles s' = dynamic_obstacles s.
Proof.
  intros Hreach Hfind.
  pose proof (reachable_tidy _ _ _ _ _ Hreach) as (_ & _ & Hs & _).
  pose proof (reachable_robot_on_grid _ _ _ _ _ Hreach) as Hr.
  destruct (planned_move_goes_through s path Hs Hr Hfind) as (t & s' & Hlast & Ht & Hmove & _).
  exists t, s'. split_and!; try done;
    apply move_robot_position in Hmove as (_ & _ & Hd & t' & Hl & ? & ? & ?);
    simpl in Hl; rewrite Hlast in Hl; injection Hl as <-; done.
Qed.

Lemma planned_move_goes_to_path_end_witness :
  ∃ t s', last [(2, 0)] = Some t ∧ t ∈ unvisited_cells session_3x3 ∧
          Demo.move_robot session_3x3 (Some [(2, 0)]) = Returned (true, s') ∧
          robot_pos s' = t ∧
          visited_cells s' = {[t]} ∪ visited_cells session_3x3 ∧
          unvisited_cells s' = unvisited_cells session_3x3 ∖ {[t]} ∧
          dynamic_obstacles s' = dynamic_obstacles session_3x3.
Proof.
  apply (planned_move_goes_to_path_end 3 3 3 [(1, 1)] session_3x3 [(2, 0)]
           session_3x3_reachable).
  vm_compute. reflexivity.
Defined.

(** X6: every round of demo.py's loop in which the planned move is made
    takes exactly one cell out of [unvisited_cells]: after [n] such
    rounds the set is [n] cells smaller. *)
Theorem each_move_visits_one_cell n : ∀ s s',
  successful_moves n s = Some s' →
  size (unvisited_cells s) = (n + size (unvisited_cells s'))%nat.
Proof.
  induction n as [|n IH]; intros s s' H; simpl in H.
  - by injection H as ->.
  - destruct (Demo.find_most_efficient_path s) as [path| |] eqn:Hfind; [|done..].
    destruct (Demo.move_robot s path) as [[[|] s1]| |] eqn:Hmove; [|done..].
    apply IH in H.
    enough (size (unvisited_cells s) = S (size (unvisited_cells s1))) by lia.
    apply move_robot_position in Hmove as (_ & _ & _ & t & Hlast & _ & _ & Hu).
    destruct path as [path|]; [|done]. simpl in Hlast.
    apply find_most_efficient_path_spec, frontier_path_last in Hfind
      as (t' & Hlast' & Ht & _).
    rewrite Hlast in Hlast'. injection Hlast' as <-.
    rewrite Hu.
    rewrite (union_difference_singleton_L t (unvisited_cells s) Ht) at 1.
    rewrite size_union by set_solver. by rewrite size_singleton.
Qed.

Lemma each_move_visits_one_cell_witness :
  ∃ s', successful_moves 15 open_4x4 = Some s' ∧
        size (unvisited_cells open_4x4) = (15 + size (unvisited_cells s'))%nat.
Proof.
  eexists. split; [vm_compute; reflexivity|].
  apply (each_move_visits_one_cell 15 open_4x4). vm_compute. reflexivity.
Defined.

(** X7: on a grid of the declared shape the frontier search of demo.py
    decides whether an unvisited cell can be reached.  It raises
    nothing and ends within its budget; it returns a path, which then
    leads from the robot over open cells to an unvisited cell, or it
    returns [None], and then no walk from the robot over open cells
    meets an unvisited cell other than the robot's own. *)
Theorem frontier_search_is_complete s :
  shaped (width s) (height s) (grid s) →
  (∃ path, Demo.find_most_efficient_path s = Returned (Some path) ∧
           frontier_path s (robot_pos s) path) ∨
  (Demo.find_most_efficient_path s = Returned None ∧
   ∀ walk, connected (robot_pos s) walk → Forall (open_cell s) walk →
           Forall (λ p, p = robot_pos s ∨ p ∉ unvisited_cells s) walk).
Proof.
  intros Hs.
  destruct (Demo.find_most_efficient_path s) as [[path|]|e|] eqn:Hfind.
  - left. exists path. split; [done|]. by apply find_most_efficient_path_spec.
  - right. split; [done|]. intros walk. by apply find_none_closure.
  - exfalso. revert Hfind. by apply search_no_raise.
  - exfalso. by apply find_most_efficient_path_finished in Hfind.
Qed.

Lemma frontier_search_is_complete_witness :
  (∃ path, Demo.find_most_efficient_path one_left_5x5 = Returned (Some path) ∧
           frontier_path one_left_5x5 (robot_pos one_left_5x5) path) ∨
  (Demo.find_most_efficient_path one_left_5x5 = Returned None ∧
   ∀ walk, connected (robot_pos one_left_5x5) walk →
           Forall (open_cell one_left_5x5) walk →
           Forall (λ p, p = robot_pos one_left_5x5 ∨ p ∉ unvisited_cells one_left_5x5)
                  walk).
Proof.
  apply (frontier_search_is_complete one_left_5x5).
  split; [reflexivity|]. repeat constructor.
Defined.

(** X8: on a grid of the declared shape [astar_pathfinding] decides
    whether the target can be reached.  It raises nothing and ends
    within its budget; it returns a path from [start] to [target] whose
    cells after the first are open and each a neighbour of the one
    before, or it returns [None], and then no walk from [start] over
    open cells meets [target]. *)
Theorem astar_is_complete s start target :
  shaped (width s) (height s) (grid s) →
  (∃ path, H1.astar_pathfinding s start target = Returned (Some path) ∧
           astar_path s start target path) ∨
  (H1.astar_pathfinding s start target = Returned None ∧
   ∀ rest, connected start rest → Forall (open_cell s) rest →
           Forall (λ p, p ≠ target) (start :: rest)).
Proof.
  intros Hs.
  destruct (H1.astar_pathfinding s start target) as [[path|]|e|] eqn:Hfind.
  - left. exists path. split; [done|]. by apply astar_pathfinding_spec.
  - right. split; [done|]. intros rest. by apply astar_none_closure.
  - exfalso. revert Hfind. apply astar_loop_no_raise; [done|].
    apply Forall_singleton. simpl. set_solver.
  - exfalso. by apply astar_pathfinding_finished in Hfind.
Qed.

Lemma astar_is_complete_witness :
  (∃ path, H1.astar_pathfinding open_5x5 (0, 0) (4, 4) = Returned (Some path) ∧
           astar_path open_5x5 (0, 0) (4, 4) path) ∨
  (H1.astar_pathfinding open_5x5 (0, 0) (4, 4) = Returned None ∧
   ∀ rest, connected (0, 0) rest → Forall (open_cell open_5x5) rest →
           Forall (λ p, p ≠ (4, 4)) ((0, 0) :: rest)).
Proof.
  apply (astar_is_complete open_5x5 (0, 0) (4, 4)).
  split; [reflexivity|]. repeat constructor.
Defined.

(** X9: the loop of demo.py's [run_simulation].  When it leaves by its
    [break], the cells added to [path_traveled] form one walk from
    [(0, 0)], each cell a neighbour of the one before, that ends where
    the robot stands; no cell is left unvisited; and every cell of the
    grid that is not in the obstacle list is [(0, 0)] or was travelled. *)
Theorem simulation_ends_with_grid_covered n w h obstacles draws s traveled rest :
  demo_run_simulation n w h obstacles draws = Returned (s, traveled, rest) →
  connected (0, 0) traveled ∧
  last ((0, 0) :: traveled) = Some (robot_pos s) ∧
  unvisited_cells s = ∅ ∧
  ∀ p, on_grid w h p → p ∉ obstacles → p = (0, 0) ∨ p ∈ traveled.
Proof.
  unfold demo_run_simulation. intros H.
  apply rand_bind_Returned in H as (s0 & d0 & Hinit & Hloop).
  apply init_with_fields in Hinit as (Hr & Hv & Hu & _).
  apply (demo_loop_on_track w h obstacles) in Hloop as [(Hc & Hlast & Hsub & Hall) Hdone].
  2:{ unfold on_track. simpl. rewrite Hr, Hv, Hu. split_and!; [done|done|set_solver|].
      done. }
  simpl in *. split_and!; try done.
  intros p Hp Ho. destruct (decide (p = (0, 0))) as [|Hne]; [by left|right].
  assert (p ∈ visited_cells s ∪ unvisited_cells s) as Hin.
  { rewrite Hall. apply elem_of_union_r, elem_of_difference. split.
    - by apply elem_of_initial_unvisited.
    - by rewrite elem_of_list_to_set. }
  rewrite Hdone in Hin. set_solver.
Qed.

Lemma simulation_ends_with_grid_covered_witness :
  ∃ s, demo_run_simulation 9 3 3 [(1, 1)] ([2; 0; 1; 1; 0; 2; 2; 2] ++ replicate 27 7)
       = Returned (s, [(0, 1); (0, 2); (1, 2); (2, 2); (2, 1); (2, 0); (1, 0)], []) ∧
       connected (0, 0) [(0, 1); (0, 2); (1, 2); (2, 2); (2, 1); (2, 0); (1, 0)] ∧
       last [(0, 0); (0, 1); (0, 2); (1, 2); (2, 2); (2, 1); (2, 0); (1, 0)]
       = Some (robot_pos s) ∧
       unvisited_cells s = ∅ ∧
       ∀ p, on_grid 3 3 p → p ∉ [(1, 1)] →
            p = (0, 0) ∨ p ∈ [(0, 1); (0, 2); (1, 2); (2, 2); (2, 1); (2, 0); (1, 0)].
Proof.
  eexists. split; [vm_compute; reflexivity|].
  apply (simulation_ends_with_grid_covered 9 3 3 [(1, 1)]
           ([2; 0; 1; 1; 0; 2; 2; 2] ++ replicate 27 7) _ _ []).
  vm_compute. reflexivity.
Defined.

(** X10: the sizes [GridVisualization.__init__] computes.  The division
    fails exactly when the larger of width and height is 0; otherwise
    the cell size lies between 20 and 40 pixels, the window is width
    and height cells large, and it fits into 800 by 800 pixels exactly
    when neither side of the grid has more than 40 cells. *)
Theorem window_sizes w h :
  match grid_visualization w h with
  | None => Z.max w h = 0
  | Some v =>
      Z.max w h ≠ 0 ∧ 20 ≤ CELL_SIZE v ≤ 40 ∧
      SCREEN_WIDTH v = w * CELL_SIZE v ∧ SCREEN_HEIGHT v = h * CELL_SIZE v ∧
      (SCREEN_WIDTH v ≤ 800 ∧ SCREEN_HEIGHT v ≤ 800 ↔ Z.max w h ≤ 40)
  end.
Proof.
  destruct (grid_visualization w h) as [v|] eqn:Hv.
  - by apply grid_visualization_sizes.
  - unfold grid_visualization in Hv.
    destruct (Z.max w h =? 0) eqn:E; [by apply Z.eqb_eq|done].
Qed.

(** X11: what [draw_path] draws for a path of cells of the grid: one
    line for each pair of consecutive cells, from a point strictly
    inside the rectangle [draw_grid] fills for the first cell to one
    strictly inside the rectangle of the second, both rectangles inside
    the window; between neighbouring cells the line is one cell size
    long. *)
Theorem path_lines_stay_in_their_cells w h v path :
  grid_visualization w h = Some v →
  Forall (on_grid w h) path →
  length (draw_path v path) = (length path - 1)%nat ∧
  ∀ i line, draw_path v path !! i = Some line →
    ∃ p q, path !! i = Some p ∧ path !! S i = Some q ∧
           line = (path_point v p, path_point v q) ∧
           in_window v (cell_rect v p) ∧ inside (cell_rect v p) line.1 ∧
           in_window v (cell_rect v q) ∧ inside (cell_rect v q) line.2 ∧
           (adjacent p q →
            Z.abs (line.1.1 - line.2.1) + Z.abs (line.1.2 - line.2.2) = CELL_SIZE v).
Proof.
  intros Hv Hall. split; [apply length_draw_path|].
  intros i line Hline. apply draw_path_lines in Hline as (p & q & Hp & Hq & ->).
  exists p, q. rewrite Forall_forall in Hall.
  destruct (cell_rect_in_window w h v p Hv) as [? ?];
    [by eapply Hall, list_elem_of_lookup_2|].
  destruct (cell_rect_in_window w h v q Hv) as [? ?];
    [by eapply Hall, list_elem_of_lookup_2|].
  split_and!; try done.
  apply path_point_step. apply grid_visualization_sizes in Hv. lia.
Qed.

Lemma path_lines_stay_in_their_cells_witness :
  length (draw_path window_3x3 [(0, 1); (0, 2); (1, 2)]) = (3 - 1)%nat ∧
  ∀ i line,
    draw_path window_3x3 [(0, 1); (0, 2); (1, 2)] !! i = Some line →
    ∃ p q, [(0, 1); (0, 2); (1, 2)] !! i = Some p ∧
           [(0, 1); (0, 2); (1, 2)] !! S i = Some q ∧
           line = (path_point window_3x3 p, path_point window_3x3 q) ∧
           in_window window_3x3 (cell_rect window_3x3 p) ∧
           inside (cell_rect window_3x3 p) line.1 ∧
           in_window window_3x3 (cell_rect window_3x3 q) ∧
           inside (cell_rect window_3x3 q) line.2 ∧
           (adjacent p q →
            Z.abs (line.1.1 - line.2.1) + Z.abs (line.1.2 - line.2.2)
            = CELL_SIZE window_3x3).
Proof.
  apply (path_lines_stay_in_their_cells 3 3 window_3x3 [(0, 1); (0, 2); (1, 2)]).
  - vm_compute. reflexivity.
  - repeat constructor; simpl; lia.
Defined.

(** X12: [FSM.add_transition] raises ValueError exactly when one of the
    two states is not a defined state or the symbol is not in the
    alphabet, and changes nothing then; otherwise the stored transition
    is the one looked up afterwards for that state and symbol, every
    other lookup gives what it gave before, and states, alphabet, start
    state and accepting states stay. *)
Theorem add_transition_checks_then_stores f a x b :
  match Manvitha.add_transition f a x b with
  | Returned f' =>
      a ∈ Manvitha.states f ∧ b ∈ Manvitha.states f ∧ x ∈ Manvitha.alphabet f ∧
      Manvitha.states f' = Manvitha.states f ∧
      Manvitha.alphabet f' = Manvitha.alphabet f ∧
      Manvitha.start_state f' = Manvitha.start_state f ∧
      Manvitha.accepting_states f' = Manvitha.accepting_states f ∧
      ∀ q y, Manvitha.next_state f' (Some q) y =
             if bool_decide (q = a ∧ y = x) then Some b
             else Manvitha.next_state f (Some q) y
  | Raised e =>
      e = ValueError ∧
      (a ∉ Manvitha.states f ∨ b ∉ Manvitha.states f ∨ x ∉ Manvitha.alphabet f)
  | Unfinished => False
  end.
Proof.
  destruct (add_transition_outcome f a x b) as [[f' H]|[H Hwhy]]; rewrite H.
  - by apply add_transition_Returned.
  - done.
Qed.

(** X13: a machine that was submitted once and then given transitions
    accepts only words over its alphabet, read from a start state that
    is set and defined, through defined states, ending in a defined
    accepting state.  Without a start state every input is rejected. *)
Theorem accepted_words_are_over_the_alphabet f w :
  Manvitha.assembled f →
  Manvitha.test_input f w = true →
  ∃ q0 q, Manvitha.start_state f = Some q0 ∧ q0 ∈ Manvitha.states f ∧
          Manvitha.run f (Some q0) w = Some q ∧
          q ∈ Manvitha.states f ∧ q ∈ Manvitha.accepting_states f ∧
          Forall (λ x, x ∈ Manvitha.alphabet f) (Manvitha.symbols w).
Proof.
  intros Hasm Hacc. apply assembled_well_formed in Hasm as Hwf.
  unfold Manvitha.test_input in Hacc. rewrite test_from_run in Hacc.
  destruct (Manvitha.run f (Manvitha.start_state f) w) as [q|] eqn:Hrun; [|done].
  apply bool_decide_eq_true in Hacc.
  destruct (Manvitha.start_state f) as [q0|] eqn:Hstart.
  - pose proof (proj2 Hwf q0 Hstart) as Hq0.
    destruct (run_well_formed f q0 w q Hwf Hq0 Hrun) as [Hq Hsym].
    exists q0, q. by split_and!.
  - destruct w; simpl in Hrun; [done|]. done.
Qed.

Lemma ends_in_b_assembled : Manvitha.assembled Manvitha.ends_in_b.
Proof.
  eapply (Manvitha.assembled_transition _ (Manvitha.lit "q") (Manvitha.lit "b")
            (Manvitha.lit "q")).
  - eapply (Manvitha.assembled_transition _ (Manvitha.lit "q") (Manvitha.lit "a")
              (Manvitha.lit "p")).
    + eapply (Manvitha.assembled_transition _ (Manvitha.lit "p") (Manvitha.lit "b")
                (Manvitha.lit "q")).
      * eapply (Manvitha.assembled_transition _ (Manvitha.lit "p") (Manvitha.lit "a")
                  (Manvitha.lit "p")).
        -- apply (Manvitha.assembled_submit
                    [Manvitha.lit "p"; Manvitha.lit "q"]
                    [Manvitha.lit "a"; Manvitha.lit "b"]
                    (Manvitha.lit "p") [Manvitha.lit "q"]).
        -- vm_compute. reflexivity.
      * vm_compute. reflexivity.
    + vm_compute. reflexivity.
  - vm_compute. reflexivity.
Qed.

Lemma accepted_words_are_over_the_alphabet_witness :
  ∃ q0 q, Manvitha.start_state Manvitha.ends_in_b = Some q0 ∧
          q0 ∈ Manvitha.states Manvitha.ends_in_b ∧
          Manvitha.run Manvitha.ends_in_b (Some q0) (Manvitha.lit "abab") = Some q ∧
          q ∈ Manvitha.states Manvitha.ends_in_b ∧
          q ∈ Manvitha.accepting_states Manvitha.ends_in_b ∧
          Forall (λ x, x ∈ Manvitha.alphabet Manvitha.ends_in_b)
                 (Manvitha.symbols (Manvitha.lit "abab")).
Proof.
  apply (accepted_words_are_over_the_alphabet Manvitha.ends_in_b (Manvitha.lit "abab")
           ends_in_b_assembled).
  vm_compute. reflexivity.
Defined.

(** X14: [test_input] reads its input from left to right through the
    states: on [u] followed by [v] it answers what the loop answers on
    [v] from the state reached after [u], and it rejects as soon as the
    machine is stuck on [u], whatever follows. *)
Theorem test_input_reads_left_to_right f u v :
  Manvitha.test_input f (u ++ v) =
  match Manvitha.run f (Manvitha.start_state f) u with
  | Some q => Manvitha.test_from f (Some q) v
  | None => false
  end.
Proof.
  unfold Manvitha.test_input. rewrite test_from_run, run_app.
  destruct (Manvitha.run f (Manvitha.start_state f) u); [|done].
  by rewrite test_from_run.
Qed.

(** X15: [test_input] looks transitions up one character at a time, so
    a transition stored for a symbol that is not one character long is
    never taken: adding it leaves the answer for every input as it was.
    A symbol of one character is read whatever the character: the
    machine with a transition on e with an acute accent accepts the
    input of that one character. *)
Theorem long_symbols_are_never_read :
  (∀ f a x b f' w,
     Manvitha.add_transition f a x b = Returned f' →
     length x ≠ 1%nat →
     Manvitha.test_input f' w = Manvitha.test_input f w) ∧
  Manvitha.test_input Manvitha.long_symbol [233] = true.
Proof.
  split; [|vm_compute; reflexivity].
  intros f a x b f' w Hadd Hlen.
  apply add_transition_Returned in Hadd as (_ & _ & _ & _ & _ & Hs & Hacc & Hnext).
  assert (∀ q c, Manvitha.next_state f' (Some q) [c]
                 = Manvitha.next_state f (Some q) [c]) as Hsame.
  { intros q c. rewrite Hnext. rewrite bool_decide_eq_false_2; [done|].
    intros [_ <-]. by apply Hlen. }
  unfold Manvitha.test_input. rewrite !test_from_run, Hs, Hacc.
  rewrite (run_frame f f'); [done| |done].
  intros c. destruct (Manvitha.start_state f); [apply Hsame|done].
Qed.

Lemma long_symbols_are_never_read_witness :
  ∃ f', Manvitha.add_transition Manvitha.long_symbol (Manvitha.lit "p")
          (Manvitha.lit "ab") (Manvitha.lit "q") = Returned f' ∧
        Manvitha.test_input f' (Manvitha.lit "ab")
        = Manvitha.test_input Manvitha.long_symbol (Manvitha.lit "ab").
Proof.
  eexists. split; [vm_compute; reflexivity|].
  apply (proj1 long_symbols_are_never_read Manvitha.long_symbol (Manvitha.lit "p")
           (Manvitha.lit "ab") (Manvitha.lit "q")).
  - vm_compute. reflexivity.
  - simpl. lia.
Defined.

(** X16: in a session of demoai.py that starts with the robots on
    different cells, no two robots ever stand on the same cell: after
    any number of obstacle steps and passes over the robots the
    positions are still pairwise different, as many as at the start,
    all on visited cells, and no cell is both visited and unvisited. *)
Theorem robots_never_share_a_cell w h obstacles positions m :
  NoDup positions →
  DemoAI.reachable w h obstacles positions m →
  NoDup (DemoAI.robot_positions m) ∧
  length (DemoAI.robot_positions m) = length positions ∧
  Forall (λ p, p ∈ DemoAI.visited_cells m) (DemoAI.robot_positions m) ∧
  DemoAI.visited_cells m ## DemoAI.unvisited_cells m.
Proof.
  intros Hnd Hreach.
  destruct (fleet_reachable_separate _ _ _ _ _ Hnd Hreach) as [(? & ? & ?) ?].
  by split_and!.
Qed.

(** X17: demoai.py keeps one track for each robot, under the robot's
    index; a track holds visited cells only and, once the robot has
    moved, ends on the cell where the robot stands. *)
Theorem robot_tracks_follow_the_robots w h obstacles positions m i track :
  DemoAI.reachable w h obstacles positions m →
  DemoAI.robot_paths m !! i = Some track →
  0 ≤ i < Z.of_nat (length (DemoAI.robot_positions m)) ∧
  Forall (λ p, p ∈ DemoAI.visited_cells m) track ∧
  (track = [] ∨ last track = DemoAI.robot_positions m !! Z.to_nat i).
Proof.
  intros Hreach. revert i track. change (tracked m).
  induction Hreach as [draws m rest Hinit|m draws m' rest _ IH Hstep|m m' _ IH Hturn].
  - by eapply fleet_init_tracked.
  - apply fleet_obstacles_separate in Hstep as (Hp & Hv & _ & Hr).
    intros i track. rewrite Hr, Hp, Hv. apply IH.
  - by eapply robots_turn_tracked.
Qed.

Lemma fleet_4x4_reachable :
  DemoAI.reachable 4 4 [(2, 2)] (DemoAI.start_positions 4 4) fleet_4x4.
Proof.
  eapply DemoAI.reach_robots.
  - eapply (DemoAI.reach_obstacles _ _ _ _ _ [3; 8; 1; 0; 2]).
    + eapply (DemoAI.reach_init _ _ _ _ [1; 1; 2; 1; 3; 3; 1; 2; 2; 3]).
      vm_compute. reflexivity.
    + vm_compute. reflexivity.
  - vm_compute. reflexivity.
Qed.

Lemma robots_never_share_a_cell_witness :
  NoDup (DemoAI.robot_positions fleet_4x4) ∧
  length (DemoAI.robot_positions fleet_4x4) = length (DemoAI.start_positions 4 4) ∧
  Forall (λ p, p ∈ DemoAI.visited_cells fleet_4x4) (DemoAI.robot_positions fleet_4x4) ∧
  DemoAI.visited_cells fleet_4x4 ## DemoAI.unvisited_cells fleet_4x4.
Proof.
  apply (robots_never_share_a_cell 4 4 [(2, 2)] (DemoAI.start_positions 4 4) fleet_4x4);
    [|apply fleet_4x4_reachable].
  refine (bool_decide_unpack (NoDup (DemoAI.start_positions 4 4)) _).
  vm_compute. exact I.
Defined.

Lemma robot_tracks_follow_the_robots_witness :
  0 ≤ 1 < Z.of_nat (length (DemoAI.robot_positions fleet_4x4)) ∧
  Forall (λ p, p ∈ DemoAI.visited_cells fleet_4x4) [(0, 2)] ∧
  ([(0, 2)] = [] ∨ last [(0, 2)] = DemoAI.robot_positions fleet_4x4 !! Z.to_nat 1).
Proof.
  apply (robot_tracks_follow_the_robots 4 4 [(2, 2)] (DemoAI.start_positions 4 4)
           fleet_4x4 1 [(0, 2)] fleet_4x4_reachable).
  vm_compute. reflexivity.
Defined.

(** X18: a path returned by the frontier search passes no cell twice,
    so it has no more cells than the grid. *)
Theorem frontier_path_is_simple s path :
  Demo.find_most_efficient_path s = Returned (Some path) →
  NoDup path ∧ (length path ≤ Z.to_nat (width s) * Z.to_nat (height s))%nat.
Proof.
  intros H. pose proof (find_most_efficient_path_simple s path H) as Hnd.
  split; [done|]. apply NoDup_on_grid_length; [done|].
  apply find_most_efficient_path_spec in H as (before & t & _ & _ & Hopen & _).
  eapply Forall_impl; [exact Hopen|]. intros p [Hp _]. by apply in_bounds_on_grid.
Qed.

Lemma frontier_path_is_simple_witness :
  NoDup [(0, 1); (0, 2); (1, 2); (2, 2)] ∧
  (length [(0, 1); (0, 2); (1, 2); (2, 2)]
   ≤ Z.to_nat (width one_left_5x5) * Z.to_nat (height one_left_5x5))%nat.
Proof.
  apply (frontier_path_is_simple one_left_5x5 [(0, 1); (0, 2); (1, 2); (2, 2)]).
  vm_compute. reflexivity.
Defined.

(** X19: a path returned by [astar_pathfinding] passes no cell twice; it
    has at most one cell more than the grid, the start. *)
Theorem astar_path_is_simple s start target path :
  H1.astar_pathfinding s start target = Returned (Some path) →
  NoDup path ∧ (length path ≤ Z.to_nat (width s) * Z.to_nat (height s) + 1)%nat.
Proof.
  intros H. pose proof (astar_pathfinding_simple s start target path H) as Hnd.
  split; [done|].
  apply astar_pathfinding_spec in H as (rest & -> & _ & _ & Hopen).
  apply NoDup_cons in Hnd as [_ Hnd]. simpl.
  enough (length rest ≤ Z.to_nat (width s) * Z.to_nat (height s))%nat by lia.
  apply NoDup_on_grid_length; [done|].
  eapply Forall_impl; [exact Hopen|]. intros p [Hp _]. by apply in_bounds_on_grid.
Qed.

Lemma astar_path_is_simple_witness :
  NoDup [(0, 0); (0, 1); (0, 2); (0, 3); (0, 4); (1, 4); (2, 4); (3, 4); (4, 4)] ∧
  (length [(0, 0); (0, 1); (0, 2); (0, 3); (0, 4); (1, 4); (2, 4); (3, 4); (4, 4)]
   ≤ Z.to_nat (width open_5x5) * Z.to_nat (height open_5x5) + 1)%nat.
Proof.
  apply (astar_path_is_simple open_5x5 (0, 0) (4, 4)
           [(0, 0); (0, 1); (0, 2); (0, 3); (0, 4); (1, 4); (2, 4); (3, 4); (4, 4)]).
  vm_compute. reflexivity.
Defined.

Lemma H14_find_eq s : H14.find_most_efficient_path s = Demo.find_most_efficient_path s.
Proof. unfold H14.find_most_efficient_path. apply H14_search_eq. Qed.

(** X20: the loop of h14.py's [main] hands the result of the search to
    [draw_path] unchecked.  In a session, a pass of the loop ends in the
    TypeError of [len(None)] exactly when, after the obstacles have
    moved, no walk from the robot over open cells meets an unvisited
    cell.  A 2 by 2 grid with the obstacle [(1, 0)] can start in such a
    state: there every pass ends so, whatever the obstacles draw. *)
Theorem h14_pass_fails_when_walled_in :
  (∀ count w h obstacles s draws rest,
     reachable count w h obstacles s →
     (h14_main_pass s draws = Returned (None, rest) ↔
      ∃ s1, move_dynamic_obstacles s draws = Returned (s1, rest) ∧
            ∀ walk, connected (robot_pos s1) walk → Forall (open_cell s1) walk →
                    Forall (λ p, p = robot_pos s1 ∨ p ∉ unvisited_cells s1) walk)) ∧
  H14.init 2 2 [(1, 0)] [0; 0; 0; 1; 1; 1] = Returned (walled_in_2x2, []) ∧
  forallb (λ draws, match h14_main_pass walled_in_2x2 draws with
                    | Returned (None, _) => true
                    | _ => false
                    end)
          (a ← seqZ 0 24; b ← seqZ 0 24; c ← seqZ 0 24; [[a; b; c]]) = true.
Proof.
  split; [|split; vm_compute; reflexivity].
  intros count w h obstacles s draws rest Hreach.
  apply reachable_tidy in Hreach as Htidy. unfold h14_main_pass. split.
  - intros H. apply rand_bind_Returned in H as (s1 & d1 & Hstep & H).
    apply rand_bind_Returned in H as (path & d2 & Hfind & H).
    apply lift_Returned in Hfind as [Hfind ->].
    destruct path as [[|c p]|].
    + by injection H.
    + apply rand_bind_Returned in H as ([b s2] & d3 & _ & H). by injection H.
    + injection H as <-. exists s1. split; [done|].
      intros walk. apply find_none_closure. by rewrite <- H14_find_eq.
  - intros (s1 & Hstep & Hwall).
    rewrite rand_bind_unfold, Hstep, rand_bind_unfold.
    destruct (move_dynamic_obstacles_spec _ _ _ _ Htidy Hstep) as [(_ & _ & Hs & _) _].
    rewrite H14_find_eq.
    destruct (Demo.find_most_efficient_path s1) as [[path|]|e|] eqn:Hfind.
    + exfalso.
      apply find_most_efficient_path_spec in Hfind
        as (before & t & -> & Hc & Hopen & Hstart & Ht & _).
      specialize (Hwall _ Hc Hopen). rewrite Forall_forall in Hwall.
      destruct (Hwall t) as [->|]; [set_solver| |done].
      apply Hstart. set_solver.
    + done.
    + exfalso. revert Hfind. by apply search_no_raise.
    + exfalso. by apply find_most_efficient_path_finished in Hfind.
Qed.

Lemma h14_pass_fails_when_walled_in_witness :
  h14_main_pass session_3x3 [0; 5; 17] = Returned (None, []) ↔
  ∃ s1, move_dynamic_obstacles session_3x3 [0; 5; 17] = Returned (s1, []) ∧
        ∀ walk, connected (robot_pos s1) walk → Forall (open_cell s1) walk →
                Forall (λ p, p = robot_pos s1 ∨ p ∉ unvisited_cells s1) walk.
Proof.
  apply (proj1 h14_pass_fails_when_walled_in 3%nat 3 3 [(1, 1)] session_3x3 [0; 5; 17] []).
  apply session_3x3_reachable.
Defined.

(** X21: in a session every cell of the matrix holds one of the six
    states 0 to 5, so [draw_grid] finds a colour for every cell: it
    raises nothing and fills one rectangle for each cell of the grid,
    row by row. *)
Theorem draw_grid_finds_every_colour count w h obstacles s v :
  reachable count w h obstacles s →
  (∀ q state, grid_get (grid s) q = Returned state → 0 ≤ state ≤ 5) ∧
  ∃ drawn, draw_grid v s = Returned drawn ∧
           drawn.*1 = cell_rect v <$> (y ← seqZ 0 (height s);
                                       x ← seqZ 0 (width s); [(x, y)]).
Proof.
  intros Hreach. pose proof (reachable_legend _ _ _ _ _ Hreach) as Hl.
  split; [exact Hl|].
  pose proof (reachable_tidy _ _ _ _ _ Hreach) as (_ & _ & Hs & _).
  apply (draw_cells_returns (width s) (height s)); [done..|].
  apply Forall_forall. intros p Hp.
  apply list_elem_of_bind in Hp as (y & Hp & Hy).
  apply list_elem_of_bind in Hp as (x & Hp & Hx).
  apply list_elem_of_singleton in Hp as ->.
  apply elem_of_seqZ in Hx, Hy. split; simpl; lia.
Qed.

Lemma draw_grid_finds_every_colour_witness :
  (∀ q state, grid_get (grid session_3x3) q = Returned state → 0 ≤ state ≤ 5) ∧
  ∃ drawn, draw_grid window_3x3 session_3x3 = Returned drawn ∧
           drawn.*1 = cell_rect window_3x3 <$> (y ← seqZ 0 (height session_3x3);
                                                x ← seqZ 0 (width session_3x3);
                                                [(x, y)]).
Proof.
  apply (draw_grid_finds_every_colour 3 3 3 [(1, 1)] session_3x3 window_3x3).
  apply session_3x3_reachable.
Defined.

(** X22: [find_most_efficient_path] of h1.py and h13.py, with its
    shortcut through A* when one cell is left.  On a grid of the
    declared shape it raises nothing ([next(iter(...))] is only run on a
    set of one cell) and ends within its budget.  A path it returns ends
    on an unvisited cell, and it holds the robot's own cell exactly when
    the shortcut was taken; when it returns [None], no walk from the
    robot over open cells meets an unvisited cell other than the
    robot's own. *)
Theorem h1_search_ends_on_unvisited s :
  shaped (width s) (height s) (grid s) →
  match H1.find_most_efficient_path s with
  | Returned (Some path) =>
      (∃ t, last path = Some t ∧ t ∈ unvisited_cells s) ∧
      (robot_pos s ∈ path ↔ size (unvisited_cells s) = 1%nat)
  | Returned None =>
      ∀ walk, connected (robot_pos s) walk → Forall (open_cell s) walk →
              Forall (λ p, p = robot_pos s ∨ p ∉ unvisited_cells s) walk
  | Raised _ | Unfinished => False
  end.
Proof.
  intros Hs.
  destruct (H1.find_most_efficient_path s) as [[path|]|e|] eqn:Hfind.
  - split; [by apply H1_find_target|].
    unfold H1.find_most_efficient_path in Hfind. case_bool_decide as Hsize.
    + destruct (elements (unvisited_cells s)) as [|target l]; [done|].
      apply astar_pathfinding_spec in Hfind as (rest & -> & _).
      split; [done|]. intros _. left.
    + rewrite H1_search_eq in Hfind.
      apply find_most_efficient_path_spec in Hfind as (? & ? & _ & _ & _ & Hstart & _).
      split; [done|]. by intros ?.
  - unfold H1.find_most_efficient_path in Hfind. case_bool_decide as Hsize.
    + apply size_1_elem_of in Hsize as [target Husize].
      apply leibniz_equiv in Husize.
      rewrite Husize, elements_singleton in Hfind.
      intros walk Hc Hopen.
      pose proof (astar_none_closure _ _ _ _ Hfind Hc Hopen) as Hall.
      apply Forall_cons in Hall as [_ Hall].
      eapply Forall_impl; [exact Hall|]. intros p Hp. right. rewrite Husize. set_solver.
    + rewrite H1_search_eq in Hfind. intros walk. by apply find_none_closure.
  - unfold H1.find_most_efficient_path in Hfind. case_bool_decide as Hsize.
    + destruct (elements (unvisited_cells s)) as [|target l] eqn:E.
      * apply elements_empty_inv in E. apply leibniz_equiv in E.
        rewrite E, size_empty in Hsize. done.
      * revert Hfind. apply astar_loop_no_raise; [done|].
        apply Forall_singleton. simpl. set_solver.
    + rewrite H1_search_eq in Hfind. revert Hfind. by apply search_no_raise.
  - by apply H1_find_finished in Hfind.
Qed.

Lemma h1_search_ends_on_unvisited_witness :
  match H1.find_most_efficient_path one_left_5x5 with
  | Returned (Some path) =>
      (∃ t, last path = Some t ∧ t ∈ unvisited_cells one_left_5x5) ∧
      (robot_pos one_left_5x5 ∈ path ↔ size (unvisited_cells one_left_5x5) = 1%nat)
  | Returned None =>
      ∀ walk, connected (robot_pos one_left_5x5) walk →
              Forall (open_cell one_left_5x5) walk →
              Forall (λ p, p = robot_pos one_left_5x5 ∨ p ∉ unvisited_cells one_left_5x5)
                     walk
  | Raised _ | Unfinished => False
  end.
Proof.
  apply (h1_search_ends_on_unvisited one_left_5x5).
  split; [reflexivity|]. repeat constructor.
Defined.
